(** * rafoz: the tabular data engine

    A shallow embedding of the data engine of the rafoz table manager
    (src/App.tsx, src/utils/csv.ts, src/utils/formatting.ts,
    src/utils/validation.ts, src/hooks/useColumnStats.ts, src/types.ts)
    and the properties of it that the specification states.

    Conventions of the embedding.
    - A JavaScript string is the list of its UTF-16 code units
      ([jsstring], code units as [N]); [js] writes a literal.
    - A [Record<string, T>] used as a dictionary is a finite map ([gmap]) of
      its own properties; where the source enumerates the keys of an object
      ([Object.keys]) the enumeration order of JavaScript is modelled.
      The members inherited from [Object.prototype] are modelled where the
      column statistics read and write them; a theorem about another read
      of a key that may name one excludes such keys by a hypothesis.
    - A number is an integer ([Z]): the numbers of the code are the
      integers up to [Number.MAX_SAFE_INTEGER], and a theorem about the
      arithmetic of identifiers carries that bound; [Date.now()] is an
      argument [now].
    - React state setters are state transformers: a handler maps the state
      it closes over to the next state. *)

From Stdlib Require Import ZArith NArith List Lia String Ascii Decimal DecimalString.
From stdpp Require Import gmap list.

Local Open Scope string_scope.
Local Open Scope list_scope.
Local Open Scope N_scope.

(** ** Strings *)

Abbreviation jsstring := (list N).

Definition js (s : string) : jsstring := N_of_ascii <$> list_ascii_of_string s.

Definition QUOTE : N := 34.
Definition COMMA : N := 44.
Definition LF : N := 10.
Definition CR : N := 13.
Definition SLASH : N := 47.

(** WhiteSpace and LineTerminator code points, as [String.prototype.trim]
    strips them. *)
Definition isWhiteSpace (c : N) : bool :=
  (9 <=? c) && (c <=? 13) || (c =? 32) || (c =? 160) || (c =? 5760)
  || (8192 <=? c) && (c <=? 8202) || (c =? 8232) || (c =? 8233)
  || (c =? 8239) || (c =? 8287) || (c =? 12288) || (c =? 65279).

Fixpoint trimStart (s : jsstring) : jsstring :=
  match s with
  | c :: s' => if isWhiteSpace c then trimStart s' else s
  | [] => []
  end.

Definition trimEnd (s : jsstring) : jsstring := rev (trimStart (rev s)).

Definition trim (s : jsstring) : jsstring := trimEnd (trimStart s).

(** [s !== ''] *)
Definition nonEmpty (s : jsstring) : bool :=
  match s with [] => false | _ => true end.

(** [Array.prototype.join] on an array of strings. *)
Fixpoint join (sep : jsstring) (l : list jsstring) : jsstring :=
  match l with
  | [] => []
  | [x] => x
  | x :: l' => x ++ sep ++ join sep l'
  end.

(** ** src/utils/csv.ts *)

Module Csv.

(** The four locals of [parseCSV]'s loop. *)
Record scanner := Scanner {
  rows : list (list jsstring);
  row : list jsstring;
  cell : jsstring;
  inQuotes : bool
}.

Definition start : scanner := Scanner [] [] [] false.

Definition addChar (c : N) (st : scanner) : scanner :=
  Scanner (rows st) (row st) (cell st ++ [c]) (inQuotes st).

Definition toggle (st : scanner) : scanner :=
  Scanner (rows st) (row st) (cell st) (negb (inQuotes st)).

Definition endCell (st : scanner) : scanner :=
  Scanner (rows st) (row st ++ [cell st]) [] (inQuotes st).

Definition endRow (st : scanner) : scanner :=
  Scanner (rows st ++ [row st ++ [cell st]]) [] [] (inQuotes st).

(** The [for] loop over [text]; the doubled quote advances [i] twice. *)
Fixpoint scan (text : jsstring) (st : scanner) : scanner :=
  match text with
  | [] => st
  | char :: rest =>
    if char =? QUOTE then
      match rest with
      | next :: rest' =>
        if inQuotes st && (next =? QUOTE)
        then scan rest' (addChar QUOTE st)
        else scan rest (toggle st)
      | [] => toggle st
      end
    else if (char =? COMMA) && negb (inQuotes st) then scan rest (endCell st)
    else if (char =? LF) && negb (inQuotes st) then scan rest (endRow st)
    else if char =? CR then scan rest st
    else scan rest (addChar char st)
  end.

(** [r.some(c => c.trim() !== '')] *)
Definition someNonBlank (r : list jsstring) : bool :=
  existsb (fun c => nonEmpty (trim c)) r.

Definition parseCSV (text : jsstring) : list (list jsstring) :=
  List.filter someNonBlank (rows (endRow (scan text start))).

(** The test of [escapeCell]: the value holds a quote, a comma or a line
    feed. *)
Definition needsQuotes (v : jsstring) : bool :=
  existsb (fun c => (c =? QUOTE) || (c =? COMMA) || (c =? LF)) v.

(** The [replace] of [escapeCell]: every quote is written twice. *)
Fixpoint doubleQuotes (v : jsstring) : jsstring :=
  match v with
  | [] => []
  | c :: v' => if c =? QUOTE then QUOTE :: QUOTE :: doubleQuotes v'
               else c :: doubleQuotes v'
  end.

Definition escapeCell (value : jsstring) : jsstring :=
  if needsQuotes value then [QUOTE] ++ doubleQuotes value ++ [QUOTE] else value.

(** [r.map(escapeCell).join(',')] *)
Definition encodeRow (r : list jsstring) : jsstring :=
  join [COMMA] (escapeCell <$> r).

Definition stringifyCSV (rows : list (list jsstring)) : jsstring :=
  join [LF] (encodeRow <$> rows).

End Csv.

(** ** Numbers and strings *)

Local Open Scope Z_scope.

(** [String(n)] for an integer [n]. *)
Definition numToString (n : Z) : jsstring := js (NilZero.string_of_int (Z.to_int n)).

(** [s.split(sep)] for a one-character separator. *)
Fixpoint split (sep : N) (s : jsstring) : list jsstring :=
  match s with
  | [] => [[]]
  | c :: s' =>
    if (c =? sep)%N then [] :: split sep s'
    else match split sep s' with
         | p :: ps => (c :: p) :: ps
         | [] => [[c]]
         end
  end.

Definition digitValue (c : N) : option Z :=
  if ((48 <=? c) && (c <=? 57))%N then Some (Z.of_N c - 48) else None.

(** The digits at the start of [s], most significant first. *)
Fixpoint leadingDigits (s : jsstring) : list Z :=
  match s with
  | c :: s' => match digitValue c with
               | Some d => d :: leadingDigits s'
               | None => []
               end
  | [] => []
  end.

(** [Number.parseInt(s, 10)]: leading white space is skipped, a sign is
    read, then the longest run of decimal digits; [None] is [NaN]. *)
Definition parseInt (s : jsstring) : option Z :=
  let s1 := trimStart s in
  let '(sign, s2) :=
    match s1 with
    | c :: r => if (c =? 45)%N then (-1, r)
                else if (c =? 43)%N then (1, r) else (1, s1)
    | [] => (1, s1)
    end in
  match leadingDigits s2 with
  | [] => None
  | ds => Some (sign * fold_left (fun acc d => 10 * acc + d) ds 0)
  end.

(** ** src/utils/validation.ts *)

Definition SEGMENT_CHAR_LIMIT : nat := 50.

Record Validation := {
  isValid : bool;
  invalidSegments : list jsstring
}.

Definition validateSegments (val : jsstring) : Validation :=
  match val with
  | [] => {| isValid := true; invalidSegments := [] |}
  | _ =>
    let segments := split SLASH val in
    let invalidSegments :=
      List.filter (fun s => (SEGMENT_CHAR_LIMIT <? length (trim s))%nat) segments in
    {| isValid := (length invalidSegments =? 0)%nat;
       invalidSegments := invalidSegments |}
  end.

(** ** Parsed JSON

    The value [JSON.parse] returns.  An object is the list of its
    properties in enumeration order, with distinct keys. *)

#[warnings="-register-all"]
Inductive json :=
| JNull
| JBool (b : bool)
| JNum (n : Z)
| JStr (s : jsstring)
| JArr (l : list json)
| JObj (l : list (jsstring * json)).

(** ** src/types.ts *)

Record Column := {
  c_id : jsstring;
  c_label : jsstring
}.

Record DynamicRow := {
  r_id : jsstring;
  r_values : gmap (list N) (list N);
  r_updatedAt : Z;
  r_comment : option json
}.

Inductive FilterMode := include | exclude.

Record ActiveFilter := {
  columnId : jsstring;
  value : jsstring;
  mode : FilterMode
}.

Inductive TableType := classic | pairwise.

Record ProjectTable := {
  t_id : jsstring;
  t_name : jsstring;
  t_type : TableType;
  t_columns : list Column;
  t_rows : list DynamicRow;
  t_autoIdEnabled : option bool;
  t_autoIdColumnId : option jsstring;
  t_createdAt : Z;
  t_updatedAt : Z
}.

Record Folder := {
  f_id : jsstring;
  f_name : jsstring;
  f_description : jsstring;
  f_tables : list ProjectTable;
  f_createdAt : Z;
  f_updatedAt : Z
}.

Global Instance FilterMode_eq_dec : EqDecision FilterMode.
Proof. solve_decision. Defined.

(** [row.values[k] || ''] *)
Definition cellOf (r : DynamicRow) (k : jsstring) : jsstring :=
  default [] (r_values r !! k).

(** ** src/App.tsx: state *)

(** The part of the component state that the engine reads or writes. *)
Record State := {
  folders : list Folder;
  activeFolderId : option jsstring;
  activeTableId : option jsstring;
  activeFilters : list ActiveFilter;
  deferredSearch : jsstring;
  rowsPage : Z;
  newRowValues : gmap (list N) (list N)
}.

Definition setFolders (fs : list Folder) (st : State) : State :=
  {| folders := fs; activeFolderId := activeFolderId st;
     activeTableId := activeTableId st; activeFilters := activeFilters st;
     deferredSearch := deferredSearch st; rowsPage := rowsPage st;
     newRowValues := newRowValues st |}.

Definition setActiveFilters (l : list ActiveFilter) (st : State) : State :=
  {| folders := folders st; activeFolderId := activeFolderId st;
     activeTableId := activeTableId st; activeFilters := l;
     deferredSearch := deferredSearch st; rowsPage := rowsPage st;
     newRowValues := newRowValues st |}.

Definition setRowsPage (p : Z) (st : State) : State :=
  {| folders := folders st; activeFolderId := activeFolderId st;
     activeTableId := activeTableId st; activeFilters := activeFilters st;
     deferredSearch := deferredSearch st; rowsPage := p;
     newRowValues := newRowValues st |}.

Definition setNewRowValues (v : gmap (list N) (list N)) (st : State) : State :=
  {| folders := folders st; activeFolderId := activeFolderId st;
     activeTableId := activeTableId st; activeFilters := activeFilters st;
     deferredSearch := deferredSearch st; rowsPage := rowsPage st;
     newRowValues := v |}.

(** [{ ...t, columns, rows }], [{ ...t, updatedAt }] and the like. *)
Definition withColumnsRows (cols : list Column) (rs : list DynamicRow)
    (t : ProjectTable) : ProjectTable :=
  {| t_id := t_id t; t_name := t_name t; t_type := t_type t;
     t_columns := cols; t_rows := rs;
     t_autoIdEnabled := t_autoIdEnabled t;
     t_autoIdColumnId := t_autoIdColumnId t;
     t_createdAt := t_createdAt t; t_updatedAt := t_updatedAt t |}.

Definition withRows (rs : list DynamicRow) (t : ProjectTable) : ProjectTable :=
  withColumnsRows (t_columns t) rs t.

Definition withTableUpdatedAt (now : Z) (t : ProjectTable) : ProjectTable :=
  {| t_id := t_id t; t_name := t_name t; t_type := t_type t;
     t_columns := t_columns t; t_rows := t_rows t;
     t_autoIdEnabled := t_autoIdEnabled t;
     t_autoIdColumnId := t_autoIdColumnId t;
     t_createdAt := t_createdAt t; t_updatedAt := now |}.

Definition withValues (v : gmap (list N) (list N)) (r : DynamicRow) : DynamicRow :=
  {| r_id := r_id r; r_values := v; r_updatedAt := r_updatedAt r;
     r_comment := r_comment r |}.

Definition withValuesUpdatedAt (v : gmap (list N) (list N)) (now : Z)
    (r : DynamicRow) : DynamicRow :=
  {| r_id := r_id r; r_values := v; r_updatedAt := now;
     r_comment := r_comment r |}.

(** ** Derived state *)

Definition activeFolder (st : State) : option Folder :=
  List.find (fun f => bool_decide (Some (f_id f) = activeFolderId st)) (folders st).

Definition activeTable (st : State) : option ProjectTable :=
  match activeFolder st with
  | Some f =>
    List.find (fun t => bool_decide (Some (t_id t) = activeTableId st)) (f_tables f)
  | None => None
  end.

(** The members of [Object.prototype], which every object literal
    inherits (ECMAScript, with its Annex B): the built-in functions, and
    the accessor [__proto__]. *)
Definition objectPrototypeFunctions : list jsstring :=
  js <$> ["constructor"; "__defineGetter__"; "__defineSetter__";
          "hasOwnProperty"; "__lookupGetter__"; "__lookupSetter__";
          "isPrototypeOf"; "propertyIsEnumerable"; "toString"; "valueOf";
          "toLocaleString"]%string.

Definition PROTO : jsstring := js "__proto__".

Definition objectPrototypeKeys : list jsstring :=
  objectPrototypeFunctions ++ [PROTO].

(** What [counts] holds under a key: a number, or the string that
    [(counts[val] || 0) + 1] makes when [counts[val]] is an inherited
    member or already a string. *)
Inductive CountValue :=
  | CountNumber (n : nat)
  | CountString (s : jsstring).

(** [counts] is the object literal [{}] with the own properties the loop
    gives it. *)
Record ColumnStats := {
  counts : gmap (list N) CountValue;
  emptyCount : nat
}.

Section ColumnStatistics.
(** [String(f)] for the built-in function [f] that [Object.prototype]
    holds under a name; the text is the engine's. *)
Variable nativeFunctionText : jsstring → jsstring.

(** [String(o[k])] for a key [k] that is not an own property of the object
    literal [o]: the text of the inherited member, [None] when
    [Object.prototype] has no member [k] and [o[k]] is [undefined]. *)
Definition inheritedText (k : jsstring) : option jsstring :=
  if bool_decide (k ∈ objectPrototypeFunctions) then Some (nativeFunctionText k)
  else if bool_decide (k = PROTO) then Some (js "[object Object]")
  else None.

(** [val = row.values[colId] || ''] as the property key it is used as;
    [None] when [val] is falsy.  An inherited member is an object, which
    is truthy whatever its text. *)
Definition cellKey (row : DynamicRow) (colId : jsstring) : option jsstring :=
  match r_values row !! colId with
  | Some val => if nonEmpty val then Some val else None
  | None => inheritedText colId
  end.

(** [(counts[val] || 0) + 1] *)
Definition bumped (counts : gmap (list N) CountValue) (val : jsstring)
    : CountValue :=
  match counts !! val with
  | Some (CountNumber n) => CountNumber (n + 1)
  | Some (CountString s) =>
    if nonEmpty s then CountString (s ++ js "1") else CountNumber 1
  | None =>
    match inheritedText val with
    | Some text => CountString (text ++ js "1")
    | None => CountNumber 1
    end
  end.

(** [counts[val] = v].  Without an own property [__proto__] the assignment
    to that key runs the inherited setter, which ignores a value that is
    not an object. *)
Definition assignCount (counts : gmap (list N) CountValue) (val : jsstring)
    (v : CountValue) : gmap (list N) CountValue :=
  match counts !! val with
  | None => if bool_decide (val = PROTO) then counts else <[val := v]> counts
  | Some _ => <[val := v]> counts
  end.

(** The body of the inner [forEach] over the rows. *)
Definition countRow (colId : jsstring) (stat : ColumnStats) (row : DynamicRow)
    : ColumnStats :=
  match cellKey row colId with
  | Some val =>
    {| counts := assignCount (counts stat) val (bumped (counts stat) val);
       emptyCount := emptyCount stat |}
  | None => {| counts := counts stat; emptyCount := S (emptyCount stat) |}
  end.

(** The statistics of one column: the inner [forEach], from the fresh
    [{ counts: {}, emptyCount: 0 }]. *)
Definition countRows (colId : jsstring) (rows : list DynamicRow) : ColumnStats :=
  fold_left (countRow colId) rows {| counts := ∅; emptyCount := 0 |}.

(** [stats] is written and read under the ids of the columns only, and
    every id is written before it is read; under [__proto__] the write
    sets the prototype of [stats] and the read returns it, so that [stats]
    is a map of the column ids. *)
Definition statsOfTable (t : ProjectTable) : gmap (list N) ColumnStats :=
  fold_left (fun stats col => <[c_id col := countRows (c_id col) (t_rows t)]> stats)
            (t_columns t) ∅.

Definition columnValueStats (st : State) : gmap (list N) ColumnStats :=
  match activeTable st with
  | None => ∅
  | Some t => statsOfTable t
  end.

(** src/hooks/useColumnStats.ts: the same computation as a hook. *)
Definition useColumnStats (activeTable : option ProjectTable)
    : gmap (list N) ColumnStats :=
  match activeTable with
  | None => ∅
  | Some t =>
    fold_left (fun stats col => <[c_id col := countRows (c_id col) (t_rows t)]> stats)
              (t_columns t) ∅
  end.
End ColumnStatistics.

(** ** Filters *)

Definition sameFilter (cid val : jsstring) (f : ActiveFilter) : bool :=
  bool_decide (columnId f = cid) && bool_decide (value f = val).

(** The callback of the [map]: [{ ...f, mode: 'exclude' }] on the pair. *)
Definition markExcluded (cid val : jsstring) (f : ActiveFilter) : ActiveFilter :=
  if sameFilter cid val f
  then {| columnId := columnId f; value := value f; mode := exclude |} else f.

(** The updater of [toggleFilter]. *)
Definition toggled (cid val : jsstring) (prev : list ActiveFilter)
    : list ActiveFilter :=
  match List.find (sameFilter cid val) prev with
  | None => prev ++ [{| columnId := cid; value := val; mode := include |}]
  | Some ex =>
    match mode ex with
    | include => markExcluded cid val <$> prev
    | exclude => List.filter (fun f => negb (sameFilter cid val f)) prev
    end
  end.

Definition toggleFilter (cid val : jsstring) (st : State) : State :=
  setRowsPage 1 (setActiveFilters (toggled cid val (activeFilters st)) st).

Definition removeFilter (colId val : jsstring) (st : State) : State :=
  setActiveFilters
    (List.filter (fun f => negb (sameFilter colId val f)) (activeFilters st)) st.

(** The [Clear All] button and the change of the viewed table. *)
Definition clearFilters (st : State) : State := setActiveFilters [] st.

(** ** The mutation boundary *)

Definition stampFolder (now : Z) (tables : list ProjectTable) (f : Folder) : Folder :=
  {| f_id := f_id f; f_name := f_name f; f_description := f_description f;
     f_tables := tables; f_createdAt := f_createdAt f; f_updatedAt := now |}.

(** [updateActiveTable(updater)]: [setFolders(prev => prev.map(...))]. *)
Definition updateActiveTable (now : Z) (updater : ProjectTable → ProjectTable)
    (st : State) : State :=
  setFolders
    ((fun f =>
        if bool_decide (Some (f_id f) = activeFolderId st)
        then stampFolder now
               ((fun t => if bool_decide (Some (t_id t) = activeTableId st)
                          then withTableUpdatedAt now (updater t) else t)
                <$> f_tables f) f
        else f) <$> folders st) st.

(** The active table when found: its folder and both positions. *)
Definition activeAt (st : State) (i j : nat) (f : Folder) (t : ProjectTable) : Prop :=
  folders st !! i = Some f ∧ Some (f_id f) = activeFolderId st ∧
  f_tables f !! j = Some t ∧ Some (t_id t) = activeTableId st.

(** The updater of [handleDeleteColumn]. *)
Definition deleteColumn (colId : jsstring) (t : ProjectTable) : ProjectTable :=
  {| t_id := t_id t; t_name := t_name t; t_type := t_type t;
     t_columns := List.filter (fun c => negb (bool_decide (c_id c = colId))) (t_columns t);
     t_rows := (fun r => withValues (delete colId (r_values r)) r) <$> t_rows t;
     t_autoIdEnabled :=
       if bool_decide (t_autoIdColumnId t = Some colId) then Some false
       else t_autoIdEnabled t;
     t_autoIdColumnId :=
       if bool_decide (t_autoIdColumnId t = Some colId) then None
       else t_autoIdColumnId t;
     t_createdAt := t_createdAt t; t_updatedAt := t_updatedAt t |}.

Definition handleDeleteColumn (colId : jsstring) (now : Z) (st : State) : State :=
  match activeTable st with
  | Some t =>
    if bool_decide (t_autoIdColumnId t = Some colId) then st
    else updateActiveTable now (deleteColumn colId) st
  | None => updateActiveTable now (deleteColumn colId) st
  end.

(** ** Row generation *)

(** [row_${now}_${i}] and [col_${now}_${idx}] *)
Definition rowId (now i : Z) : jsstring :=
  js "row_" ++ numToString now ++ js "_" ++ numToString i.

Definition freshColId (now idx : Z) : jsstring :=
  js "col_" ++ numToString now ++ js "_" ++ numToString idx.

Definition idColumnId (t : ProjectTable) : option jsstring :=
  match t_autoIdEnabled t with
  | Some true => t_autoIdColumnId t
  | _ => None
  end.

Definition hasIdColumn (t : ProjectTable) : bool :=
  match idColumnId t with
  | Some i => nonEmpty i && existsb (fun c => bool_decide (c_id c = i)) (t_columns t)
  | None => false
  end.

(** The callback of the [reduce] over the rows. *)
Definition maxIdStep (idc : jsstring) (max : Z) (row : DynamicRow) : Z :=
  match parseInt (default [] (r_values row !! idc)) with
  | None => max
  | Some num => if num >? max then num else max
  end.

Definition nextIdStart (t : ProjectTable) : Z :=
  match idColumnId t with
  | Some idc =>
    if hasIdColumn t then fold_left (maxIdStep idc) (t_rows t) 0 + 1 else 1
  | None => 1
  end.

(** [if (hasIdColumn && idColumnId) values[idColumnId] = String(n)] *)
Definition assignId (t : ProjectTable) (n : Z) (values : gmap (list N) (list N))
    : gmap (list N) (list N) :=
  match idColumnId t with
  | Some idc => if hasIdColumn t then <[idc := numToString n]> values else values
  | None => values
  end.

Definition isNewRowDataValid (st : State) : bool :=
  bool_decide (map_Forall (fun _ val => isValid (validateSegments val) = true)
                          (newRowValues st)).

(** [newRowValues[col.id] || ''] *)
Definition inputOf (inputs : gmap (list N) (list N)) (col : Column) : jsstring :=
  default [] (inputs !! c_id col).

(** *** Classic mode *)

Definition classicParts (inputs : gmap (list N) (list N)) (col : Column)
    : list jsstring :=
  trim <$> split SLASH (inputOf inputs col).

(** The first [forEach]: [colValuesMap] and [maxRows]. *)
Definition classicScan (inputs : gmap (list N) (list N)) (cols : list Column)
    : gmap (list N) (list jsstring) * nat :=
  fold_left
    (fun '(colValuesMap, maxRows) col =>
       let parts := classicParts inputs col in
       (<[c_id col := parts]> colValuesMap,
        if (maxRows <? length parts)%nat then length parts else maxRows))
    cols (∅, 0%nat).

(** [colValuesMap[col.id][i] || ''] for every column. *)
Definition classicRowValues (colValuesMap : gmap (list N) (list jsstring))
    (cols : list Column) (i : nat) : gmap (list N) (list N) :=
  fold_left
    (fun rowValues col =>
       <[c_id col := default [] (default [] (colValuesMap !! c_id col) !! i)]> rowValues)
    cols ∅.

Definition classicRows (activeTable : ProjectTable)
    (inputs : gmap (list N) (list N)) (now : Z) : list DynamicRow :=
  let '(colValuesMap, maxRows) := classicScan inputs (t_columns activeTable) in
  (fun i =>
     {| r_id := rowId now (Z.of_nat i);
        r_values := assignId activeTable (nextIdStart activeTable + Z.of_nat i)
                      (classicRowValues colValuesMap (t_columns activeTable) i);
        r_updatedAt := now;
        r_comment := None |}) <$> seq 0 maxRows.

(** *** Pairwise mode *)

(** An array index as a property key: the decimal numeral, without leading
    zeros, of a number below 2^32 - 1. *)
Definition arrayIndex (k : jsstring) : option Z :=
  match k with
  | [] => None
  | c :: rest =>
    if bool_decide (length (leadingDigits k) = length k)
       && (negb (c =? 48)%N || negb (nonEmpty rest))
       && (length k <=? 10)%nat
    then let n := fold_left (fun acc d => 10 * acc + d) (leadingDigits k) 0 in
         if n <? 4294967295 then Some n else None
    else None
  end.

(** Where a new array-index key [k] of value [n] lands among the keys. *)
Fixpoint insertIndexKey (n : Z) (k : jsstring) (ks : list jsstring)
    : list jsstring :=
  match ks with
  | [] => [k]
  | k' :: ks' =>
    match arrayIndex k' with
    | Some m => if m <? n then k' :: insertIndexKey n k ks' else k :: ks
    | None => k :: ks
    end
  end.

(** The keys of an object after [obj[k] = ...], in the order [Object.keys]
    lists them: array indices ascending, then the other keys in creation
    order. *)
Definition addKey (ks : list jsstring) (k : jsstring) : list jsstring :=
  if bool_decide (k ∈ ks) then ks
  else match arrayIndex k with
       | Some n => insertIndexKey n k ks
       | None => ks ++ [k]
       end.

Definition pairwiseParts (inputs : gmap (list N) (list N)) (col : Column)
    : list jsstring :=
  let parts := List.filter nonEmpty (trim <$> split SLASH (inputOf inputs col)) in
  if (0 <? length parts)%nat then parts else [[]].

(** The [forEach] that fills [options]: the object as a map, and its keys
    as [Object.keys(options)] lists them. *)
Definition pairwiseOptions (inputs : gmap (list N) (list N)) (cols : list Column)
    : gmap (list N) (list jsstring) * list jsstring :=
  fold_left
    (fun '(options, keys) col =>
       (<[c_id col := pairwiseParts inputs col]> options, addKey keys (c_id col)))
    cols (∅, []).

(** The bound on [combinations.length]. *)
Definition COMBINATIONS_CAP : nat := 2000.
Global Arguments COMBINATIONS_CAP : simpl never.

(** [generate(idx, current)], on the keys from [idx] on; the state is the
    object [current], which every call writes to, and [combinations]. *)
Fixpoint generate (options : gmap (list N) (list jsstring)) (keys : list jsstring)
    (st : gmap (list N) (list N) * list (gmap (list N) (list N)))
    : gmap (list N) (list N) * list (gmap (list N) (list N)) :=
  if (COMBINATIONS_CAP <=? length (snd st))%nat then st
  else match keys with
       | [] => (fst st, snd st ++ [fst st])
       | k :: keys' =>
         fold_left
           (fun st' val => generate options keys' (<[k := val]> (fst st'), snd st'))
           (default [] (options !! k)) st
       end.

Definition pairwiseRows (activeTable : ProjectTable)
    (inputs : gmap (list N) (list N)) (now : Z) : list DynamicRow :=
  let '(options, keys) := pairwiseOptions inputs (t_columns activeTable) in
  let combinations := snd (generate options keys (∅, [])) in
  imap (fun i combo =>
          {| r_id := rowId now (Z.of_nat i);
             r_values := assignId activeTable
                           (nextIdStart activeTable + Z.of_nat i) combo;
             r_updatedAt := now;
             r_comment := None |}) combinations.

(** The updater of both modes: [{ ...t, rows: [...newRows, ...t.rows] }]. *)
Definition prependRows (newRows : list DynamicRow) (t : ProjectTable) : ProjectTable :=
  withRows (newRows ++ t_rows t) t.

(** [handleAddRow]; in pairwise mode the state after the timer has fired. *)
Definition handleAddRow (now : Z) (st : State) : State :=
  match activeTable st with
  | None => st
  | Some activeTable =>
    if negb (isNewRowDataValid st) then st
    else
      let newRows :=
        match t_type activeTable with
        | classic => classicRows activeTable (newRowValues st) now
        | pairwise => pairwiseRows activeTable (newRowValues st) now
        end in
      setRowsPage 1 (setNewRowValues ∅ (updateActiveTable now (prependRows newRows) st))
  end.

(** ** Row editing *)

(** The edit dialog: [setEditRowValues({ ...r.values })] on opening, then
    one [setEditRowValues({ ...editRowValues, [col.id]: text })] for each
    change of the input of a column. *)
Definition editRowValues (r : DynamicRow) (typed : list (Column * jsstring))
    : gmap (list N) (list N) :=
  fold_left (fun vals '(col, text) => <[c_id col := text]> vals) typed (r_values r).

(** The updater of the dialog's [Save]. *)
Definition saveRow (editingRowId : jsstring) (vals : gmap (list N) (list N))
    (now : Z) (t : ProjectTable) : ProjectTable :=
  withRows ((fun r => if bool_decide (r_id r = editingRowId)
                      then withValuesUpdatedAt vals now r else r) <$> t_rows t) t.

(** Bulk edit.  [massUpdateFields] maps a column id to [(enabled, value)];
    the dialog fills it from the columns and the active filters. *)
Definition initialMassUpdateFields (filters : list ActiveFilter)
    (cols : list Column) : gmap (list N) (bool * jsstring) :=
  fold_left
    (fun initial c =>
       <[c_id c := match List.find (fun x => bool_decide (columnId x = c_id c)) filters with
                   | Some f => (true, value f)
                   | None => (false, [])
                   end]> initial)
    cols ∅.

(** The updater of the dialog's [Apply]. *)
Definition massUpdate (massUpdateFields : gmap (list N) (bool * jsstring))
    (selectedRowIds : list jsstring) (now : Z) (t : ProjectTable) : ProjectTable :=
  let fields := snd <$> filter (fun kv => fst (snd kv) = true) massUpdateFields in
  withRows ((fun r => if bool_decide (r_id r ∈ selectedRowIds)
                      then withValuesUpdatedAt (fields ∪ r_values r) now r
                      else r) <$> t_rows t) t.

(** ** Import *)

Definition isArray (j : json) : bool :=
  match j with JArr _ => true | _ => false end.

Definition truthy (j : json) : bool :=
  match j with
  | JNull => false
  | JBool b => b
  | JNum n => negb (n =? 0)
  | JStr s => nonEmpty s
  | JArr _ | JObj _ => true
  end.

Definition indexed {A} (l : list A) : list (jsstring * A) :=
  imap (fun i x => (numToString (Z.of_nat i), x)) l.

(** [Object.entries(j)]: the enumerable own properties. *)
Definition entries (j : json) : list (jsstring * json) :=
  match j with
  | JObj l => l
  | JArr l => indexed l
  | JStr s => indexed ((fun c => JStr [c]) <$> s)
  | _ => []
  end.

Fixpoint assoc {A} (k : jsstring) (l : list (jsstring * A)) : option A :=
  match l with
  | [] => None
  | (k', v) :: l' => if bool_decide (k' = k) then Some v else assoc k l'
  end.

(** [j[k]] for [j] other than [null]; [None] is [undefined]. *)
Definition getProp (j : json) (k : jsstring) : option json :=
  match j with
  | JArr l => if bool_decide (k = js "length") then Some (JNum (Z.of_nat (length l)))
              else assoc k (entries j)
  | JStr s => if bool_decide (k = js "length") then Some (JNum (Z.of_nat (length s)))
              else assoc k (entries j)
  | _ => assoc k (entries j)
  end.

(** [String(j)] *)
Fixpoint toStr (j : json) : jsstring :=
  match j with
  | JNull => js "null"
  | JBool true => js "true"
  | JBool false => js "false"
  | JNum n => numToString n
  | JStr s => s
  | JArr l => join (js ",") (List.map (fun e => match e with
                                               | JNull => []
                                               | _ => toStr e
                                               end) l)
  | JObj _ => js "[object Object]"
  end.

(** [val !== null && val !== undefined ? String(val) : ''] *)
Definition cellText (val : option json) : jsstring :=
  match val with
  | None | Some JNull => []
  | Some v => toStr v
  end.

(** [{ ...t, columns: [...t.columns, ...columnsToAdd], rows: [...t.rows, ...newRows] }] *)
Definition appendColumnsRows (columnsToAdd : list Column) (newRows : list DynamicRow)
    (t : ProjectTable) : ProjectTable :=
  withColumnsRows (t_columns t ++ columnsToAdd) (t_rows t ++ newRows) t.

(** *** The native shape: [{ columns: [], rows: [] }] *)

Definition columnFromFile (c : json) : option Column :=
  match c with
  | JObj _ => match getProp c (js "id"), getProp c (js "label") with
              | Some (JStr i), Some (JStr l) => Some {| c_id := i; c_label := l |}
              | _, _ => None
              end
  | _ => None
  end.

(** [r && r.values]; for an array [r.values] is the member [values] of
    [Array.prototype], a function. *)
Definition rowFromFile (r : json) : option json :=
  if truthy r then
    match r with
    | JArr _ => Some r
    | _ =>
      match getProp r (js "values") with
      | Some v => if truthy v then Some r else None
      | None => None
      end
    end
  else None.

(** [v || {}] *)
Definition orEmptyObject (v : option json) : json :=
  match v with
  | Some j => if truthy j then j else JObj []
  | None => JObj []
  end.

Definition nativeRow (activeTable : ProjectTable) (now : Z) (rowIdx : nat)
    (row : json) : DynamicRow :=
  {| r_id := rowId now (Z.of_nat rowIdx);
     r_values :=
       assignId activeTable (nextIdStart activeTable + Z.of_nat rowIdx)
         (fold_left (fun values '(key, val) => <[key := cellText (Some val)]> values)
                    (entries (orEmptyObject (getProp row (js "values")))) ∅);
     r_updatedAt := match getProp row (js "updatedAt") with
                    | Some (JNum n) => n
                    | _ => now
                    end;
     r_comment := getProp row (js "comment") |}.

Definition nativeUpdater (columnsFromFile : list Column) (newRows : list DynamicRow)
    (t : ProjectTable) : ProjectTable :=
  appendColumnsRows
    (List.filter (fun c => negb (bool_decide (c_id c ∈ c_id <$> t_columns t)))
                 columnsFromFile)
    newRows t.

(** *** The generic shape *)

(** [typeof j === 'object' && j !== null] *)
Definition isObject (j : json) : bool :=
  match j with JArr _ | JObj _ => true | _ => false end.

Definition elements (j : json) : list json :=
  match j with JArr l => l | _ => [] end.

(** The normalization to [dataArray]; [parsed] is not [null]. *)
Definition dataArrayOf (parsed : json) : list json :=
  match getProp parsed (js "data") with
  | Some (JArr l) => l
  | _ => match parsed with
         | JArr l => l
         | JObj _ => [parsed]
         | _ => []
         end
  end.

(** [allKeys], a [Set]: the keys in the order of their first insertion. *)
Definition addToSet (s : list jsstring) (k : jsstring) : list jsstring :=
  if bool_decide (k ∈ s) then s else s ++ [k].

Definition allKeysOf (dataArray : list json) : list jsstring :=
  fold_left (fun allKeys row =>
               if isObject row then fold_left addToSet (fst <$> entries row) allKeys
               else allKeys)
            dataArray [].

Definition newColumnsOf (now : Z) (colKeys : list jsstring) : list Column :=
  imap (fun idx key => {| c_id := freshColId now (Z.of_nat idx); c_label := key |}) colKeys.

(** [{ ...obj, [k]: val }] for a key [k] of [obj]. *)
Definition replaceProp (k : jsstring) (val : json) (obj : json) : json :=
  JObj ((fun kv => if bool_decide (fst kv = k) then (k, val) else kv) <$> entries obj).

(** The rows one element of [dataArray] expands to; [None] when
    [Object.keys(obj)] throws. *)
Definition expandObject (obj : json) : option (list json) :=
  match obj with
  | JNull => None
  | _ =>
    let arrayKeys :=
      List.filter (fun key => match getProp obj key with
                              | Some v => isArray v
                              | None => false
                              end) (fst <$> entries obj) in
    match arrayKeys with
    | [] => Some [obj]
    | firstArrayKey :: _ =>
      Some ((fun val => replaceProp firstArrayKey val obj)
              <$> elements (default JNull (getProp obj firstArrayKey)))
    end
  end.

Fixpoint expandRows (dataArray : list json) : option (list json) :=
  match dataArray with
  | [] => Some []
  | obj :: rest =>
    match expandObject obj, expandRows rest with
    | Some l, Some l' => Some (l ++ l')
    | _, _ => None
    end
  end.

(** [colKeys.indexOf(k)] *)
Fixpoint indexOf (k : jsstring) (l : list jsstring) : option nat :=
  match l with
  | [] => None
  | k' :: l' => if bool_decide (k' = k) then Some 0%nat else S <$> indexOf k l'
  end.

Definition genericRow (activeTable : ProjectTable) (now : Z)
    (colKeys : list jsstring) (newColumns : list Column) (rowIdx : nat)
    (obj : json) : DynamicRow :=
  {| r_id := rowId now (Z.of_nat rowIdx);
     r_values :=
       assignId activeTable (nextIdStart activeTable + Z.of_nat rowIdx)
         (fold_left
            (fun values col =>
               let val := match indexOf (c_label col) colKeys with
                          | Some keyIndex =>
                            match colKeys !! keyIndex with
                            | Some key => getProp obj key
                            | None => None
                            end
                          | None => None
                          end in
               <[c_id col := cellText val]> values)
            newColumns ∅);
     r_updatedAt := now;
     r_comment := None |}.

Section JsonImport.
(** [String.prototype.toLowerCase] *)
Variable toLowerCase : jsstring → jsstring.

(** src/utils/formatting.ts *)
Definition normalizeLabel (label : jsstring) : jsstring :=
  toLowerCase (trim label).

Definition genericUpdater (newColumns : list Column) (newRows : list DynamicRow)
    (t : ProjectTable) : ProjectTable :=
  appendColumnsRows
    (List.filter
       (fun col => negb (bool_decide (normalizeLabel (c_label col)
                                      ∈ (normalizeLabel ∘ c_label) <$> t_columns t)))
       newColumns)
    newRows t.

(** The body of [handlePasteJSON] and of the [onload] of
    [handleImportJSON], which are the same; [parsed] is the outcome of
    [JSON.parse], [None] when it throws.  Every failure leaves the state
    as it is. *)
Definition importJSON (parsed : option json) (now : Z) (st : State) : State :=
  match activeTable st, parsed with
  | Some activeTable, Some parsed =>
    match getProp parsed (js "columns"), getProp parsed (js "rows") with
    | Some (JArr columns), Some (JArr rows) =>
      let columnsFromFile := omap columnFromFile columns in
      if (length columnsFromFile =? 0)%nat then st
      else
        let rowsFromFile := omap rowFromFile rows in
        let newRows := imap (nativeRow activeTable now) rowsFromFile in
        updateActiveTable now (nativeUpdater columnsFromFile newRows) st
    | _, _ =>
      match parsed with
      | JNull => st
      | _ =>
        let dataArray := dataArrayOf parsed in
        if (length dataArray =? 0)%nat then st
        else
          let colKeys := allKeysOf dataArray in
          if (length colKeys =? 0)%nat then st
          else
            let newColumns := newColumnsOf now colKeys in
            match expandRows dataArray with
            | None => st
            | Some expandedRows =>
              let newRows :=
                imap (genericRow activeTable now colKeys newColumns) expandedRows in
              updateActiveTable now (genericUpdater newColumns newRows) st
            end
      end
    end
  | _, _ => st
  end.

Definition handlePasteJSON := importJSON.
Definition handleImportJSON := importJSON.
End JsonImport.

(** *** CSV *)

Section CsvImport.
Variable toLowerCase : jsstring → jsstring.

(** [new Map(t.columns.map(c => [normalizeLabel(c.label), c]))]: of two
    columns with one normalized label the later one is kept. *)
Definition existingByLabel (cols : list Column) : gmap (list N) Column :=
  fold_left (fun m c => <[normalizeLabel toLowerCase (c_label c) := c]> m) cols ∅.

(** The locals the [forEach] over the headers writes to; [newColumns] is
    [t.columns] followed by [addedColumns]. *)
Record headerScan := {
  usedExisting : list jsstring;
  addedColumns : list Column;
  headerToColId : list jsstring
}.

Definition headerStep (byLabel : gmap (list N) Column) (now : Z)
    (hs : headerScan) (ir : nat * jsstring) : headerScan :=
  let '(idx, raw) := ir in
  let label := if nonEmpty raw then raw
               else js "Column " ++ numToString (Z.of_nat idx + 1) in
  let norm := normalizeLabel toLowerCase label in
  let fresh :=
    let col := {| c_id := freshColId now (Z.of_nat idx); c_label := label |} in
    {| usedExisting := usedExisting hs;
       addedColumns := addedColumns hs ++ [col];
       headerToColId := headerToColId hs ++ [c_id col] |} in
  match byLabel !! norm with
  | Some existing =>
    if bool_decide (c_id existing ∈ usedExisting hs) then fresh
    else {| usedExisting := usedExisting hs ++ [c_id existing];
            addedColumns := addedColumns hs;
            headerToColId := headerToColId hs ++ [c_id existing] |}
  | None => fresh
  end.

Definition scanHeaders (cols : list Column) (now : Z) (headers : list jsstring)
    : headerScan :=
  fold_left (headerStep (existingByLabel cols) now) (imap pair headers)
            {| usedExisting := []; addedColumns := []; headerToColId := [] |}.

Definition csvRow (activeTable : ProjectTable) (now : Z)
    (headerToColId : list jsstring) (newColumns : list Column)
    (rIdx : nat) (row : list jsstring) : DynamicRow :=
  let values :=
    fold_left (fun values '(i, cid) => <[cid := default [] (row !! i)]> values)
              (imap pair headerToColId) ∅ in
  let values :=
    fold_left (fun values c =>
                 match values !! c_id c with
                 | Some _ => values
                 | None => <[c_id c := []]> values
                 end) newColumns values in
  {| r_id := rowId now (Z.of_nat rIdx);
     r_values := assignId activeTable (nextIdStart activeTable + Z.of_nat rIdx) values;
     r_updatedAt := now;
     r_comment := None |}.

Definition csvUpdater (activeTable : ProjectTable) (headers : list jsstring)
    (dataRows : list (list jsstring)) (now : Z) (t : ProjectTable) : ProjectTable :=
  let hs := scanHeaders (t_columns t) now headers in
  let newColumns := t_columns t ++ addedColumns hs in
  let addedDefaults : gmap (list N) (list N) :=
    fold_left (fun d c => <[c_id c := []]> d) (addedColumns hs) ∅ in
  let newRows := imap (csvRow activeTable now (headerToColId hs) newColumns) dataRows in
  let existingRows :=
    (fun r => withValues (r_values r ∪ addedDefaults) r) <$> t_rows t in
  withColumnsRows newColumns (existingRows ++ newRows) t.

(** The [replace] on [headers[0]]: a byte order mark at its start is
    removed. *)
Definition stripBOM (headers : list jsstring) : list jsstring :=
  match headers with
  | (65279%N :: h) :: hs => h :: hs
  | _ => headers
  end.

(** The [onload] of [handleImportCSV]; [text] is the content of the file. *)
Definition handleImportCSV (text : jsstring) (now : Z) (st : State) : State :=
  match activeTable st with
  | None => st
  | Some activeTable =>
    let rows := Csv.parseCSV text in
    if (length rows <? 2)%nat then st
    else
      let headers := stripBOM (trim <$> default [] (head rows)) in
      let dataRows := List.filter Csv.someNonBlank (drop 1 rows) in
      updateActiveTable now (csvUpdater activeTable headers dataRows now) st
  end.
End CsvImport.

(** [toLowerCase] on strings of ASCII characters. *)
Definition asciiLower (s : jsstring) : jsstring :=
  (fun c => if ((65 <=? c) && (c <=? 90))%N then (c + 32)%N else c) <$> s.

(** ** Sample data *)

Definition sampleRow (id : string) (cells : list (string * string)) : DynamicRow :=
  {| r_id := js id;
     r_values := list_to_map ((fun kv => (js (fst kv), js (snd kv))) <$> cells);
     r_updatedAt := 0;
     r_comment := None |}.

Definition sampleTable (id : string) (type : TableType) (cols : list (string * string))
    (rows : list DynamicRow) (autoId : option string) : ProjectTable :=
  {| t_id := js id; t_name := js id; t_type := type;
     t_columns := (fun c => {| c_id := js (fst c); c_label := js (snd c) |}) <$> cols;
     t_rows := rows;
     t_autoIdEnabled := match autoId with Some _ => Some true | None => Some false end;
     t_autoIdColumnId := js <$> autoId;
     t_createdAt := 0; t_updatedAt := 0 |}.

(** One folder [f] that holds the tables [ts], viewed at table [active]. *)
Definition sampleState (ts : list ProjectTable) (active : string)
    (inputs : list (string * string)) : State :=
  {| folders := [{| f_id := js "f"; f_name := js "f"; f_description := [];
                    f_tables := ts; f_createdAt := 0; f_updatedAt := 0 |}];
     activeFolderId := Some (js "f");
     activeTableId := Some (js active);
     activeFilters := [];
     deferredSearch := [];
     rowsPage := 1;
     newRowValues := list_to_map ((fun kv => (js (fst kv), js (snd kv))) <$> inputs) |}.

(** The filter lists the handlers can produce: the initial (and cleared)
    list, then any number of toggles and removals. *)
Inductive reachableFilters : list ActiveFilter → Prop :=
| reachable_clear : reachableFilters []
| reachable_toggle cid val st :
    reachableFilters (activeFilters st) →
    reachableFilters (activeFilters (toggleFilter cid val st))
| reachable_remove cid val st :
    reachableFilters (activeFilters st) →
    reachableFilters (activeFilters (removeFilter cid val st)).

(** The filters on one (column, value) pair, and the mode shown for it. *)
Definition filtersOn (cid val : jsstring) (l : list ActiveFilter) : list ActiveFilter :=
  List.filter (sameFilter cid val) l.

Definition modeOf (cid val : jsstring) (l : list ActiveFilter) : option FilterMode :=
  mode <$> List.find (sameFilter cid val) l.

(** The number of rows whose cell in column [colId] is [v]; for the empty
    [v], the rows whose cell is empty or absent. *)
Definition occurrences (colId v : jsstring) (rows : list DynamicRow) : nat :=
  length (List.filter (fun r => bool_decide (cellOf r colId = v)) rows).

(** The number a count stands for; a string stands for none. *)
Definition numberOf (v : CountValue) : nat :=
  match v with
  | CountNumber n => n
  | CountString _ => 0
  end.

Definition sumCounts (m : gmap (list N) CountValue) : nat :=
  map_fold (fun _ v acc => (numberOf v + acc)%nat) 0%nat m.

(** Number.MAX_SAFE_INTEGER: up to it the integers are numbers of the
    code, and its arithmetic on them is exact. *)
Definition MAX_SAFE_INTEGER : Z := 2 ^ 53 - 1.



(** The text of a built-in function as V8 prints it. *)
Definition v8FunctionText (name : jsstring) : jsstring :=
  js "function "
  ++ (if bool_decide (name = js "constructor") then js "Object" else name)
  ++ js "() { [native code] }".


(** The cartesian product of a list of option lists in lexicographic
    order: the choices of the first list vary slowest. *)
Fixpoint cartesian {A} (ls : list (list A)) : list (list A) :=
  match ls with
  | [] => [[]]
  | l :: ls' => flat_map (fun x => cons x <$> cartesian ls') l
  end.


(** The integers the identifier cells of the rows parse to. *)
Definition parsedIds (idc : jsstring) (rows : list DynamicRow) : list Z :=
  omap (fun r => parseInt (default [] (r_values r !! idc))) rows.


(** [current] after the writes of one path of [generate]: the choice [v]
    for each key [k], in the order of the keys. *)
Definition writeAll (keys choice : list jsstring) (m : gmap (list N) (list N))
    : gmap (list N) (list N) :=
  fold_left (fun m kv => <[fst kv := snd kv]> m) (zip keys choice) m.

(** Two objects that differ on [keys] at most. *)
Definition agreeOutside (keys : list jsstring) (m1 m2 : gmap (list N) (list N)) : Prop :=
  ∀ k, k ∉ keys → m1 !! k = m2 !! k.

(** The option lists of the keys, in the order of the keys. *)
Definition optionLists (options : gmap (list N) (list jsstring))
    (keys : list jsstring) : list (list jsstring) :=
  (fun k => default [] (options !! k)) <$> keys.

(** ** The other mutations of a table *)

(** The updater of [Add] in the new-field dialog; the id is [col_${now}]. *)
Definition addColumn (label : jsstring) (now : Z) (t : ProjectTable) : ProjectTable :=
  withColumnsRows
    (t_columns t ++ [{| c_id := js "col_" ++ numToString now; c_label := label |}])
    (t_rows t) t.

(** The updater of the rename-field dialog. *)
Definition renameColumn (renamingColId label : jsstring) (t : ProjectTable)
    : ProjectTable :=
  withColumnsRows
    ((fun c => if bool_decide (c_id c = renamingColId)
               then {| c_id := c_id c; c_label := label |} else c) <$> t_columns t)
    (t_rows t) t.

(** [cols.findIndex(c => c.id === id)]; [None] is -1. *)
Fixpoint findIndex (id : jsstring) (cols : list Column) : option nat :=
  match cols with
  | [] => None
  | c :: cols' => if bool_decide (c_id c = id) then Some 0%nat
                  else S <$> findIndex id cols'
  end.

(** The updater of [handleColumnDrop]: the two [splice] calls. *)
Definition moveColumn (dragColId targetColId : jsstring) (t : ProjectTable)
    : ProjectTable :=
  match findIndex dragColId (t_columns t), findIndex targetColId (t_columns t) with
  | Some fromIndex, Some toIndex =>
    match t_columns t !! fromIndex with
    | Some moved =>
      let rest := delete fromIndex (t_columns t) in
      withColumnsRows (take toIndex rest ++ moved :: drop toIndex rest) (t_rows t) t
    | None => t
    end
  | _, _ => t
  end.

(** The updaters of the two [Delete] buttons: one row, the selected rows. *)
Definition deleteRow (id : jsstring) (t : ProjectTable) : ProjectTable :=
  withRows (List.filter (fun x => negb (bool_decide (r_id x = id))) (t_rows t)) t.

Definition deleteRows (selectedRowIds : list jsstring) (t : ProjectTable)
    : ProjectTable :=
  withRows (List.filter (fun r => negb (bool_decide (r_id r ∈ selectedRowIds)))
                        (t_rows t)) t.

(** The updater of [Save] in the row view: the comment of the row. *)
Definition saveComment (viewingRowId rowCommentInput : jsstring) (now : Z)
    (t : ProjectTable) : ProjectTable :=
  withRows ((fun r => if bool_decide (r_id r = viewingRowId)
                      then {| r_id := r_id r; r_values := r_values r;
                              r_updatedAt := now;
                              r_comment := Some (JStr rowCommentInput) |}
                      else r) <$> t_rows t) t.

(** The fields of the bulk edit dialog after the changes of its inputs,
    one [setMassUpdateFields(prev => ({ ...prev, [col.id]: ... }))] each. *)
Definition massUpdateFieldsOf (filters : list ActiveFilter) (cols : list Column)
    (changes : list (Column * (bool * jsstring))) : gmap (list N) (bool * jsstring) :=
  fold_left (fun fields '(col, d) => <[c_id col := d]> fields) changes
            (initialMassUpdateFields filters cols).

(** The invariant of the data model: the keys of the values of every row
    are ids of columns of the table. *)
Definition valuesWithinColumns (t : ProjectTable) : Prop :=
  ∀ r k, r ∈ t_rows t → is_Some (r_values r !! k) → k ∈ c_id <$> t_columns t.

(** The mutations of one table, as the handlers apply them to the table
    they close over: column deletion, generation in both modes, the edit
    and bulk edit dialogs, CSV import, the addition, renaming and moving of
    a column, the deletion of rows, the comment of a row, and the import of
    native-shape JSON whose rows name columns of the file or of the table
    only. *)
Inductive mutation (toLowerCase : jsstring → jsstring)
    : ProjectTable → ProjectTable → Prop :=
| mutation_deleteColumn colId t :
    mutation toLowerCase t (deleteColumn colId t)
| mutation_classic inputs now t :
    mutation toLowerCase t (prependRows (classicRows t inputs now) t)
| mutation_pairwise inputs now t :
    mutation toLowerCase t (prependRows (pairwiseRows t inputs now) t)
| mutation_saveRow r typed now t :
    r ∈ t_rows t → (∀ ct, ct ∈ typed → fst ct ∈ t_columns t) →
    mutation toLowerCase t (saveRow (r_id r) (editRowValues r typed) now t)
| mutation_massUpdate filters changes selectedRowIds now t :
    (∀ cd, cd ∈ changes → fst cd ∈ t_columns t) →
    mutation toLowerCase t
      (massUpdate (massUpdateFieldsOf filters (t_columns t) changes)
                  selectedRowIds now t)
| mutation_csv headers dataRows now t :
    mutation toLowerCase t (csvUpdater toLowerCase t headers dataRows now t)
| mutation_addColumn label now t :
    mutation toLowerCase t (addColumn label now t)
| mutation_renameColumn renamingColId label t :
    mutation toLowerCase t (renameColumn renamingColId label t)
| mutation_moveColumn dragColId targetColId t :
    mutation toLowerCase t (moveColumn dragColId targetColId t)
| mutation_deleteRow id t :
    mutation toLowerCase t (deleteRow id t)
| mutation_deleteRows selectedRowIds t :
    mutation toLowerCase t (deleteRows selectedRowIds t)
| mutation_saveComment viewingRowId rowCommentInput now t :
    mutation toLowerCase t (saveComment viewingRowId rowCommentInput now t)
| mutation_native columnsFromFile rowsFromFile now t :
    (∀ row k, row ∈ rowsFromFile →
       k ∈ fst <$> entries (orEmptyObject (getProp row (js "values"))) →
       k ∈ c_id <$> (t_columns t ++ columnsFromFile)) →
    mutation toLowerCase t
      (nativeUpdater columnsFromFile (imap (nativeRow t now) rowsFromFile) t).

(** The tables the handlers can produce: a created table has no rows, and
    every later state comes by one of the mutations. *)
Inductive reachableTable (toLowerCase : jsstring → jsstring) : ProjectTable → Prop :=
| reachable_created t : t_rows t = [] → reachableTable toLowerCase t
| reachable_step t t' :
    reachableTable toLowerCase t → mutation toLowerCase t t' →
    reachableTable toLowerCase t'.

From Stdlib Require DecimalPos.

(** ** src/App.tsx: the rows shown *)

(** [s.startsWith(q)] and [s.includes(q)] *)
Fixpoint startsWith (s q : jsstring) : bool :=
  match q, s with
  | [], _ => true
  | c :: q', d :: s' => (c =? d)%N && startsWith s' q'
  | _ :: _, [] => false
  end.

Fixpoint includes (s q : jsstring) : bool :=
  startsWith s q || match s with
                    | [] => false
                    | _ :: s' => includes s' q
                    end.

(** The callback of [activeFilters.every]. *)
Definition passes (row : DynamicRow) (f : ActiveFilter) : bool :=
  let rowValue := cellOf row (columnId f) in
  match mode f with
  | exclude => negb (bool_decide (rowValue = value f))
  | include => bool_decide (rowValue = value f)
  end.

Section RowsShown.
Variable toLowerCase : jsstring → jsstring.
Variable nativeFunctionText : jsstring → jsstring.

(** [!deferredSearch || Object.values(row.values).some(...)] *)
Definition matchesSearch (deferredSearch : jsstring) (row : DynamicRow) : bool :=
  negb (nonEmpty deferredSearch)
  || existsb (fun v => includes (toLowerCase v) (toLowerCase deferredSearch))
             (snd <$> map_to_list (r_values row)).

Definition filteredRows (st : State) : list DynamicRow :=
  match activeTable st with
  | None => []
  | Some activeTable =>
    List.filter (fun row => matchesSearch (deferredSearch st) row
                            && forallb (passes row) (activeFilters st))
                (t_rows activeTable)
  end.

(** The columns the sidebar lists for the text [sidebarSearch]; the values
    of a column are [Object.keys] of its [counts], the own properties. *)
Definition visibleSidebarColumns (sidebarSearch : jsstring) (st : State)
    : list Column :=
  match activeTable st with
  | None => []
  | Some activeTable =>
    if negb (nonEmpty (trim sidebarSearch)) then t_columns activeTable
    else
      let query := toLowerCase sidebarSearch in
      List.filter
        (fun col =>
           includes (toLowerCase (c_label col)) query
           || existsb (fun v => includes (toLowerCase v) query)
                (match columnValueStats nativeFunctionText st !! c_id col with
                 | Some s => fst <$> map_to_list (counts s)
                 | None => []
                 end))
        (t_columns activeTable)
  end.
End RowsShown.

(** ** Pagination *)

(** src/constants.ts *)
Definition INITIAL_COLUMNS : list Column := [].
Definition FOLDERS_PER_PAGE : Z := 8.
Definition TABLES_PER_PAGE : Z := 9.
Definition ROWS_PER_PAGE : Z := 50.
Definition TABLE_CELL_LIMIT : Z := 25.

(** An argument of [slice] as an index into an array of length [len]: a
    negative one counts from the end, and both ends are clamped. *)
Definition sliceIndex (len i : Z) : Z :=
  if i <? 0 then Z.max (len + i) 0 else Z.min i len.

(** [l.slice(start, end)] *)
Definition slice {A} (start end_ : Z) (l : list A) : list A :=
  let len := Z.of_nat (length l) in
  let k := sliceIndex len start in
  let final := sliceIndex len end_ in
  take (Z.to_nat (final - k)) (drop (Z.to_nat k) l).

(** [Math.ceil(n / d)] for integers [n] and [d > 0]. *)
Definition ceilDiv (n d : Z) : Z := - (- n / d).

Definition paginatedFolders (foldersPage : Z) (st : State) : list Folder :=
  slice ((foldersPage - 1) * FOLDERS_PER_PAGE) (foldersPage * FOLDERS_PER_PAGE)
        (folders st).

Definition totalFoldersPages (st : State) : Z :=
  ceilDiv (Z.of_nat (length (folders st))) FOLDERS_PER_PAGE.

Definition paginatedTables (tablesPage : Z) (st : State) : list ProjectTable :=
  slice ((tablesPage - 1) * TABLES_PER_PAGE) (TABLES_PER_PAGE * tablesPage)
        (match activeFolder st with
         | Some f => f_tables f
         | None => []
         end).

Definition totalTablesPages (st : State) : Z :=
  match activeFolder st with
  | Some f => ceilDiv (Z.of_nat (length (f_tables f))) TABLES_PER_PAGE
  | None => 0
  end.

Section Pages.
Variable toLowerCase : jsstring → jsstring.

Definition paginatedRows (st : State) : list DynamicRow :=
  slice ((rowsPage st - 1) * ROWS_PER_PAGE) (rowsPage st * ROWS_PER_PAGE)
        (filteredRows toLowerCase st).

Definition totalRowsPages (st : State) : Z :=
  ceilDiv (Z.of_nat (length (filteredRows toLowerCase st))) ROWS_PER_PAGE.
End Pages.

(** ** The selection of rows

    [selectedRowIds] is a state of its own; each handler is the updater it
    passes to [setSelectedRowIds], applied to the selection [prev]. *)

(** [Array.from(new Set(l))] *)
Definition fromSet (l : list jsstring) : list jsstring := fold_left addToSet l [].

(** The test of [handleSelectEmpty]:
    [!r.values[colId] || !r.values[colId].trim()]. *)
Definition isBlankCell (colId : jsstring) (r : DynamicRow) : bool :=
  match r_values r !! colId with
  | None => true
  | Some v => negb (nonEmpty v) || negb (nonEmpty (trim v))
  end.

Definition handleSelectEmpty (colId : jsstring) (st : State)
    (prev : list jsstring) : list jsstring :=
  match activeTable st with
  | None => prev
  | Some activeTable =>
    let emptyRowIds := r_id <$> List.filter (isBlankCell colId) (t_rows activeTable) in
    fromSet (prev ++ emptyRowIds)
  end.

(** [onToggleSelect], the check box of one row. *)
Definition toggleSelect (id : jsstring) (prev : list jsstring) : list jsstring :=
  if bool_decide (id ∈ prev)
  then List.filter (fun x => negb (bool_decide (x = id))) prev
  else prev ++ [id].

(** The check box of the header, over the ids [vids] of the rows of the
    page, and whether it is shown checked. *)
Definition toggleSelectPage (vids prev : list jsstring) : list jsstring :=
  let all := forallb (fun id => bool_decide (id ∈ prev)) vids in
  if all then List.filter (fun id => negb (bool_decide (id ∈ vids))) prev
  else fromSet (prev ++ vids).

Definition pageChecked (vids selectedRowIds : list jsstring) : bool :=
  (0 <? length vids)%nat
  && forallb (fun id => bool_decide (id ∈ selectedRowIds)) vids.

(** The selections the handlers can produce from the empty one. *)
Inductive reachableSelection : list jsstring → Prop :=
| selection_cleared : reachableSelection []
| selection_toggle id prev :
    reachableSelection prev → reachableSelection (toggleSelect id prev)
| selection_page vids prev :
    reachableSelection prev → reachableSelection (toggleSelectPage vids prev)
| selection_empty colId st prev :
    reachableSelection prev → reachableSelection (handleSelectEmpty colId st prev).

(** ** Folders and tables *)

Definition setActiveTableId (id : option jsstring) (st : State) : State :=
  {| folders := folders st; activeFolderId := activeFolderId st;
     activeTableId := id; activeFilters := activeFilters st;
     deferredSearch := deferredSearch st; rowsPage := rowsPage st;
     newRowValues := newRowValues st |}.

(** The table [createTableInFolder] makes. *)
Definition newTable (modalInput : jsstring) (modalTableType : TableType)
    (isAutoIdEnabled : bool) (now : Z) : ProjectTable :=
  let idColumn :=
    if isAutoIdEnabled
    then Some {| c_id := js "col_" ++ numToString now ++ js "_id"; c_label := js "ID" |}
    else None in
  let columns := match idColumn with
                 | Some c => INITIAL_COLUMNS ++ [c]
                 | None => INITIAL_COLUMNS
                 end in
  {| t_id := js "table_" ++ numToString now; t_name := modalInput;
     t_type := modalTableType; t_columns := columns; t_rows := [];
     t_autoIdEnabled := Some isAutoIdEnabled;
     t_autoIdColumnId := c_id <$> idColumn;
     t_createdAt := now; t_updatedAt := now |}.

Definition createTableInFolder (modalInput : jsstring) (modalTableType : TableType)
    (isAutoIdEnabled : bool) (now : Z) (st : State) : State :=
  if negb (nonEmpty (trim modalInput))
     || negb (nonEmpty (default [] (activeFolderId st)))
  then st
  else
    let newTable := newTable modalInput modalTableType isAutoIdEnabled now in
    setActiveTableId (Some (t_id newTable))
      (setFolders
         ((fun f => if bool_decide (Some (f_id f) = activeFolderId st)
                    then stampFolder now (newTable :: f_tables f) f else f)
          <$> folders st) st).

(** ** Moving a column *)

(** [handleColumnDrop] on the state and the dragged column. *)
Definition handleColumnDrop (dragColId : option jsstring) (targetColId : jsstring)
    (now : Z) (st : State) : State :=
  match activeTable st with
  | None => st
  | Some activeTable =>
    if bool_decide (t_autoIdColumnId activeTable = Some targetColId) then st
    else match dragColId with
         | None => st
         | Some d =>
           if negb (nonEmpty d) || bool_decide (d = targetColId) then st
           else updateActiveTable now (moveColumn d targetColId) st
         end
  end.

(** ** Export *)






(** ** src/utils/formatting.ts *)

(** [truncate(str, limit)] for an integer [limit]. *)
Definition truncate (str : jsstring) (limit : Z) : jsstring :=
  if negb (nonEmpty str) then js "-"
  else if Z.of_nat (length str) >? limit
       then take (Z.to_nat limit) str ++ js "..."
       else str.

(** The text of a cell of the table: [truncate(val, TABLE_CELL_LIMIT)]. *)
Definition renderCellValue (value : jsstring) : jsstring :=
  truncate value TABLE_CELL_LIMIT.

Definition UNDERSCORE : N := 95.
Definition HYPHEN : N := 45.

Definition isHighSurrogate (c : N) : bool := ((55296 <=? c) && (c <=? 56319))%N.
Definition isLowSurrogate (c : N) : bool := ((56320 <=? c) && (c <=? 57343))%N.

(** The characters of a string as a regular expression with the flag [u]
    reads them: the code point and its code units, a surrogate pair being
    one character. *)
Fixpoint characters (s : jsstring) : list (N * jsstring) :=
  match s with
  | [] => []
  | c :: s' =>
    match s' with
    | d :: s'' =>
      if isHighSurrogate c && isLowSurrogate d
      then (65536 + (c - 55296) * 1024 + (d - 56320), [c; d])%N :: characters s''
      else (c, [c]) :: characters s'
    | [] => [(c, [c])]
    end
  end.

(** [s.replace(/_+/g, '_')]: of every run of underscores the last one is
    kept. *)
Fixpoint collapseUnderscores (s : jsstring) : jsstring :=
  match s with
  | [] => []
  | c :: s' =>
    if (c =? UNDERSCORE)%N && match s' with
                              | d :: _ => (d =? UNDERSCORE)%N
                              | [] => false
                              end
    then collapseUnderscores s'
    else c :: collapseUnderscores s'
  end.

Fixpoint dropUnderscores (s : jsstring) : jsstring :=
  match s with
  | c :: s' => if (c =? UNDERSCORE)%N then dropUnderscores s' else s
  | [] => []
  end.

(** [s.replace(/^_+|_+$/g, '')] *)
Definition stripUnderscores (s : jsstring) : jsstring :=
  rev (dropUnderscores (rev (dropUnderscores s))).

Section Formatting.
(** [\p{L}] or [\p{N}] on a code point. *)
Variable isLetterOrNumber : N → bool.

(** The class [[\p{L}\p{N}_-]]. *)
Definition isNameChar (cp : N) : bool :=
  isLetterOrNumber cp || (cp =? UNDERSCORE)%N || (cp =? HYPHEN)%N.

(** [s.replace(/[^\p{L}\p{N}_-]+/gu, '_')] on the characters of [s]:
    [inRun] tells that the character before was replaced. *)
Fixpoint replaceOthers (cs : list (N * jsstring)) (inRun : bool) : jsstring :=
  match cs with
  | [] => []
  | (cp, units) :: cs' =>
    if isNameChar cp then units ++ replaceOthers cs' false
    else if inRun then replaceOthers cs' true
         else UNDERSCORE :: replaceOthers cs' true
  end.

Definition sanitizeFilename (name : jsstring) : jsstring :=
  stripUnderscores (collapseUnderscores (replaceOthers (characters name) false)).

(** The name of the downloaded file: [sanitizeFilename(modalInput) || 'table']. *)
Definition safeFilename (modalInput : jsstring) : jsstring :=
  let s := sanitizeFilename modalInput in
  if nonEmpty s then s else js "table".
End Formatting.

(** ** src/hooks/useTableData.ts

    The hook keeps the tables of one folder; each operation is the next
    value of [tables]. *)
Module UseTableData.

Definition touch (now : Z) (cols : list Column) (rs : list DynamicRow)
    (t : ProjectTable) : ProjectTable :=
  withTableUpdatedAt now (withColumnsRows cols rs t).

Definition onTable (tableId : jsstring) (g : ProjectTable → ProjectTable)
    (tables : list ProjectTable) : list ProjectTable :=
  (fun t => if bool_decide (t_id t = tableId) then g t else t) <$> tables.

Definition deleteColumn (tableId columnId : jsstring) (now : Z)
    (tables : list ProjectTable) : list ProjectTable :=
  onTable tableId
    (fun t => touch now
                (List.filter (fun c => negb (bool_decide (c_id c = columnId)))
                             (t_columns t))
                ((fun r => withValues (delete columnId (r_values r)) r) <$> t_rows t)
                t) tables.

End UseTableData.

(** ** Predicates of the statements *)


(** The scanner of [parseCSV] with the text [p] put before the first cell
    it holds. *)
Definition prefixFirstCell (p : jsstring) (st : Csv.scanner) : Csv.scanner :=
  match Csv.rows st with
  | (c :: cs) :: rs =>
    Csv.Scanner (((p ++ c) :: cs) :: rs) (Csv.row st) (Csv.cell st) (Csv.inQuotes st)
  | [] :: _ => st
  | [] =>
    match Csv.row st with
    | c :: cs => Csv.Scanner [] ((p ++ c) :: cs) (Csv.cell st) (Csv.inQuotes st)
    | [] => Csv.Scanner [] [] (p ++ Csv.cell st) (Csv.inQuotes st)
    end
  end.

Definition BOM : N := 65279.

(** * Properties *)

Lemma existsb_false {A} (f : A → bool) (l : list A) :
  existsb f l = false ↔ Forall (fun x => f x = false) l.
Proof.
  induction l as [|x l IH]; simpl; [done|].
  rewrite orb_false_iff, IH, Forall_cons. done.
Qed.

(** ** CSV encoding *)

Section CsvRoundTrip.
Import Csv.

Lemma scan_app_plain s rest st :
  Forall (fun c => c ≠ QUOTE ∧ c ≠ COMMA ∧ c ≠ LF ∧ c ≠ CR) s →
  scan (s ++ rest) st
  = scan rest (Scanner (rows st) (row st) (cell st ++ s) (inQuotes st)).
Proof.
  intros Hs. revert st. induction Hs as [|c s (Hq & Hc & Hl & Hr) _ IH]; intros st.
  - rewrite app_nil_r. by destruct st.
  - simpl. apply N.eqb_neq in Hq, Hc, Hl, Hr. rewrite Hq, Hc, Hl, Hr. simpl.
    rewrite IH. simpl. by rewrite <- app_assoc.
Qed.

(** Inside quotes, the escaped body of a cell and its closing quote. *)
Lemma scan_quoted_body s rest st :
  inQuotes st = true →
  Forall (fun c => c ≠ CR) s →
  head rest ≠ Some QUOTE →
  scan (doubleQuotes s ++ QUOTE :: rest) st
  = scan rest (Scanner (rows st) (row st) (cell st ++ s) false).
Proof.
  intros Hin Hs Hrest. revert st Hin.
  induction Hs as [|c s Hr _ IH]; intros st Hin.
  - destruct rest as [|next rest']; simpl.
    + unfold toggle. by rewrite Hin, app_nil_r.
    + rewrite Hin. destruct (N.eqb_spec next QUOTE) as [->|_]; [done|].
      simpl. unfold toggle. by rewrite Hin, app_nil_r.
  - simpl. destruct (N.eqb_spec c QUOTE) as [->|Hq].
    + simpl. rewrite Hin. simpl. rewrite IH by done. simpl.
      by rewrite <- app_assoc.
    + simpl. apply N.eqb_neq in Hq, Hr. rewrite Hq, Hr, Hin. simpl.
      rewrite !andb_false_r. rewrite IH by done. simpl.
      by rewrite <- app_assoc.
Qed.

Lemma scan_open_quote rest st :
  inQuotes st = false → rest ≠ [] →
  scan (QUOTE :: rest) st = scan rest (toggle st).
Proof. intros Hin Hne. destruct rest; [done|]. simpl. by rewrite Hin. Qed.

(** One encoded cell, followed by a delimiter or by the end of the text,
    adds the cell's characters to the current cell. *)
Lemma scan_escapeCell c rest st :
  inQuotes st = false →
  Forall (fun x => x ≠ CR) c →
  head rest ≠ Some QUOTE →
  scan (escapeCell c ++ rest) st
  = scan rest (Scanner (rows st) (row st) (cell st ++ c) false).
Proof.
  intros Hin Hc Hrest. unfold escapeCell.
  destruct (needsQuotes c) eqn:Hq.
  - replace (([QUOTE] ++ doubleQuotes c ++ [QUOTE]) ++ rest)
      with (QUOTE :: doubleQuotes c ++ QUOTE :: rest)
      by (simpl; by rewrite <- app_assoc).
    rewrite scan_open_quote; [|done|by destruct (doubleQuotes c)].
    rewrite scan_quoted_body; [done| |done|done].
    simpl. by rewrite Hin.
  - rewrite scan_app_plain; [by rewrite Hin|].
    unfold needsQuotes in Hq. rewrite existsb_false in Hq.
    rewrite List.Forall_forall in Hq, Hc |- *. intros x Hx.
    specialize (Hq x Hx). specialize (Hc x Hx). rewrite !orb_false_iff in Hq.
    destruct Hq as [[?%N.eqb_neq ?%N.eqb_neq] ?%N.eqb_neq]. done.
Qed.

(** One encoded row of at least one cell, followed by a line feed or by
    the end of the text: closing the row afterwards stores its cells. *)
Lemma scan_encodeRow cs : ∀ c rest st,
  inQuotes st = false →
  Forall (Forall (fun x => x ≠ CR)) (c :: cs) →
  head rest ≠ Some QUOTE →
  ∃ st', scan (encodeRow (c :: cs) ++ rest) st = scan rest st'
         ∧ inQuotes st' = false
         ∧ endRow st'
           = Scanner (rows st ++ [row st ++ (cell st ++ c) :: cs]) [] [] false.
Proof.
  induction cs as [|c' cs IH]; intros c rest st Hin Hcr Hrest.
  - unfold encodeRow. simpl. rewrite scan_escapeCell; [|done|by inversion Hcr|done].
    eexists. split; [done|]. split; done.
  - inversion Hcr as [|?? Hc Hcs]; subst.
    change (encodeRow (c :: c' :: cs))
      with (escapeCell c ++ [COMMA] ++ encodeRow (c' :: cs)).
    rewrite <- !app_assoc. rewrite scan_escapeCell by done.
    simpl. 
    destruct (IH c' rest (Scanner (rows st) (row st ++ [cell st ++ c]) [] false))
      as (st' & Hscan & Hq & Hend); try done.
    exists st'. split; [|split; [done|]].
    + rewrite <- Hscan. done.
    + rewrite Hend. simpl. by rewrite <- app_assoc.
Qed.

Lemma scan_line_feed rest st :
  inQuotes st = false → scan ([LF] ++ rest) st = scan rest (endRow st).
Proof. intros Hin. simpl. by rewrite Hin. Qed.

Lemma scan_encodeGrid g : ∀ r st,
  inQuotes st = false → row st = [] → cell st = [] →
  Forall (fun r => r ≠ []) (r :: g) →
  Forall (Forall (Forall (fun x => x ≠ CR))) (r :: g) →
  endRow (scan (join [LF] (encodeRow <$> (r :: g))) st)
  = Scanner (rows st ++ r :: g) [] [] false.
Proof.
  induction g as [|r' g IH]; intros r st Hin Hrow Hcell Hne Hcr;
    inversion Hne as [|?? Hr Hne']; inversion Hcr as [|?? Hcr1 Hcr']; subst;
    destruct r as [|c cs]; try done.
  - simpl join.
    destruct (scan_encodeRow cs c [] st) as (st' & Hscan & Hq & Hend); try done.
    rewrite app_nil_r in Hscan. rewrite Hscan. simpl.
    rewrite Hend, Hrow, Hcell. done.
  - change (join [LF] (encodeRow <$> (c :: cs) :: r' :: g))
      with (encodeRow (c :: cs) ++ [LF] ++ join [LF] (encodeRow <$> r' :: g)).
    destruct (scan_encodeRow cs c ([LF] ++ join [LF] (encodeRow <$> r' :: g)) st)
      as (st' & Hscan & Hq & Hend); try done.
    rewrite Hscan, scan_line_feed by done.
    rewrite IH; try done; try (by rewrite Hend).
    rewrite Hend, Hrow, Hcell. simpl. by rewrite <- app_assoc.
Qed.

Lemma someNonBlank_true r :
  ¬ Forall (fun c => trim c = []) r → someNonBlank r = true.
Proof.
  intros Hr. unfold someNonBlank. apply not_false_iff_true. intros Hf.
  apply Hr. rewrite existsb_false in Hf.
  eapply Forall_impl; [exact Hf|]. intros c Hc. simpl in Hc.
  by destruct (trim c).
Qed.
End CsvRoundTrip.

(** C3. A grid in which no row has only blank cells (cells that trimming
  empties) and no cell holds a carriage return is read back unchanged
  from its encoding: [parseCSV (stringifyCSV g) = g]. *)
Theorem parseCSV_stringifyCSV (g : list (list jsstring)) :
Forall (fun r => ¬ Forall (fun c => trim c = []) r) g →
Forall (Forall (fun c => CR ∉ c)) g →
Csv.parseCSV (Csv.stringifyCSV g) = g.
Proof.
intros Hblank Hcr. unfold Csv.parseCSV, Csv.stringifyCSV.
destruct g as [|r g]; [done|].
rewrite scan_encodeGrid; try done.
- simpl Csv.rows. apply forallb_filter_id. apply forallb_forall.
  rewrite List.Forall_forall in Hblank. intros x Hx.
  apply someNonBlank_true. by apply Hblank.
- eapply Forall_impl; [exact Hblank|]. intros x Hx ->. by apply Hx.
- eapply Forall_impl; [exact Hcr|]. intros x Hx.
  eapply Forall_impl; [exact Hx|]. intros c Hc.
  apply List.Forall_forall. intros y Hy ->. apply Hc.
  by apply list_elem_of_In.
Qed.

Lemma parseCSV_stringifyCSV_witness :
  let said := js "He said " ++ [QUOTE] ++ js "hi" ++ [QUOTE] in
  let g := [[js "a,b"; said; js "line1" ++ [LF] ++ js "line2"]; [js ""; js " q "]] in
  Csv.stringifyCSV g
  = [QUOTE] ++ js "a,b" ++ [QUOTE; COMMA]
    ++ [QUOTE] ++ js "He said " ++ [QUOTE; QUOTE] ++ js "hi" ++ [QUOTE; QUOTE] ++ [QUOTE; COMMA]
    ++ [QUOTE] ++ js "line1" ++ [LF] ++ js "line2" ++ [QUOTE]
    ++ [LF] ++ js ", q " ∧
  Csv.parseCSV (Csv.stringifyCSV g) = g.
Proof.
  intros said g. split; [by vm_compute|]. apply parseCSV_stringifyCSV.
  - apply (bool_decide_unpack _). by vm_compute.
  - apply (bool_decide_unpack _). by vm_compute.
Defined.

(** ** Column statistics *)

Section Stats.
Variable nativeFunctionText : jsstring → jsstring.
Implicit Types (m : gmap (list N) CountValue) (rows : list DynamicRow).

Lemma sumCounts_insert_fresh m k v :
  m !! k = None → sumCounts (<[k := v]> m) = (numberOf v + sumCounts m)%nat.
Proof.
  intros Hk. unfold sumCounts.
  apply (map_fold_insert_L (fun _ v acc => (numberOf v + acc)%nat)); [|done].
  intros. lia.
Qed.

Lemma sumCounts_insert m k v :
  (sumCounts (<[k := v]> m) + numberOf (default (CountNumber 0) (m !! k))
   = numberOf v + sumCounts m)%nat.
Proof.
  destruct (m !! k) as [old|] eqn:Hk; simpl.
  - rewrite <- (insert_delete_eq m k v).
    rewrite <- (insert_delete_id m k old Hk) at 2.
    rewrite !sumCounts_insert_fresh by apply lookup_delete_eq. lia.
  - rewrite sumCounts_insert_fresh by done. lia.
Qed.

Lemma occurrences_snoc c v rows r :
  occurrences c v (rows ++ [r])
  = (occurrences c v rows + if bool_decide (cellOf r c = v) then 1 else 0)%nat.
Proof.
  unfold occurrences. rewrite List.filter_app, length_app. simpl.
  by destruct (bool_decide _).
Qed.

Lemma nonEmpty_false (s : jsstring) : nonEmpty s = false ↔ s = [].
Proof. by destruct s. Qed.

Lemma inheritedText_None k :
  k ∉ objectPrototypeKeys → inheritedText nativeFunctionText k = None.
Proof.
  unfold objectPrototypeKeys, inheritedText. intros Hk.
  rewrite elem_of_app, list_elem_of_singleton in Hk.
  rewrite !bool_decide_eq_false_2; [done| |]; tauto.
Qed.

Lemma PROTO_inherited : PROTO ∈ objectPrototypeKeys.
Proof. apply elem_of_app. right. by apply list_elem_of_singleton. Qed.

(** The cell of a column whose id names no inherited member is read as an
    own property. *)
Lemma cellKey_own c r :
  c ∉ objectPrototypeKeys →
  cellKey nativeFunctionText r c
  = if nonEmpty (cellOf r c) then Some (cellOf r c) else None.
Proof.
  intros Hc. unfold cellKey, cellOf.
  destruct (r_values r !! c) as [val|]; simpl; [done|].
  by apply inheritedText_None.
Qed.

Lemma assignCount_lookup_ne m val x v :
  v ≠ val → assignCount m val x !! v = m !! v.
Proof.
  intros Hne. unfold assignCount.
  destruct (m !! val); [by rewrite lookup_insert_ne|].
  destruct (bool_decide _); [done|by rewrite lookup_insert_ne].
Qed.

Lemma assignCount_is_Some m val x v :
  is_Some (assignCount m val x !! v)
  ↔ is_Some (m !! v) ∨ (v = val ∧ val ≠ PROTO).
Proof.
  destruct (decide (v = val)) as [->|Hne].
  - unfold assignCount. destruct (m !! val) as [old|] eqn:Hold.
    + rewrite lookup_insert_eq. split; [by left|done].
    + case_bool_decide as Hp.
      * rewrite Hold. split; [by intros [? ?]|]. intros [[? ?]|[_ ?]]; done.
      * rewrite lookup_insert_eq. split; [by right|done].
  - rewrite assignCount_lookup_ne by done. split; [by left|].
    intros [?|[? _]]; done.
Qed.

Lemma countRows_snoc c rows r :
  countRows nativeFunctionText c (rows ++ [r])
  = countRow nativeFunctionText c (countRows nativeFunctionText c rows) r.
Proof. unfold countRows. by rewrite fold_left_app. Qed.

(** The counts of a column whose id names no inherited member: the entry
    of a value that names none either is the number of its rows, whatever
    the other cells are; with no cell that names one, the counts are all
    numbers and add up with [emptyCount] to the number of rows. *)
Lemma countRows_spec c rows :
  c ∉ objectPrototypeKeys →
  (∀ v, v ∉ objectPrototypeKeys →
     counts (countRows nativeFunctionText c rows) !! v
     = if nonEmpty v && (0 <? occurrences c v rows)%nat
       then Some (CountNumber (occurrences c v rows)) else None) ∧
  emptyCount (countRows nativeFunctionText c rows) = occurrences c [] rows ∧
  ((∀ r, r ∈ rows → cellOf r c ∉ objectPrototypeKeys) →
   (∀ v, v ∈ objectPrototypeKeys →
      counts (countRows nativeFunctionText c rows) !! v = None) ∧
   (emptyCount (countRows nativeFunctionText c rows)
    + sumCounts (counts (countRows nativeFunctionText c rows))
    = length rows)%nat).
Proof.
  intros Hc. induction rows as [|r rows (IHc & IHe & IHs)] using rev_ind.
  - split; [|split; [done|]].
    + intros v _. simpl. rewrite lookup_empty. by destruct v.
    + intros _. split; [|done]. intros v _. apply lookup_empty.
  - rewrite countRows_snoc. set (s := countRows nativeFunctionText c rows) in *.
    unfold countRow. rewrite (cellKey_own _ _ Hc), length_app. simpl.
    destruct (nonEmpty (cellOf r c)) eqn:Hval; simpl.
    + split; [|split].
      * intros v Hv. rewrite occurrences_snoc.
        destruct (decide (cellOf r c = v)) as [<-|Hne].
        -- rewrite bool_decide_eq_true_2, Hval by done.
           unfold assignCount, bumped. rewrite (IHc _ Hv), Hval. simpl.
           destruct (0 <? occurrences c (cellOf r c) rows)%nat eqn:H0; simpl.
           ++ rewrite lookup_insert_eq.
              by replace (0 <? _ + 1)%nat with true by (symmetry; apply Nat.ltb_lt; lia).
           ++ apply Nat.ltb_ge in H0.
              rewrite (inheritedText_None _ Hv), bool_decide_eq_false_2.
              ** rewrite lookup_insert_eq.
                 by replace (occurrences c (cellOf r c) rows) with 0%nat by lia.
              ** intros Hp. apply Hv. rewrite Hp. apply PROTO_inherited.
        -- rewrite assignCount_lookup_ne, bool_decide_eq_false_2 by done.
           rewrite (IHc _ Hv). by rewrite Nat.add_0_r.
      * rewrite occurrences_snoc, bool_decide_eq_false_2; [lia|].
        intros Heq. by rewrite Heq in Hval.
      * intros Hrows.
        assert (Hr : cellOf r c ∉ objectPrototypeKeys)
          by (apply Hrows, elem_of_app; right; apply list_elem_of_singleton; done).
        destruct IHs as [IHk IHs]; [intros r' Hr'; apply Hrows, elem_of_app; by left|].
        assert (Hassign : assignCount (counts s) (cellOf r c)
                            (bumped nativeFunctionText (counts s) (cellOf r c))
                          = <[cellOf r c :=
                                CountNumber (numberOf (default (CountNumber 0)
                                               (counts s !! cellOf r c)) + 1)]>
                              (counts s)).
        { unfold assignCount, bumped. rewrite (IHc _ Hr), Hval. simpl.
          destruct (0 <? _)%nat; simpl; [done|].
          rewrite (inheritedText_None _ Hr), bool_decide_eq_false_2; [done|].
          intros Hp. apply Hr. rewrite Hp. apply PROTO_inherited. }
        rewrite Hassign. split.
        -- intros v Hv. rewrite lookup_insert_ne; [by apply IHk|].
           intros Heq. apply Hr. by rewrite Heq.
        -- pose proof (sumCounts_insert (counts s) (cellOf r c)
                         (CountNumber (numberOf (default (CountNumber 0)
                                         (counts s !! cellOf r c)) + 1))).
           simpl in *. lia.
    + apply nonEmpty_false in Hval. split; [|split].
      * intros v Hv. rewrite occurrences_snoc, (IHc _ Hv).
        destruct (decide (cellOf r c = v)) as [<-|Hne].
        -- by rewrite Hval.
        -- by rewrite bool_decide_eq_false_2, Nat.add_0_r.
      * rewrite occurrences_snoc, bool_decide_eq_true_2 by done. lia.
      * intros Hrows.
        destruct IHs as [IHk IHs]; [intros r' Hr'; apply Hrows, elem_of_app; by left|].
        split; [done|lia].
Qed.

(** [Object.keys(counts)]: the cell values that are not empty, but for
    [__proto__], which is never written. *)
Lemma countRows_keys c rows v :
  c ∉ objectPrototypeKeys →
  is_Some (counts (countRows nativeFunctionText c rows) !! v)
  ↔ v ≠ [] ∧ v ≠ PROTO ∧ ∃ r, r ∈ rows ∧ cellOf r c = v.
Proof.
  intros Hc. induction rows as [|r rows IH] using rev_ind.
  - simpl. rewrite lookup_empty. split; [by intros [? ?]|].
    intros (_ & _ & r & Hr & _). by apply elem_of_nil in Hr.
  - rewrite countRows_snoc. unfold countRow. rewrite (cellKey_own _ _ Hc).
    destruct (nonEmpty (cellOf r c)) eqn:Hval; simpl.
    + rewrite assignCount_is_Some, IH. split.
      * intros [(Hv & Hp & r' & Hr' & Hcell)|[-> Hp]].
        -- split; [done|]. split; [done|]. exists r'. split; [apply elem_of_app; by left|done].
        -- split; [by intros Heq; rewrite Heq in Hval|]. split; [done|].
           exists r. split; [apply elem_of_app; right; by apply list_elem_of_singleton|done].
      * intros (Hv & Hp & r' & Hr' & Hcell).
        apply elem_of_app in Hr' as [Hr'|Hr'%list_elem_of_singleton].
        -- left. split; [done|]. split; [done|]. by exists r'.
        -- subst r'. right. by subst v.
    + apply nonEmpty_false in Hval. rewrite IH. split.
      * intros (Hv & Hp & r' & Hr' & Hcell).
        split; [done|]. split; [done|]. exists r'. split; [apply elem_of_app; by left|done].
      * intros (Hv & Hp & r' & Hr' & Hcell). split; [done|]. split; [done|].
        apply elem_of_app in Hr' as [Hr'|Hr'%list_elem_of_singleton].
        -- by exists r'.
        -- subst r'. by rewrite Hval in Hcell.
Qed.
End Stats.

(** Writing [g a] under the key [k a] for every [a] of a list, when [g]
    depends on the key only: the entry of every key of the list. *)
Lemma fold_left_insert_lookup {A V} (k : A → jsstring) (g : A → V) (l : list A)
    (m0 : gmap (list N) V) (a : A) :
  (∀ x y, k x = k y → g x = g y) → a ∈ l →
  fold_left (fun m x => <[k x := g x]> m) l m0 !! k a = Some (g a).
Proof.
  intros Hg. induction l as [|b l IH] using rev_ind; intros Ha.
  - by apply elem_of_nil in Ha.
  - rewrite fold_left_app. simpl. destruct (decide (k b = k a)) as [Heq|Hne].
    + rewrite Heq, lookup_insert_eq. f_equal. by apply Hg.
    + rewrite lookup_insert_ne by done. apply IH.
      apply elem_of_app in Ha as [Ha|Ha%list_elem_of_singleton]; [done|].
      by subst.
Qed.

Lemma statsOfTable_lookup (nativeFunctionText : jsstring → jsstring)
    (t : ProjectTable) (col : Column) :
  col ∈ t_columns t →
  statsOfTable nativeFunctionText t !! c_id col
  = Some (countRows nativeFunctionText (c_id col) (t_rows t)).
Proof.
  intros Hcol. unfold statsOfTable.
  apply (fold_left_insert_lookup c_id
           (fun col => countRows nativeFunctionText (c_id col) (t_rows t))); [|done].
  by intros x y ->.
Qed.

(** C8 fails on a cell that names a member of [Object.prototype].  In a
    table of three rows whose cells in a column are [constructor], [x] and
    [__proto__], the entry of [constructor] in the statistics of the column
    is not the number 1 but a string, the text of the inherited function
    followed by [1]; the value [__proto__] has no entry; so the counts and
    [emptyCount] do not add up to the number of rows.  The value [x] is
    counted as the claim says. *)
Theorem columnValueStats_inherited_member (nativeFunctionText : jsstring → jsstring) :
  let t := sampleTable "t" classic [("a", "A")]
             [sampleRow "r1" [("a", "constructor")]; sampleRow "r2" [("a", "x")];
              sampleRow "r3" [("a", "__proto__")]] None in
  let st := sampleState [t] "t" [] in
  activeTable st = Some t ∧
  occurrences (js "a") (js "constructor") (t_rows t) = 1%nat ∧
  occurrences (js "a") (js "__proto__") (t_rows t) = 1%nat ∧
  ∃ s, columnValueStats nativeFunctionText st !! js "a" = Some s ∧
       counts s !! js "constructor"
       = Some (CountString (nativeFunctionText (js "constructor") ++ js "1")) ∧
       counts s !! js "__proto__" = None ∧
       counts s !! js "x" = Some (CountNumber 1) ∧
       emptyCount s = 0%nat ∧
       sumCounts (counts s) = 1%nat ∧
       length (t_rows t) = 3%nat.
Proof.
  intros t st. split; [by vm_compute|]. split; [by vm_compute|].
  split; [by vm_compute|].
  exists (countRows nativeFunctionText (js "a") (t_rows t)).
  split; [by vm_compute|]. by vm_compute.
Qed.

(** ** Filters *)

Section Filters.
Implicit Types (l : list ActiveFilter) (cid val : jsstring).

Lemma find_filter_nil {A} (P : A → bool) (l : list A) :
  List.find P l = None ↔ List.filter P l = [].
Proof.
  induction l as [|x l IH]; simpl; [done|]. destruct (P x); [done|]. exact IH.
Qed.

Lemma sameFilter_other cid val cid' val' f :
  (cid', val') ≠ (cid, val) → sameFilter cid val f = true →
  sameFilter cid' val' f = false.
Proof.
  unfold sameFilter. intros Hne Hs. apply andb_true_iff in Hs as [H1 H2].
  apply bool_decide_eq_true in H1, H2. apply andb_false_iff.
  destruct (decide (columnId f = cid')) as [Hc|Hc];
    [right|left]; apply bool_decide_eq_false; congruence.
Qed.

Lemma sameFilter_markExcluded cid val cid' val' f :
  sameFilter cid' val' (markExcluded cid val f) = sameFilter cid' val' f.
Proof. unfold markExcluded. by destruct (sameFilter cid val f). Qed.

Lemma filtersOn_markExcluded_length cid val cid' val' l :
  length (filtersOn cid' val' (markExcluded cid val <$> l))
  = length (filtersOn cid' val' l).
Proof.
  unfold filtersOn. induction l as [|f l IH]; simpl; [done|].
  rewrite sameFilter_markExcluded.
  destruct (sameFilter cid' val' f); simpl; [f_equal|]; exact IH.
Qed.

Lemma filter_length_le {A} (P : A → bool) (l : list A) :
  (length (List.filter P l) ≤ length l)%nat.
Proof. induction l as [|x l IH]; simpl; [done|]. destruct (P x); simpl; lia. Qed.

Lemma filter_swap {A} (P Q : A → bool) (l : list A) :
  List.filter P (List.filter Q l) = List.filter Q (List.filter P l).
Proof.
  induction l as [|x l IH]; simpl; [done|].
  destruct (P x) eqn:HP, (Q x) eqn:HQ; simpl; rewrite ?HP, ?HQ, IH; done.
Qed.

(** Toggling keeps at most one filter on every pair. *)
Lemma toggled_at_most_one cid val l :
  (∀ cid' val', (length (filtersOn cid' val' l) ≤ 1)%nat) →
  ∀ cid' val', (length (filtersOn cid' val' (toggled cid val l)) ≤ 1)%nat.
Proof.
  intros Hl cid' val'. unfold toggled.
  destruct (List.find _ l) as [ex|] eqn:Hfind.
  - destruct (mode ex).
    + change (length (filtersOn cid' val' (markExcluded cid val <$> l)) ≤ 1)%nat.
      rewrite filtersOn_markExcluded_length. apply Hl.
    + unfold filtersOn. rewrite filter_swap.
      etrans; [apply filter_length_le|]. apply Hl.
  - unfold filtersOn. rewrite List.filter_app, length_app. simpl.
    destruct (sameFilter cid' val' _) eqn:Hsame; simpl.
    + apply andb_true_iff in Hsame as [H1 H2].
      apply bool_decide_eq_true in H1, H2. simpl in H1, H2. subst cid' val'. apply find_filter_nil in Hfind. rewrite Hfind. simpl. lia.
    + specialize (Hl cid' val'). unfold filtersOn in Hl. lia.
Qed.

Lemma reachable_at_most_one l :
  reachableFilters l → ∀ cid val, (length (filtersOn cid val l) ≤ 1)%nat.
Proof.
  induction 1 as [|cid val st _ IH|cid val st _ IH]; intros cid' val'.
  - simpl. lia.
  - simpl. by apply toggled_at_most_one.
  - simpl. unfold filtersOn. rewrite filter_swap.
    etrans; [apply filter_length_le|]. apply IH.
Qed.

Lemma find_filter_negb {A} (P : A → bool) (l : list A) :
  List.find P (List.filter (fun x => negb (P x)) l) = None.
Proof.
  induction l as [|x l IH]; simpl; [done|].
  destruct (P x) eqn:HP; simpl; [done|]. by rewrite HP.
Qed.

Lemma modeOf_toggled_absent cid val l :
  modeOf cid val l = None → modeOf cid val (toggled cid val l) = Some include.
Proof.
  unfold modeOf, toggled. destruct (List.find _ l) eqn:Hfind; [done|]. intros _.
  assert (Hself : sameFilter cid val
            {| columnId := cid; value := val; mode := include |} = true).
  { unfold sameFilter. simpl. by rewrite !bool_decide_eq_true_2. }
  induction l as [|f l IH]; simpl in *; [by rewrite Hself|].
  destruct (sameFilter cid val f); [done|]. by apply IH.
Qed.

Lemma modeOf_toggled_include cid val l :
  modeOf cid val l = Some include → modeOf cid val (toggled cid val l) = Some exclude.
Proof.
  unfold modeOf, toggled. destruct (List.find _ l) as [ex|] eqn:Hfind; [|done].
  simpl. intros [= ->]. clear -Hfind. 
  change (mode <$> List.find (sameFilter cid val) (markExcluded cid val <$> l)
          = Some exclude).
  induction l as [|f l IH]; simpl in *; [done|].
  rewrite sameFilter_markExcluded. unfold markExcluded at 1.
  destruct (sameFilter cid val f); [done|]. by apply IH.
Qed.

Lemma modeOf_toggled_exclude cid val l :
  modeOf cid val l = Some exclude → modeOf cid val (toggled cid val l) = None.
Proof.
  unfold modeOf, toggled. destruct (List.find _ l) as [ex|] eqn:Hfind; [|done].
  simpl. intros [= ->]. by rewrite find_filter_negb.
Qed.

Lemma find_app {A} (P : A → bool) (l k : list A) :
  List.find P (l ++ k)
  = match List.find P l with Some x => Some x | None => List.find P k end.
Proof. induction l as [|x l IH]; simpl; [done|]. by destruct (P x). Qed.

(** A toggle leaves the filters on every other pair as they are. *)
Lemma modeOf_toggled_other cid val cid' val' l :
  (cid', val') ≠ (cid, val) →
  modeOf cid' val' (toggled cid val l) = modeOf cid' val' l.
Proof.
  intros Hne. unfold modeOf, toggled.
  destruct (List.find (sameFilter cid val) l) as [ex|] eqn:Hfind.
  - destruct (mode ex).
    + clear Hfind. induction l as [|f l IH]; simpl; [done|].
      fold (markExcluded cid val f). rewrite sameFilter_markExcluded.
      destruct (sameFilter cid' val' f) eqn:Hf; [|exact IH].
      unfold markExcluded. destruct (sameFilter cid val f) eqn:Hf'; [|done].
      by rewrite (sameFilter_other _ _ _ _ _ Hne Hf') in Hf.
    + clear Hfind. induction l as [|f l IH]; simpl; [done|].
      destruct (sameFilter cid val f) eqn:Hf'; simpl.
      * by rewrite (sameFilter_other _ _ _ _ _ Hne Hf').
      * destruct (sameFilter cid' val' f); [done|exact IH].
  - rewrite find_app. simpl.
    destruct (List.find (sameFilter cid' val') l); [done|].
    assert (sameFilter cid' val'
              {| columnId := cid; value := val; mode := include |} = false) as ->; [|done].
    eapply sameFilter_other; [exact Hne|].
    unfold sameFilter. simpl. by rewrite !bool_decide_eq_true_2.
Qed.
End Filters.

(** C7. In every filter list the handlers can produce there is at most one
    filter per (column, value) pair, and [toggleFilter] takes the pair from
    absent to include, from include to exclude and from exclude to absent,
    leaving every other pair as it is. *)
Theorem toggleFilter_cycle (st : State) (cid val : jsstring) :
  reachableFilters (activeFilters st) →
  let st' := toggleFilter cid val st in
  (∀ cid' val', (length (filtersOn cid' val' (activeFilters st)) ≤ 1)%nat) ∧
  (∀ cid' val', (length (filtersOn cid' val' (activeFilters st')) ≤ 1)%nat) ∧
  modeOf cid val (activeFilters st')
  = match modeOf cid val (activeFilters st) with
    | None => Some include
    | Some include => Some exclude
    | Some exclude => None
    end ∧
  (∀ cid' val', (cid', val') ≠ (cid, val) →
     modeOf cid' val' (activeFilters st') = modeOf cid' val' (activeFilters st)).
Proof.
  intros Hreach st'. split; [by apply reachable_at_most_one|].
  split; [apply reachable_at_most_one; by constructor|].
  split; [|intros; by apply modeOf_toggled_other].
  simpl. destruct (modeOf cid val (activeFilters st)) as [[]|] eqn:Hm.
  - by apply modeOf_toggled_include.
  - by apply modeOf_toggled_exclude.
  - by apply modeOf_toggled_absent.
Qed.

Lemma toggleFilter_cycle_witness :
  let st0 := sampleState [] "t" [] in
  let st1 := toggleFilter (js "a") (js "x") st0 in
  let st2 := toggleFilter (js "a") (js "x") st1 in
  let st3 := toggleFilter (js "a") (js "x") st2 in
  modeOf (js "a") (js "x") (activeFilters st1) = Some include ∧
  modeOf (js "a") (js "x") (activeFilters st2) = Some exclude ∧
  modeOf (js "a") (js "x") (activeFilters st3) = None.
Proof.
  intros st0 st1 st2 st3.
  assert (H0 : reachableFilters (activeFilters st0)) by constructor.
  assert (H1 : reachableFilters (activeFilters st1)) by (by constructor).
  assert (H2 : reachableFilters (activeFilters st2)) by (by constructor).
  destruct (toggleFilter_cycle st0 (js "a") (js "x") H0) as (_ & _ & E1 & _).
  destruct (toggleFilter_cycle st1 (js "a") (js "x") H1) as (_ & _ & E2 & _).
  destruct (toggleFilter_cycle st2 (js "a") (js "x") H2) as (_ & _ & E3 & _).
  subst st3 st2 st1. split; [exact E1|]. split.
  - by rewrite E2, E1.
  - by rewrite E3, E2, E1.
Defined.

(** ** The mutation boundary *)

Section Boundary.
Implicit Types (st : State) (f : Folder) (t : ProjectTable).

(** A conditional map that rewrites exactly position [i]. *)
Lemma fmap_if_insert {A} (P : A → bool) (g : A → A) (l : list A) (i : nat) (x : A) :
  l !! i = Some x → P x = true →
  (∀ j y, l !! j = Some y → P y = true → j = i) →
  (fun y => if P y then g y else y) <$> l = <[i := g x]> l.
Proof.
  intros Hi HP Huniq. apply list_eq. intros j.
  rewrite list_lookup_fmap. destruct (decide (j = i)) as [->|Hne].
  - rewrite Hi, list_lookup_insert_eq by (by eapply lookup_lt_Some).
    simpl. by rewrite HP.
  - rewrite list_lookup_insert_ne by done.
    destruct (l !! j) as [y|] eqn:Hj; [|done]. simpl.
    destruct (P y) eqn:HPy; [|done]. by destruct (Hne (Huniq j y Hj HPy)).
Qed.

(** A conditional map whose condition never holds changes nothing. *)
Lemma fmap_if_none {A} (P : A → bool) (g : A → A) (l : list A) :
  (∀ y, y ∈ l → P y = false) → (fun y => if P y then g y else y) <$> l = l.
Proof.
  intros HP. induction l as [|y l IH]; [done|]. simpl.
  rewrite (HP y) by left. f_equal. apply IH. intros z Hz. apply HP. by right.
Qed.

Lemma find_none_elem_of {A} (P : A → bool) (l : list A) :
  List.find P l = None ↔ ∀ y, y ∈ l → P y = false.
Proof.
  split.
  - intros H y Hy. apply list_elem_of_In in Hy. by eapply find_none.
  - intros H. induction l as [|y l IH]; [done|]. simpl.
    rewrite (H y) by left. apply IH. intros z Hz. apply H. by right.
Qed.

Lemma NoDup_fmap_lookup {A B} `{EqDecision B} (k : A → B) (l : list A) i j x y :
  NoDup (k <$> l) → l !! i = Some x → l !! j = Some y → k x = k y → i = j.
Proof.
  intros Hnd Hi Hj Hk. eapply NoDup_lookup; [exact Hnd| |].
  - rewrite list_lookup_fmap, Hi. done.
  - rewrite list_lookup_fmap, Hj. simpl. by rewrite Hk.
Qed.

Lemma updateActiveTable_found st now updater i j f t :
  NoDup (f_id <$> folders st) → NoDup (t_id <$> f_tables f) →
  activeAt st i j f t →
  folders (updateActiveTable now updater st)
  = <[i := stampFolder now
             (<[j := withTableUpdatedAt now (updater t)]> (f_tables f)) f]>
      (folders st).
Proof.
  intros Hnf Hnt (Hi & Hf & Hj & Ht). unfold updateActiveTable. simpl.
  rewrite (fmap_if_insert _ _ _ i f Hi); [|by apply bool_decide_eq_true|].
  - f_equal. f_equal.
    apply (fmap_if_insert (fun t => bool_decide (Some (t_id t) = activeTableId st))
             (fun t => withTableUpdatedAt now (updater t)) _ j t Hj).
    + by apply bool_decide_eq_true.
    + intros j' t' Hj' Ht'%bool_decide_eq_true.
      eapply (NoDup_fmap_lookup t_id); eauto. congruence.
  - intros i' f' Hi' Hf'%bool_decide_eq_true.
    eapply (NoDup_fmap_lookup f_id); eauto. congruence.
Qed.

Lemma updateActiveTable_no_folder st now updater :
  activeFolder st = None → updateActiveTable now updater st = st.
Proof.
  intros Hnone. unfold updateActiveTable.
  rewrite fmap_if_none; [by destruct st|].
  by apply find_none_elem_of.
Qed.

Lemma updateActiveTable_no_table st now updater i f :
  NoDup (f_id <$> folders st) →
  folders st !! i = Some f → Some (f_id f) = activeFolderId st →
  (∀ t, t ∈ f_tables f → Some (t_id t) ≠ activeTableId st) →
  folders (updateActiveTable now updater st)
  = <[i := stampFolder now (f_tables f) f]> (folders st).
Proof.
  intros Hnf Hi Hf Hnone. unfold updateActiveTable. simpl.
  rewrite (fmap_if_insert _ _ _ i f Hi); [|by apply bool_decide_eq_true|].
  - f_equal. f_equal. apply fmap_if_none. intros t Ht.
    apply bool_decide_eq_false. by apply Hnone.
  - intros i' f' Hi' Hf'%bool_decide_eq_true.
    eapply (NoDup_fmap_lookup f_id); eauto. congruence.
Qed.
End Boundary.

Lemma find_some_lookup {A} (P : A → bool) (l : list A) (x : A) :
  List.find P l = Some x → ∃ i, l !! i = Some x ∧ P x = true.
Proof.
  intros H. destruct (find_some _ _ H) as [Hin HP].
  apply list_elem_of_In, list_elem_of_lookup in Hin as [i Hi]. eauto.
Qed.

(** C9, amended.  In a collection whose folder ids are distinct and whose
    table ids are distinct within each folder, a mutation through
    [updateActiveTable] leaves every part of the state other than the
    collection alone and
    - when the active folder and the active table exist, replaces that one
      table by its transform stamped with the fresh [updatedAt], and its
      folder by a copy with the new table list and the fresh [updatedAt],
      every other folder and table staying as it is;
    - when the active folder does not exist, changes nothing;
    - when the active folder exists and the active table does not, changes
      no table but still stamps the folder with the fresh [updatedAt].
    The helper is a total function: it never raises. *)
Theorem updateActiveTable_frame (st : State) (now : Z)
    (updater : ProjectTable → ProjectTable) :
  NoDup (f_id <$> folders st) →
  (∀ f, f ∈ folders st → NoDup (t_id <$> f_tables f)) →
  let st' := updateActiveTable now updater st in
  activeFolderId st' = activeFolderId st ∧ activeTableId st' = activeTableId st ∧
  activeFilters st' = activeFilters st ∧ rowsPage st' = rowsPage st ∧
  newRowValues st' = newRowValues st ∧ deferredSearch st' = deferredSearch st ∧
  match activeFolder st with
  | None => folders st' = folders st
  | Some f =>
    ∃ i, folders st !! i = Some f ∧
      match activeTable st with
      | Some t =>
        ∃ j, f_tables f !! j = Some t ∧
          let t' := withTableUpdatedAt now (updater t) in
          let f' := stampFolder now (<[j := t']> (f_tables f)) f in
          folders st' = <[i := f']> (folders st) ∧
          t_updatedAt t' = now ∧ f_updatedAt f' = now
      | None =>
        folders st' = <[i := stampFolder now (f_tables f) f]> (folders st)
      end
  end.
Proof.
  intros Hnf Hnt st'. repeat (split; [done|]).
  unfold activeTable. destruct (activeFolder st) as [f|] eqn:Hf.
  - apply find_some_lookup in Hf as (i & Hi & Hfid%bool_decide_eq_true).
    exists i. split; [done|].
    destruct (List.find _ (f_tables f)) as [t|] eqn:Ht.
    + apply find_some_lookup in Ht as (j & Hj & Htid%bool_decide_eq_true).
      exists j. split; [done|]. split; [|done].
      apply updateActiveTable_found; [done| |done].
      apply Hnt. by eapply list_elem_of_lookup_2.
    + apply updateActiveTable_no_table; try done.
      intros t Hin. rewrite find_none_elem_of in Ht.
      specialize (Ht t Hin). by apply bool_decide_eq_false in Ht.
  - subst st'. by rewrite updateActiveTable_no_folder.
Qed.

Lemma updateActiveTable_frame_witness :
  let st := sampleState [sampleTable "t" classic [("a", "A")] [] None;
                         sampleTable "u" classic [] [] None] "t" [] in
  folders (updateActiveTable 7 (deleteColumn (js "a")) st)
  = [{| f_id := js "f"; f_name := js "f"; f_description := [];
        f_tables := [withTableUpdatedAt 7 (sampleTable "t" classic [] [] None);
                     sampleTable "u" classic [] [] None];
        f_createdAt := 0; f_updatedAt := 7 |}].
Proof.
  intros st.
  destruct (updateActiveTable_frame st 7 (deleteColumn (js "a")))
    as (_ & _ & _ & _ & _ & _ & H).
  - apply (bool_decide_unpack _). by vm_compute.
  - intros f Hf. apply list_elem_of_singleton in Hf as ->.
    apply (bool_decide_unpack _). by vm_compute.
  - vm_compute. reflexivity.
Defined.

(** C9 as stated fails: when the active folder exists and the active table
    does not, the helper is not a no-op, the folder is stamped with the
    fresh [updatedAt]. *)
Lemma updateActiveTable_stale_table_not_noop :
  let st := sampleState [sampleTable "u" classic [] [] None] "t" [] in
  activeTable st = None ∧
  folders (updateActiveTable 7 (fun t => t) st) ≠ folders st ∧
  f_updatedAt <$> folders st = [0] ∧
  f_updatedAt <$> folders (updateActiveTable 7 (fun t => t) st) = [7].
Proof.
  intros st. split; [by vm_compute|]. split; [|by vm_compute].
  intros H. apply (f_equal (fmap f_updatedAt)) in H. by vm_compute in H.
Qed.

(** ** Column deletion *)

(** C10. When the column asked to be deleted is the auto-identifier column of
    the active table, [handleDeleteColumn] leaves the state, and so the
    whole collection, exactly as it is. *)
Theorem handleDeleteColumn_idColumn (st : State) (t : ProjectTable)
    (colId : jsstring) (now : Z) :
  activeTable st = Some t →
  t_autoIdColumnId t = Some colId →
  handleDeleteColumn colId now st = st.
Proof.
  intros Ht Hid. unfold handleDeleteColumn. rewrite Ht.
  by rewrite bool_decide_eq_true_2.
Qed.

Lemma handleDeleteColumn_idColumn_witness :
  let st := sampleState [sampleTable "t" classic [("id", "ID"); ("a", "A")]
                           [sampleRow "r" [("id", "1"); ("a", "x")]] (Some "id")] "t" [] in
  handleDeleteColumn (js "id") 7 st = st.
Proof.
  intros st. apply (handleDeleteColumn_idColumn st
    (sampleTable "t" classic [("id", "ID"); ("a", "A")]
       [sampleRow "r" [("id", "1"); ("a", "x")]] (Some "id"))).
  - by vm_compute.
  - by vm_compute.
Defined.

(** ** Row generation *)

Section ActiveAfterUpdate.
Lemma find_fmap_preserve {A} (P : A → bool) (g : A → A) (l : list A) :
  (∀ x, P (g x) = P x) → List.find P (g <$> l) = g <$> List.find P l.
Proof.
  intros HP. induction l as [|x l IH]; [done|]. csimpl.
  rewrite HP. by destruct (P x).
Qed.

(** After a mutation that keeps the id of the table, the active table is
    the transform of the former active table, stamped. *)
Lemma activeTable_updateActiveTable st now updater :
  (∀ t, t_id (updater t) = t_id t) →
  activeTable (updateActiveTable now updater st)
  = (fun t => withTableUpdatedAt now (updater t)) <$> activeTable st.
Proof.
  intros Hid. unfold activeTable, activeFolder, updateActiveTable. simpl.
  rewrite find_fmap_preserve.
  - destruct (List.find _ (folders st)) as [f|] eqn:Hf; [|done]. simpl.
    apply find_some in Hf as [_ Hf]. rewrite Hf. simpl.
    rewrite find_fmap_preserve.
    { destruct (List.find _ (f_tables f)) as [t|] eqn:Ht; [|done]. simpl.
      apply find_some in Ht as [_ Ht]. by rewrite Ht. }
    intros t. destruct (bool_decide (Some (t_id t) = activeTableId st)) eqn:Ht;
      simpl; [|done]. by rewrite Hid.
  - intros f.
    by destruct (bool_decide (Some (f_id f) = activeFolderId st)) eqn:Hf.
Qed.

End ActiveAfterUpdate.

Section Identifiers.
Lemma foldr_max_acc (a n : Z) (l : list Z) :
  foldr Z.max (Z.max n a) l = Z.max n (foldr Z.max a l).
Proof. induction l as [|x l IH]; simpl; [done|]. rewrite IH. lia. Qed.

Lemma fold_left_maxIdStep idc rows a :
  fold_left (maxIdStep idc) rows a = foldr Z.max a (parsedIds idc rows).
Proof.
  revert a. induction rows as [|r rows IH]; intros a; [done|].
  simpl. rewrite IH. unfold maxIdStep, parsedIds. csimpl.
  destruct (parseInt _) as [num|]; simpl; [|done].
  rewrite <- foldr_max_acc. f_equal. destruct (Z.gtb_spec num a); lia.
Qed.

Lemma nextIdStart_hasIdColumn t idc :
  idColumnId t = Some idc → hasIdColumn t = true →
  nextIdStart t = 1 + foldr Z.max 0 (parsedIds idc (t_rows t)).
Proof.
  intros Hid Hhas. unfold nextIdStart. rewrite Hid, Hhas.
  rewrite fold_left_maxIdStep. lia.
Qed.

Lemma assignId_lookup t n values k :
  assignId t n values !! k
  = if hasIdColumn t && bool_decide (idColumnId t = Some k)
    then Some (numToString n) else values !! k.
Proof.
  unfold assignId. destruct (idColumnId t) as [idc|]; [|by rewrite andb_false_r].
  destruct (hasIdColumn t); simpl; [|done].
  destruct (decide (idc = k)) as [->|Hne].
  - by rewrite lookup_insert_eq, bool_decide_eq_true_2.
  - rewrite lookup_insert_ne, bool_decide_eq_false_2; congruence.
Qed.
End Identifiers.

Section Classic.
Implicit Types (inputs : gmap (list N) (list N)) (cols : list Column).

Lemma max_list_with_snoc {A} (f : A → nat) (l : list A) (x : A) :
  max_list_with f (l ++ [x]) = (max_list_with f l `max` f x)%nat.
Proof. induction l as [|y l IH]; simpl; [lia|]. rewrite IH. lia. Qed.

Lemma classicScan_spec inputs cols :
  classicScan inputs cols
  = (fold_left (fun m col => <[c_id col := classicParts inputs col]> m) cols ∅,
     max_list_with (fun col => length (classicParts inputs col)) cols).
Proof.
  unfold classicScan. induction cols as [|c cols IH] using rev_ind; [done|].
  rewrite !fold_left_app, IH, max_list_with_snoc. simpl. f_equal.
  destruct (Nat.ltb_spec (max_list_with (fun col => length (classicParts inputs col)) cols)
                         (length (classicParts inputs c))); lia.
Qed.



End Classic.




Section Generate.
Implicit Types (options : gmap (list N) (list jsstring))
               (keys choice : list jsstring)
               (cur : gmap (list N) (list N))
               (combs : list (gmap (list N) (list N))).

Lemma generate_unfold options keys st :
  generate options keys st
  = if (COMBINATIONS_CAP <=? length (snd st))%nat then st
    else match keys with
         | [] => (fst st, snd st ++ [fst st])
         | k :: keys' =>
           fold_left
             (fun st' val => generate options keys' (<[k := val]> (fst st'), snd st'))
             (default [] (options !! k)) st
         end.
Proof. by destruct keys. Qed.

Local Opaque COMBINATIONS_CAP.

Lemma generate_capped options keys cur combs :
  (COMBINATIONS_CAP ≤ length combs)%nat →
  generate options keys (cur, combs) = (cur, combs).
Proof.
  intros Hcap. rewrite generate_unfold. simpl.
  by replace (COMBINATIONS_CAP <=? length combs)%nat with true
    by (symmetry; by apply Nat.leb_le).
Qed.

Lemma generate_nil options cur combs :
  (length combs < COMBINATIONS_CAP)%nat →
  generate options [] (cur, combs) = (cur, combs ++ [cur]).
Proof.
  intros Hlt. rewrite generate_unfold. simpl.
  by replace (COMBINATIONS_CAP <=? length combs)%nat with false
    by (symmetry; by apply Nat.leb_gt).
Qed.

Lemma generate_cons options k keys cur combs :
  (length combs < COMBINATIONS_CAP)%nat →
  generate options (k :: keys) (cur, combs)
  = fold_left (fun st' val => generate options keys (<[k := val]> (fst st'), snd st'))
              (default [] (options !! k)) (cur, combs).
Proof.
  intros Hlt. rewrite generate_unfold. simpl.
  by replace (COMBINATIONS_CAP <=? length combs)%nat with false
    by (symmetry; by apply Nat.leb_gt).
Qed.

Lemma cartesian_length_elem {A} (ls : list (list A)) (c : list A) :
  c ∈ cartesian ls → length c = length ls.
Proof.
  revert c. induction ls as [|l ls IH]; intros c Hc; simpl in Hc.
  - by apply list_elem_of_singleton in Hc as ->.
  - apply list_elem_of_In, in_flat_map in Hc as (x & _ & Hc).
    apply list_elem_of_In, list_elem_of_fmap in Hc as (c' & -> & Hc').
    simpl. f_equal. by apply IH.
Qed.


Lemma writeAll_agree keys : ∀ choice cur cur',
  length choice = length keys → agreeOutside keys cur cur' →
  writeAll keys choice cur = writeAll keys choice cur'.
Proof.
  induction keys as [|k keys IH]; intros [|v choice] cur cur' Hlen Hagree;
    try done.
  - apply map_eq. intros k. apply Hagree. apply not_elem_of_nil.
  - unfold writeAll. simpl. apply IH; [by injection Hlen|].
    intros x Hx. destruct (decide (k = x)) as [->|Hne].
    + by rewrite !lookup_insert_eq.
    + rewrite !lookup_insert_ne by done. apply Hagree.
      rewrite elem_of_cons. intros [?|?]; done.
Qed.

(** What one more batch adds under the cap. *)
Lemma take_cap_app {A} (n : nat) (combs a b : list A) :
  (combs ++ take (n - length combs) a)
    ++ take (n - length (combs ++ take (n - length combs) a)) b
  = combs ++ take (n - length combs) (a ++ b).
Proof.
  rewrite <- app_assoc. f_equal. rewrite length_app, length_take, take_app.
  f_equal. f_equal. lia.
Qed.

Lemma fmap_ext_elem_of {A B} (f g : A → B) (l : list A) :
  (∀ x, x ∈ l → f x = g x) → f <$> l = g <$> l.
Proof.
  intros H. induction l as [|x l IH]; [done|]. csimpl.
  rewrite (H x) by left. f_equal. apply IH. intros y Hy. apply H. by right.
Qed.

Lemma fmap_flat_map {A B C} (f : B → C) (g : A → list B) (l : list A) :
  f <$> flat_map g l = flat_map (fun x => f <$> g x) l.
Proof.
  induction l as [|x l IH]; [done|]. simpl. by rewrite fmap_app, IH.
Qed.

(** The [forEach] over the options of one key, given what [generate]
    does on the keys that follow. *)
Lemma generate_forEach options k keys :
  (∀ cur combs,
     snd (generate options keys (cur, combs))
     = combs ++ take (COMBINATIONS_CAP - length combs)
                  ((fun choice => writeAll keys choice cur)
                   <$> cartesian (optionLists options keys))
     ∧ agreeOutside keys cur (fst (generate options keys (cur, combs)))) →
  ∀ vals cur0 cur combs,
    agreeOutside (k :: keys) cur0 cur →
    let r := fold_left
               (fun st' val => generate options keys (<[k := val]> (fst st'), snd st'))
               vals (cur, combs) in
    snd r = combs ++ take (COMBINATIONS_CAP - length combs)
              (flat_map (fun v => (fun choice => writeAll (k :: keys) (v :: choice) cur0)
                                  <$> cartesian (optionLists options keys)) vals)
    ∧ agreeOutside (k :: keys) cur0 (fst r).
Proof.
  intros IH. induction vals as [|v vals IHvals]; intros cur0 cur combs Hagree;
    cbv zeta in *.
  - simpl. by rewrite take_nil, app_nil_r.
  - simpl. destruct (IH (<[k := v]> cur) combs) as [Hsnd Hfst].
    destruct (generate options keys (<[k := v]> cur, combs)) as [cur1 combs1].
    simpl in Hsnd, Hfst.
    destruct (IHvals cur0 cur1 combs1) as [Hsnd' Hfst'].
    { intros x Hx. rewrite Hagree by done. rewrite <- Hfst.
      - symmetry. apply lookup_insert_ne. intros ->. apply Hx. left.
      - intros Hin. apply Hx. by right. }
    split; [|done]. rewrite Hsnd', Hsnd, take_cap_app. do 3 f_equal.
    apply fmap_ext_elem_of. intros choice Hchoice.
    change (writeAll (k :: keys) (v :: choice) cur0)
      with (writeAll keys choice (<[k := v]> cur0)).
    apply writeAll_agree.
    + apply cartesian_length_elem in Hchoice. rewrite Hchoice.
      unfold optionLists. by rewrite length_fmap.
    + intros x Hx. destruct (decide (k = x)) as [->|Hne].
      * by rewrite !lookup_insert_eq.
      * rewrite !lookup_insert_ne by done. symmetry. apply Hagree.
        rewrite elem_of_cons. intros [?|?]; done.
Qed.

(** [generate] adds the rows of the product of the option lists of its
    keys, in order, until [combinations] holds the cap; of [current] it
    changes the entries of its keys only. *)
Lemma generate_spec options keys : ∀ cur combs,
  snd (generate options keys (cur, combs))
  = combs ++ take (COMBINATIONS_CAP - length combs)
               ((fun choice => writeAll keys choice cur)
                <$> cartesian (optionLists options keys))
  ∧ agreeOutside keys cur (fst (generate options keys (cur, combs))).
Proof.
  induction keys as [|k keys IH]; intros cur combs.
  - destruct (Nat.lt_ge_cases (length combs) COMBINATIONS_CAP) as [Hlt|Hcap].
    + rewrite generate_nil by done. simpl. split; [|done].
      destruct (COMBINATIONS_CAP - length combs)%nat eqn:Hn; [lia|].
      simpl. by rewrite take_nil.
    + rewrite generate_capped by done. simpl. split; [|done].
      replace (COMBINATIONS_CAP - length combs)%nat with 0%nat by lia.
      by rewrite app_nil_r.
  - destruct (Nat.lt_ge_cases (length combs) COMBINATIONS_CAP) as [Hlt|Hcap].
    2:{ rewrite generate_capped by done. simpl. split; [|done].
        replace (COMBINATIONS_CAP - length combs)%nat with 0%nat by lia.
        by rewrite take_0, app_nil_r. }
    rewrite generate_cons by done.
    destruct (generate_forEach options k keys IH (default [] (options !! k))
                cur cur combs) as [Hsnd Hfst]; [done|].
    split; [|done]. rewrite Hsnd. do 2 f_equal.
    unfold optionLists. csimpl. rewrite fmap_flat_map.
    apply flat_map_ext. intros x. by rewrite <- list_fmap_compose.
Qed.
End Generate.

Section Keys.
Implicit Types (k : jsstring) (ks : list jsstring).

Lemma elem_of_insertIndexKey n k ks x :
  x ∈ insertIndexKey n k ks ↔ x = k ∨ x ∈ ks.
Proof.
  induction ks as [|k' ks IH]; simpl.
  - rewrite list_elem_of_singleton, elem_of_nil. tauto.
  - destruct (arrayIndex k') as [m|]; [destruct (m <? n)|];
      rewrite ?elem_of_cons, ?IH; tauto.
Qed.

Lemma elem_of_addKey ks k x : x ∈ addKey ks k ↔ x = k ∨ x ∈ ks.
Proof.
  unfold addKey. case_bool_decide as Hin.
  - split; [tauto|]. by intros [->|?].
  - destruct (arrayIndex k).
    + apply elem_of_insertIndexKey.
    + rewrite elem_of_app, list_elem_of_singleton. tauto.
Qed.

Lemma NoDup_insertIndexKey n k ks :
  k ∉ ks → NoDup ks → NoDup (insertIndexKey n k ks).
Proof.
  intros Hk Hnd. induction Hnd as [|k' ks Hk' Hnd IH]; simpl.
  - apply NoDup_singleton.
  - apply not_elem_of_cons in Hk as [Hne Hk].
    assert (NoDup (k :: k' :: ks)).
    { apply NoDup_cons. split; [|by apply NoDup_cons].
      rewrite elem_of_cons. tauto. }
    destruct (arrayIndex k') as [m|]; [destruct (m <? n)|]; try done.
    apply NoDup_cons. split; [|by apply IH].
    rewrite elem_of_insertIndexKey. intros [->|?]; done.
Qed.

Lemma NoDup_addKey ks k : NoDup ks → NoDup (addKey ks k).
Proof.
  intros Hnd. unfold addKey. case_bool_decide as Hin; [done|].
  destruct (arrayIndex k).
  - by apply NoDup_insertIndexKey.
  - apply NoDup_app. split; [done|]. split; [|apply NoDup_singleton].
    intros x Hx ->%list_elem_of_singleton. done.
Qed.

Lemma elem_of_objectKeys ids x : x ∈ fold_left addKey ids [] ↔ x ∈ ids.
Proof.
  induction ids as [|k ids IH] using rev_ind; [done|].
  rewrite fold_left_app. simpl.
  rewrite elem_of_addKey, IH, elem_of_app, list_elem_of_singleton. tauto.
Qed.

Lemma NoDup_objectKeys ids : NoDup (fold_left addKey ids []).
Proof.
  induction ids as [|k ids IH] using rev_ind; [apply NoDup_nil_2|].
  rewrite fold_left_app. simpl. by apply NoDup_addKey.
Qed.


Lemma pairwiseOptions_spec inputs cols :
  pairwiseOptions inputs cols
  = (fold_left (fun m col => <[c_id col := pairwiseParts inputs col]> m) cols ∅,
     fold_left addKey (c_id <$> cols) []).
Proof.
  unfold pairwiseOptions. induction cols as [|c cols IH] using rev_ind; [done|].
  by rewrite fmap_app, !fold_left_app, IH.
Qed.


Lemma writeAll_list_to_map ks : ∀ choice (m : gmap (list N) (list N)),
  NoDup ks → writeAll ks choice m = list_to_map (zip ks choice) ∪ m.
Proof.
  induction ks as [|k ks IH]; intros choice m Hnd.
  - unfold writeAll. simpl. by rewrite (left_id_L ∅ (∪)).
  - destruct choice as [|v choice].
    { unfold writeAll. simpl. by rewrite (left_id_L ∅ (∪)). }
    apply NoDup_cons in Hnd as [Hk Hnd].
    change (writeAll (k :: ks) (v :: choice) m)
      with (writeAll ks choice (<[k := v]> m)).
    rewrite IH by done. simpl. rewrite <- insert_union_r; [by rewrite insert_union_l|].
    apply not_elem_of_list_to_map_1. intros Hin.
    apply list_elem_of_fmap in Hin as ([k' v'] & -> & Hin).
    apply elem_of_zip_l in Hin. done.
Qed.
End Keys.

Section Pairwise.
Implicit Types (inputs : gmap (list N) (list N)) (t : ProjectTable).

(** The rows of a pairwise generation, on the keys as [Object.keys]
    lists them. *)
Lemma pairwiseRows_values t inputs now :
  r_values <$> pairwiseRows t inputs now
  = imap (fun i choice =>
            assignId t (nextIdStart t + Z.of_nat i)
              (list_to_map (zip (snd (pairwiseOptions inputs (t_columns t))) choice)))
         (take COMBINATIONS_CAP
            (cartesian (optionLists (fst (pairwiseOptions inputs (t_columns t)))
                                    (snd (pairwiseOptions inputs (t_columns t)))))).
Proof.
  unfold pairwiseRows.
  destruct (pairwiseOptions inputs (t_columns t)) as [options keys] eqn:Hopt.
  cbv zeta. destruct (generate_spec options keys ∅ []) as [-> _].
  rewrite app_nil_l. change (length (@nil (gmap (list N) (list N)))) with 0%nat.
  rewrite Nat.sub_0_r, fmap_imap, <- fmap_take, imap_fmap.
  apply imap_ext. intros i choice _. simpl. f_equal.
  rewrite writeAll_list_to_map.
  - by rewrite (right_id_L ∅ (∪)).
  - replace keys with (snd (pairwiseOptions inputs (t_columns t)))
      by (by rewrite Hopt).
    rewrite pairwiseOptions_spec. apply NoDup_objectKeys.
Qed.


Lemma pairwiseRows_lookup_id t inputs now idc i row :
  idColumnId t = Some idc → hasIdColumn t = true →
  pairwiseRows t inputs now !! i = Some row →
  r_values row !! idc = Some (numToString (nextIdStart t + Z.of_nat i)).
Proof.
  intros Hid Hhas. unfold pairwiseRows.
  destruct (pairwiseOptions inputs (t_columns t)) as [options keys].
  rewrite list_lookup_imap. destruct (_ !! i) as [combo|]; [|done].
  simpl. intros [= <-]. simpl.
  by rewrite assignId_lookup, Hhas, Hid, bool_decide_eq_true_2.
Qed.

Lemma classicRows_lookup_id t inputs now idc i row :
  idColumnId t = Some idc → hasIdColumn t = true →
  classicRows t inputs now !! i = Some row →
  r_values row !! idc = Some (numToString (nextIdStart t + Z.of_nat i)).
Proof.
  intros Hid Hhas. unfold classicRows. rewrite classicScan_spec.
  rewrite list_lookup_fmap. destruct (seq 0 _ !! i) as [i'|] eqn:Hi; [|done].
  apply lookup_seq in Hi as [-> _]. simpl. intros [= <-]. simpl.
  by rewrite assignId_lookup, Hhas, Hid, bool_decide_eq_true_2.
Qed.
End Pairwise.





(** ** Identifier assignment *)




(** ** The keys of the rows *)

Section Keys_of_rows.
Implicit Types (t : ProjectTable) (r : DynamicRow) (k : jsstring).

(** The keys a fold of writes can leave in a map. *)
Lemma fold_left_insert_is_Some {A V} (key : A → jsstring) (g : A → V)
    (l : list A) (m0 : gmap (list N) V) k :
  is_Some (fold_left (fun m x => <[key x := g x]> m) l m0 !! k) →
  k ∈ key <$> l ∨ is_Some (m0 !! k).
Proof.
  induction l as [|a l IH] using rev_ind; [by right|].
  rewrite fold_left_app, fmap_app. simpl.
  destruct (decide (key a = k)) as [<-|Hne].
  - intros _. left. apply elem_of_app. right. left.
  - rewrite lookup_insert_ne by done. intros [H|H]%IH; [|by right].
    left. apply elem_of_app. by left.
Qed.

Lemma hasIdColumn_elem_of t idc :
  idColumnId t = Some idc → hasIdColumn t = true → idc ∈ c_id <$> t_columns t.
Proof.
  unfold hasIdColumn. intros -> [_ Hex]%andb_true_iff.
  apply existsb_exists in Hex as (c & Hc & Heq).
  apply bool_decide_eq_true in Heq as <-.
  apply list_elem_of_fmap_2. by apply list_elem_of_In.
Qed.

Lemma assignId_is_Some t (n : Z) (values : gmap (list N) (list N)) k :
  is_Some (assignId t n values !! k) →
  k ∈ c_id <$> t_columns t ∨ is_Some (values !! k).
Proof.
  rewrite assignId_lookup.
  destruct (hasIdColumn t) eqn:Hhas; simpl; [|by right].
  case_bool_decide as Hid; [|by right].
  intros _. left. by apply hasIdColumn_elem_of.
Qed.

Lemma writeAll_is_Some keys : ∀ choice (m : gmap (list N) (list N)) k,
  is_Some (writeAll keys choice m !! k) → k ∈ keys ∨ is_Some (m !! k).
Proof.
  induction keys as [|k' keys IH]; intros [|v choice] m k; try by right.
  change (writeAll (k' :: keys) (v :: choice) m)
    with (writeAll keys choice (<[k' := v]> m)).
  intros [H|H]%IH; [left; by right|].
  destruct (decide (k' = k)) as [->|Hne]; [left; left|].
  rewrite lookup_insert_ne in H by done. by right.
Qed.

Lemma deleteColumn_within colId t :
  valuesWithinColumns t → valuesWithinColumns (deleteColumn colId t).
Proof.
  intros Hinv r k Hr Hk. simpl in *.
  apply list_elem_of_fmap in Hr as (r0 & -> & Hr0). simpl in Hk.
  destruct (decide (colId = k)) as [->|Hne].
  { rewrite lookup_delete_eq in Hk. by destruct Hk. }
  rewrite lookup_delete_ne in Hk by done.
  apply (Hinv r0 k Hr0) in Hk. apply list_elem_of_fmap in Hk as (c & -> & Hc).
  apply list_elem_of_fmap_2. apply list_elem_of_In, filter_In.
  split; [by apply list_elem_of_In|]. by rewrite bool_decide_eq_false_2.
Qed.

Lemma deleteColumn_removes colId t r :
  r ∈ t_rows (deleteColumn colId t) → r_values r !! colId = None.
Proof.
  simpl. intros (r0 & -> & _)%list_elem_of_fmap. apply lookup_delete_eq.
Qed.

Lemma deleteColumn_not_column colId t :
  colId ∉ c_id <$> t_columns (deleteColumn colId t).
Proof.
  simpl. intros (c & -> & Hc)%list_elem_of_fmap.
  apply list_elem_of_In, filter_In in Hc as [_ Hc].
  by rewrite bool_decide_eq_true_2 in Hc.
Qed.

Lemma prependRows_within newRows t :
  valuesWithinColumns t →
  (∀ r k, r ∈ newRows → is_Some (r_values r !! k) → k ∈ c_id <$> t_columns t) →
  valuesWithinColumns (prependRows newRows t).
Proof.
  intros Hinv Hnew r k Hr Hk. simpl in *.
  apply elem_of_app in Hr as [Hr|Hr]; [by eapply Hnew|exact (Hinv r k Hr Hk)].
Qed.

Lemma classicRows_within t inputs now r k :
  r ∈ classicRows t inputs now → is_Some (r_values r !! k) →
  k ∈ c_id <$> t_columns t.
Proof.
  unfold classicRows. destruct (classicScan _ _) as [m maxRows].
  intros (i & -> & _)%list_elem_of_fmap. simpl.
  intros [H|H]%assignId_is_Some; [done|].
  unfold classicRowValues in H.
  apply (fold_left_insert_is_Some c_id) in H as [H|H]; [done|].
  rewrite lookup_empty in H. by destruct H.
Qed.

Lemma pairwiseRows_within t inputs now r k :
  r ∈ pairwiseRows t inputs now → is_Some (r_values r !! k) →
  k ∈ c_id <$> t_columns t.
Proof.
  intros Hr Hk.
  assert (Hv : r_values r ∈ r_values <$> pairwiseRows t inputs now)
    by (by apply list_elem_of_fmap_2).
  rewrite pairwiseRows_values in Hv.
  apply list_elem_of_lookup in Hv as [i Hi].
  rewrite list_lookup_imap in Hi.
  destruct (_ !! i) as [choice|]; [|done]. simpl in Hi. injection Hi as Hi.
  rewrite <- Hi in Hk. apply assignId_is_Some in Hk as [Hk|Hk]; [done|].
  rewrite <- (right_id_L ∅ (∪) (list_to_map _)) in Hk.
  rewrite <- writeAll_list_to_map in Hk.
  - apply writeAll_is_Some in Hk as [Hk|Hk].
    + rewrite pairwiseOptions_spec in Hk. simpl in Hk.
      exact (proj1 (elem_of_objectKeys _ _) Hk).
    + rewrite lookup_empty in Hk. by destruct Hk.
  - rewrite pairwiseOptions_spec. apply NoDup_objectKeys.
Qed.
End Keys_of_rows.

Section Keys_of_edits.
Implicit Types (t : ProjectTable) (r : DynamicRow) (k : jsstring).

Lemma fold_left_ext {A B} (f g : A → B → A) (l : list B) (a : A) :
  (∀ a b, f a b = g a b) → fold_left f l a = fold_left g l a.
Proof.
  intros Hfg. revert a. induction l as [|b l IH]; intros a; [done|].
  simpl. by rewrite Hfg, IH.
Qed.

Lemma editRowValues_is_Some r typed k :
  is_Some (editRowValues r typed !! k) →
  k ∈ (c_id ∘ fst) <$> typed ∨ is_Some (r_values r !! k).
Proof.
  unfold editRowValues.
  rewrite (fold_left_ext _ (fun m x => <[(c_id ∘ fst) x := snd x]> m));
    [|by intros ? [??]].
  apply fold_left_insert_is_Some.
Qed.

Lemma saveRow_within r typed now t :
  r ∈ t_rows t → (∀ ct, ct ∈ typed → fst ct ∈ t_columns t) →
  valuesWithinColumns t →
  valuesWithinColumns (saveRow (r_id r) (editRowValues r typed) now t).
Proof.
  intros Hr Htyped Hinv r' k Hr' Hk. simpl in *.
  apply list_elem_of_fmap in Hr' as (r0 & -> & Hr0).
  destruct (bool_decide (r_id r0 = r_id r)); [|exact (Hinv r0 k Hr0 Hk)].
  simpl in Hk.
  apply editRowValues_is_Some in Hk as [Hk|Hk]; [|exact (Hinv r k Hr Hk)].
  apply list_elem_of_fmap in Hk as (ct & -> & Hct). simpl.
  apply list_elem_of_fmap_2. by apply Htyped.
Qed.

Lemma massUpdateFieldsOf_is_Some filters cols changes k :
  is_Some (massUpdateFieldsOf filters cols changes !! k) →
  k ∈ (c_id ∘ fst) <$> changes ∨ k ∈ c_id <$> cols.
Proof.
  unfold massUpdateFieldsOf.
  rewrite (fold_left_ext _ (fun m x => <[(c_id ∘ fst) x := snd x]> m));
    [|by intros ? [??]].
  intros [H|H]%fold_left_insert_is_Some; [by left|]. right.
  unfold initialMassUpdateFields in H.
  apply (fold_left_insert_is_Some c_id) in H as [H|H]; [done|].
  rewrite lookup_empty in H. by destruct H.
Qed.

Lemma massUpdate_within filters changes selectedRowIds now t :
  (∀ cd, cd ∈ changes → fst cd ∈ t_columns t) →
  valuesWithinColumns t →
  valuesWithinColumns
    (massUpdate (massUpdateFieldsOf filters (t_columns t) changes)
                selectedRowIds now t).
Proof.
  intros Hchanges Hinv r' k Hr' Hk. simpl in *.
  apply list_elem_of_fmap in Hr' as (r0 & -> & Hr0).
  destruct (bool_decide (r_id r0 ∈ selectedRowIds)); [|exact (Hinv r0 k Hr0 Hk)].
  simpl in Hk.
  apply lookup_union_is_Some in Hk as [Hk|Hk]; [|exact (Hinv r0 k Hr0 Hk)].
  rewrite lookup_fmap in Hk. apply fmap_is_Some in Hk.
  destruct Hk as [d Hd]. apply map_lookup_filter_Some in Hd as [Hd _].
  destruct (massUpdateFieldsOf_is_Some filters (t_columns t) changes k) as [H'|H'];
    [by eexists| |done].
  apply list_elem_of_fmap in H' as (cd & -> & Hcd). simpl.
  apply list_elem_of_fmap_2. by apply Hchanges.
Qed.

Lemma nativeRow_is_Some t now i row k :
  is_Some (r_values (nativeRow t now i row) !! k) →
  k ∈ c_id <$> t_columns t
  ∨ k ∈ fst <$> entries (orEmptyObject (getProp row (js "values"))).
Proof.
  simpl. intros [H|H]%assignId_is_Some; [by left|]. right.
  rewrite (fold_left_ext _ (fun m x => <[fst x := cellText (Some (snd x))]> m)) in H;
    [|by intros ? [??]].
  apply fold_left_insert_is_Some in H as [H|H]; [done|].
  rewrite lookup_empty in H. by destruct H.
Qed.

Lemma nativeUpdater_within columnsFromFile rowsFromFile now t :
  (∀ row k, row ∈ rowsFromFile →
     k ∈ fst <$> entries (orEmptyObject (getProp row (js "values"))) →
     k ∈ c_id <$> (t_columns t ++ columnsFromFile)) →
  valuesWithinColumns t →
  valuesWithinColumns
    (nativeUpdater columnsFromFile (imap (nativeRow t now) rowsFromFile) t).
Proof.
  intros Hfile Hinv r k Hr Hk. simpl in *.
  assert (Hsub : ∀ x, x ∈ c_id <$> (t_columns t ++ columnsFromFile) →
            x ∈ c_id <$> (t_columns t ++
              List.filter (fun c => negb (bool_decide (c_id c ∈ c_id <$> t_columns t)))
                          columnsFromFile)).
  { intros x. rewrite !fmap_app, !elem_of_app.
    destruct (decide (x ∈ c_id <$> t_columns t)) as [Hx|Hx]; [by left|].
    intros [?|(c & -> & Hc)%list_elem_of_fmap]; [done|]. right.
    apply list_elem_of_fmap_2, list_elem_of_In, filter_In.
    split; [by apply list_elem_of_In|]. by rewrite bool_decide_eq_false_2. }
  apply elem_of_app in Hr as [Hr|Hr].
  - apply Hsub. rewrite fmap_app, elem_of_app. left. exact (Hinv r k Hr Hk).
  - apply list_elem_of_lookup in Hr as [i Hi]. rewrite list_lookup_imap in Hi.
    destruct (rowsFromFile !! i) as [row|] eqn:Hrow; [|done].
    simpl in Hi. injection Hi as <-. apply Hsub.
    apply nativeRow_is_Some in Hk as [Hk|Hk].
    + rewrite fmap_app, elem_of_app. by left.
    + eapply Hfile; [|done]. by eapply list_elem_of_lookup_2.
Qed.
End Keys_of_edits.

Section Keys_of_other_mutations.
Implicit Types (t : ProjectTable) (r : DynamicRow) (k : jsstring).

(** New columns with at least the old ids, new rows among the old rows. *)
Lemma within_more_columns_fewer_rows t cols rs :
  (∀ k, k ∈ c_id <$> t_columns t → k ∈ c_id <$> cols) →
  (∀ r, r ∈ rs → ∃ r0, r0 ∈ t_rows t ∧ r_values r = r_values r0) →
  valuesWithinColumns t → valuesWithinColumns (withColumnsRows cols rs t).
Proof.
  intros Hcols Hrows Hinv r k Hr Hk. simpl in *.
  destruct (Hrows r Hr) as (r0 & Hr0 & Hvals). rewrite Hvals in Hk.
  apply Hcols. exact (Hinv r0 k Hr0 Hk).
Qed.

Lemma addColumn_within label now t :
  valuesWithinColumns t → valuesWithinColumns (addColumn label now t).
Proof.
  apply within_more_columns_fewer_rows.
  - intros k Hk. rewrite fmap_app, elem_of_app. by left.
  - intros r Hr. by exists r.
Qed.

Lemma renameColumn_within renamingColId label t :
  valuesWithinColumns t → valuesWithinColumns (renameColumn renamingColId label t).
Proof.
  apply within_more_columns_fewer_rows.
  - intros k (c & -> & Hc)%list_elem_of_fmap. rewrite <- list_fmap_compose.
    apply list_elem_of_fmap. exists c. split; [|done]. simpl.
    by destruct (bool_decide (c_id c = renamingColId)).
  - intros r Hr. by exists r.
Qed.

Lemma moveColumn_within dragColId targetColId t :
  valuesWithinColumns t → valuesWithinColumns (moveColumn dragColId targetColId t).
Proof.
  intros Hinv. unfold moveColumn.
  destruct (findIndex dragColId (t_columns t)) as [fromIndex|]; [|done].
  destruct (findIndex targetColId (t_columns t)) as [toIndex|]; [|done].
  destruct (t_columns t !! fromIndex) as [moved|] eqn:Hmoved; [|done].
  revert Hinv. apply within_more_columns_fewer_rows.
  - intros k (c & -> & Hc)%list_elem_of_fmap. apply list_elem_of_fmap_2.
    rewrite elem_of_app, elem_of_cons.
    assert (Hc' : c = moved ∨ c ∈ delete fromIndex (t_columns t)).
    { rewrite <- (take_drop_middle _ _ _ Hmoved) in Hc.
      rewrite delete_take_drop.
      rewrite elem_of_app, elem_of_cons in Hc. rewrite elem_of_app. tauto. }
    destruct Hc' as [->|Hc']; [tauto|].
    rewrite <- (take_drop toIndex (delete fromIndex (t_columns t))) in Hc'.
    rewrite elem_of_app in Hc'. tauto.
  - intros r Hr. by exists r.
Qed.

Lemma deleteRow_within id t :
  valuesWithinColumns t → valuesWithinColumns (deleteRow id t).
Proof.
  apply within_more_columns_fewer_rows; [done|].
  intros r Hr%list_elem_of_In%filter_In. exists r.
  split; [apply list_elem_of_In; tauto|done].
Qed.

Lemma deleteRows_within selectedRowIds t :
  valuesWithinColumns t → valuesWithinColumns (deleteRows selectedRowIds t).
Proof.
  apply within_more_columns_fewer_rows; [done|].
  intros r Hr%list_elem_of_In%filter_In. exists r.
  split; [apply list_elem_of_In; tauto|done].
Qed.

Lemma saveComment_within viewingRowId rowCommentInput now t :
  valuesWithinColumns t →
  valuesWithinColumns (saveComment viewingRowId rowCommentInput now t).
Proof.
  apply within_more_columns_fewer_rows; [done|].
  intros r (r0 & -> & Hr0)%list_elem_of_fmap. exists r0. split; [done|].
  by destruct (bool_decide (r_id r0 = viewingRowId)).
Qed.
End Keys_of_other_mutations.

Section Keys_of_csv.
Variable toLowerCase : jsstring → jsstring.
Implicit Types (t : ProjectTable) (r : DynamicRow) (k : jsstring).

Lemma fold_left_insert_Some {A V} (key : A → jsstring) (g : A → V)
    (l : list A) (m0 : gmap (list N) V) k v :
  fold_left (fun m x => <[key x := g x]> m) l m0 !! k = Some v →
  (∃ x, x ∈ l ∧ v = g x) ∨ m0 !! k = Some v.
Proof.
  induction l as [|a l IH] using rev_ind; [by right|].
  rewrite fold_left_app. simpl.
  destruct (decide (key a = k)) as [<-|Hne].
  - rewrite lookup_insert_eq. intros [= <-]. left. exists a.
    split; [|done]. apply elem_of_app. right. left.
  - rewrite lookup_insert_ne by done. intros [(x & Hx & ->)|H]%IH; [|by right].
    left. exists x. split; [|done]. apply elem_of_app. by left.
Qed.

Lemma existingByLabel_elem_of cols norm c :
  existingByLabel toLowerCase cols !! norm = Some c → c ∈ cols.
Proof.
  unfold existingByLabel.
  intros [(x & Hx & ->)|H]%(fold_left_insert_Some
    (fun c => normalizeLabel toLowerCase (c_label c)) (fun c => c)); [done|].
  by rewrite lookup_empty in H.
Qed.

(** Every header is mapped to an existing or to an added column. *)
Lemma headerStep_ids cols now (l : list (nat * jsstring)) id :
  id ∈ headerToColId
         (fold_left (headerStep toLowerCase (existingByLabel toLowerCase cols) now) l
            {| usedExisting := []; addedColumns := []; headerToColId := [] |}) →
  id ∈ c_id <$> cols
  ∨ id ∈ c_id <$> addedColumns
         (fold_left (headerStep toLowerCase (existingByLabel toLowerCase cols) now) l
            {| usedExisting := []; addedColumns := []; headerToColId := [] |}).
Proof.
  induction l as [|[idx raw] l IH] using rev_ind; simpl.
  { by intros ?%elem_of_nil. }
  rewrite fold_left_app. simpl.
  set (hs := fold_left _ l _) in *. unfold headerStep.
  set (label := if nonEmpty raw then raw else _).
  assert (Hfresh : id ∈ headerToColId hs ++ [freshColId now (Z.of_nat idx)] →
            id ∈ c_id <$> cols ∨
            id ∈ c_id <$> (addedColumns hs ++
               [{| c_id := freshColId now (Z.of_nat idx); c_label := label |}])).
  { rewrite fmap_app, !elem_of_app. intros [[?|?]%IH|?]; auto. }
  destruct (existingByLabel toLowerCase cols !! _) as [existing|] eqn:Hex;
    [|exact Hfresh].
  case_bool_decide; [exact Hfresh|]. simpl.
  rewrite elem_of_app. intros [?%IH|Hid%list_elem_of_singleton]; [done|].
  subst id. left. apply list_elem_of_fmap_2. by eapply existingByLabel_elem_of.
Qed.

Lemma csvRow_is_Some t now headerToColId newColumns rIdx row k :
  is_Some (r_values (csvRow t now headerToColId newColumns rIdx row) !! k) →
  k ∈ c_id <$> t_columns t ∨ k ∈ headerToColId ∨ k ∈ c_id <$> newColumns.
Proof.
  simpl. intros [H|H]%assignId_is_Some; [by left|]. right. revert H.
  set (values0 := fold_left _ (imap pair headerToColId) _).
  assert (Hheaders : is_Some (values0 !! k) → k ∈ headerToColId).
  { subst values0.
    rewrite (fold_left_ext _ (fun m x => <[snd x := default [] (row !! fst x)]> m));
      [|by intros ? [??]].
    intros [H|H]%fold_left_insert_is_Some.
    - apply list_elem_of_fmap in H as ([i cid] & -> & H).
      apply list_elem_of_lookup in H as [j Hj]. rewrite list_lookup_imap in Hj.
      destruct (headerToColId !! j) eqn:Hcid; [|done].
      simpl in Hj. injection Hj as _ <-. by eapply list_elem_of_lookup_2.
    - rewrite lookup_empty in H. by destruct H. }
  clearbody values0. revert Hheaders.
  induction newColumns as [|c cs IH] using rev_ind; intros Hheaders H.
  { left. by apply Hheaders. }
  rewrite fold_left_app in H. simpl in H. rewrite fmap_app, elem_of_app.
  set (m := fold_left _ cs values0) in *.
  destruct (m !! c_id c) eqn:Hc.
  - destruct (IH Hheaders H) as [?|?]; auto.
  - destruct (decide (c_id c = k)) as [<-|Hne].
    + right. right. left.
    + rewrite lookup_insert_ne in H by done.
      destruct (IH Hheaders H) as [?|?]; auto.
Qed.

Lemma csvUpdater_within headers dataRows now t :
  valuesWithinColumns t →
  valuesWithinColumns (csvUpdater toLowerCase t headers dataRows now t).
Proof.
  intros Hinv r k Hr Hk. unfold csvUpdater in *. simpl in *.
  set (hs := scanHeaders toLowerCase (t_columns t) now headers) in *.
  rewrite fmap_app, elem_of_app.
  apply elem_of_app in Hr as [Hr|Hr].
  - apply list_elem_of_fmap in Hr as (r0 & -> & Hr0). simpl in Hk.
    apply lookup_union_is_Some in Hk as [Hk|Hk]; [left; exact (Hinv r0 k Hr0 Hk)|].
    right. apply (fold_left_insert_is_Some c_id (fun _ => [])) in Hk as [Hk|Hk];
      [done|]. rewrite lookup_empty in Hk. by destruct Hk.
  - apply list_elem_of_lookup in Hr as [i Hi]. rewrite list_lookup_imap in Hi.
    destruct (dataRows !! i) as [row|]; [|done]. simpl in Hi.
    injection Hi as Hi. rewrite <- Hi in Hk.
    apply csvRow_is_Some in Hk as [Hk|[Hk|Hk]].
    + by left.
    + by apply headerStep_ids in Hk.
    + by rewrite fmap_app, elem_of_app in Hk.
Qed.
End Keys_of_csv.

Lemma mutation_within (toLowerCase : jsstring → jsstring) (t t' : ProjectTable) :
  mutation toLowerCase t t' → valuesWithinColumns t → valuesWithinColumns t'.
Proof.
  intros Hstep Hinv. destruct Hstep.
  - by apply deleteColumn_within.
  - apply prependRows_within; [done|]. intros r k. apply classicRows_within.
  - apply prependRows_within; [done|]. intros r k. apply pairwiseRows_within.
  - by apply saveRow_within.
  - by apply massUpdate_within.
  - by apply csvUpdater_within.
  - by apply addColumn_within.
  - by apply renameColumn_within.
  - by apply moveColumn_within.
  - by apply deleteRow_within.
  - by apply deleteRows_within.
  - by apply saveComment_within.
  - by apply nativeUpdater_within.
Qed.

(** C2, amended.  In every table the handlers can produce through column
    deletion, row generation in both modes, the edit and bulk edit dialogs,
    CSV import, the other column and row mutations, and the import of
    native-shape JSON whose rows name columns of the file or of the table
    only, the keys of the values of every row are ids of columns of the
    table, and each of these mutations keeps it so; deleting a column removes the column and, in the same mutation, its
    key from every row. *)
Theorem reachableTable_valuesWithinColumns (toLowerCase : jsstring → jsstring)
    (t : ProjectTable) :
  reachableTable toLowerCase t →
  valuesWithinColumns t ∧
  (∀ t', mutation toLowerCase t t' → valuesWithinColumns t') ∧
  (∀ colId,
     (colId ∉ c_id <$> t_columns (deleteColumn colId t)) ∧
     (∀ r, r ∈ t_rows (deleteColumn colId t) → r_values r !! colId = None)).
Proof.
  intros Hreach.
  assert (Hinv : valuesWithinColumns t).
  { induction Hreach as [t Hrows|t t' _ IH Hstep].
    - intros r k Hr. rewrite Hrows in Hr. by apply elem_of_nil in Hr.
    - by eapply mutation_within. }
  split; [done|]. split.
  - intros t' Hstep. by eapply mutation_within.
  - intros colId. split; [apply deleteColumn_not_column|].
    intros r. apply deleteColumn_removes.
Qed.

Lemma reachableTable_valuesWithinColumns_witness :
  let t0 := sampleTable "t" classic [("a", "A"); ("b", "B")] [] None in
  let t1 := prependRows (classicRows t0 {[ js "a" := js "1/2"; js "b" := js "x" ]} 7) t0 in
  valuesWithinColumns t1 ∧
  valuesWithinColumns (deleteColumn (js "b") t1) ∧
  ∀ r, r ∈ t_rows (deleteColumn (js "b") t1) → r_values r !! js "b" = None.
Proof.
  intros t0 t1.
  assert (Hreach : reachableTable asciiLower t1).
  { apply (reachable_step _ t0); [apply reachable_created; reflexivity|].
    apply mutation_classic. }
  destruct (reachableTable_valuesWithinColumns asciiLower t1 Hreach)
    as (Hinv & Hstep & Hdel).
  split; [exact Hinv|]. split.
  - apply Hstep. apply mutation_deleteColumn.
  - apply (Hdel (js "b")).
Defined.

(** C2 as stated fails for JSON import.  A native-shape import copies the
    keys of the imported rows as they are, also a key that is no column of
    the file or of the table; a generic-shape import stores the cells of a
    key whose label matches an existing column under a fresh column id that
    it does not add to the table. *)
Lemma importJSON_breaks_valuesWithinColumns :
  let t := sampleTable "t" classic [("c1", "Name")] [] None in
  let st := sampleState [t] "t" [] in
  let native :=
    JObj [(js "columns", JArr [JObj [(js "id", JStr (js "a")); (js "label", JStr (js "A"))]]);
          (js "rows", JArr [JObj [(js "values", JObj [(js "zzz", JStr (js "1"))])]])] in
  let generic := JArr [JObj [(js "name", JStr (js "Alice"))]] in
  reachableTable asciiLower t ∧
  (∃ t', activeTable (importJSON asciiLower (Some native) 7 st) = Some t' ∧
         ¬ valuesWithinColumns t') ∧
  (∃ t', activeTable (importJSON asciiLower (Some generic) 7 st) = Some t' ∧
         ¬ valuesWithinColumns t').
Proof.
  intros t st native generic. split; [apply reachable_created; reflexivity|]. split.
  - eexists. split; [vm_compute; reflexivity|]. intros Hinv.
    specialize (Hinv {| r_id := rowId 7 0; r_values := {[ js "zzz" := js "1" ]};
                        r_updatedAt := 7; r_comment := None |} (js "zzz")).
    assert (Hin : js "zzz" ∈ [js "c1"; js "a"]).
    { apply Hinv; [vm_compute; left|by eexists]. }
    by repeat (apply elem_of_cons in Hin as [Hin|Hin]; [by vm_compute in Hin|]);
      apply elem_of_nil in Hin.
  - eexists. split; [vm_compute; reflexivity|]. intros Hinv.
    specialize (Hinv {| r_id := rowId 7 0;
                        r_values := {[ freshColId 7 0 := js "Alice" ]};
                        r_updatedAt := 7; r_comment := None |} (freshColId 7 0)).
    assert (Hin : freshColId 7 0 ∈ [js "c1"]).
    { apply Hinv; [vm_compute; left|by eexists]. }
    by repeat (apply elem_of_cons in Hin as [Hin|Hin]; [by vm_compute in Hin|]);
      apply elem_of_nil in Hin.
Qed.

(** ** Generic-shape JSON import *)

(** C1, at the failing input.  Importing the one object with the key [name]
    into a table whose only column [c1] is labelled [Name] adds no column
    and appends one row after the existing one, but the value of the key is
    stored under the fresh id [col_7_0], which is no column of the table:
    the cell of the row in the existing column is absent.  The pasted text
    and the file go through the same code. *)
Theorem importJSON_generic_label_match :
  let t := sampleTable "t" classic [("c1", "Name")]
             [sampleRow "r0" [("c1", "Bob")]] None in
  let st := sampleState [t] "t" [] in
  let parsed := JArr [JObj [(js "name", JStr (js "Alice"))]] in
  handleImportJSON asciiLower (Some parsed) 7 st
  = handlePasteJSON asciiLower (Some parsed) 7 st ∧
  ∃ t' row,
    activeTable (handlePasteJSON asciiLower (Some parsed) 7 st) = Some t' ∧
    t_columns t' = t_columns t ∧
    t_rows t' = t_rows t ++ [row] ∧
    r_values row !! js "c1" = None ∧
    r_values row !! js "col_7_0" = Some (js "Alice") ∧
    js "col_7_0" ∉ c_id <$> t_columns t'.
Proof.
  intros t st parsed. split; [done|].
  eexists _, _. split; [vm_compute; reflexivity|].
  split; [done|]. split; [done|]. split; [by vm_compute|]. split; [by vm_compute|].
  intros Hin. by repeat (apply elem_of_cons in Hin as [Hin|Hin]; [by vm_compute in Hin|]);
    apply elem_of_nil in Hin.
Qed.


(** * Further properties *)

(** ** CSV decoding *)

Section CsvDecoding.
Import Csv.

Lemma split_cons_inv sep s : ∃ p ps, split sep s = p :: ps.
Proof.
  induction s as [|c s (p & ps & IH)]; simpl; [by eexists _, _|].
  destruct (c =? sep)%N; [by eexists _, _|]. rewrite IH. by eexists _, _.
Qed.

(** The rows a scanner holds once the text has ended, on the lines of the
    text that is left: the first line continues the cell and the row at
    hand. *)
Lemma scan_unquoted text : ∀ st,
  QUOTE ∉ text → CR ∉ text → inQuotes st = false →
  ∃ c0 cs0 rs,
    (split COMMA <$> split LF text) = (c0 :: cs0) :: rs ∧
    rows (endRow (scan text st))
    = rows st ++ (row st ++ (cell st ++ c0) :: cs0) :: rs.
Proof.
  induction text as [|ch text IH]; intros st Hq Hr Hin.
  - exists [], [], []. split; [done|]. simpl. by rewrite app_nil_r.
  - apply not_elem_of_cons in Hq as [Hq1 Hq], Hr as [Hr1 Hr].
    assert (HQ : (ch =? QUOTE)%N = false) by (apply N.eqb_neq; congruence).
    assert (HR : (ch =? CR)%N = false) by (apply N.eqb_neq; congruence).
    simpl scan. rewrite HQ, Hin, HR. simpl negb. rewrite !andb_true_r.
    destruct (ch =? COMMA)%N eqn:Hc.
    + apply N.eqb_eq in Hc. subst ch.
      destruct (IH (endCell st) Hq Hr Hin) as (c0 & cs0 & rs & Hs & Hrows).
      cbn [split]. change (COMMA =? LF)%N with false. cbn iota.
      destruct (split LF text) as [|p ps] eqn:Hsp; [done|].
      rewrite fmap_cons in Hs. injection Hs as Hs1 Hs2.
      exists [], (c0 :: cs0), rs. split.
      * rewrite fmap_cons. cbn [split]. rewrite N.eqb_refl, Hs1, Hs2. done.
      * rewrite Hrows. simpl. rewrite app_nil_r, <- (app_assoc (row st)). done.
    + destruct (ch =? LF)%N eqn:Hl.
      * apply N.eqb_eq in Hl. subst ch.
        destruct (IH (endRow st) Hq Hr Hin) as (c0 & cs0 & rs & Hs & Hrows).
        exists [], [], ((c0 :: cs0) :: rs). split.
        -- cbn [split]. rewrite N.eqb_refl, fmap_cons, Hs. done.
        -- rewrite Hrows. simpl. rewrite app_nil_r, <- app_assoc. done.
      * assert (Hin' : inQuotes (addChar ch st) = false) by done.
        destruct (IH (addChar ch st) Hq Hr Hin') as (c0 & cs0 & rs & Hs & Hrows).
        cbn [split]. rewrite Hl.
        destruct (split LF text) as [|p ps] eqn:Hsp; [done|].
        rewrite fmap_cons in Hs. injection Hs as Hs1 Hs2.
        exists (ch :: c0), cs0, rs. split.
        -- rewrite fmap_cons. cbn [split]. rewrite Hc, Hs1, Hs2. done.
        -- rewrite Hrows. simpl. rewrite <- (app_assoc (cell st)). done.
Qed.

End CsvDecoding.

(** X1. A text that holds no quote and no carriage return is read line by
    line, each line split on the commas; the lines whose cells are all
    blank are left out. *)
Theorem parseCSV_unquoted (text : jsstring) :
  QUOTE ∉ text → CR ∉ text →
  Csv.parseCSV text
  = List.filter Csv.someNonBlank (split COMMA <$> split LF text).
Proof.
  intros Hq Hr.
  destruct (scan_unquoted text Csv.start Hq Hr eq_refl) as (c0 & cs0 & rs & Hs & Hrows).
  unfold Csv.parseCSV. rewrite Hrows, Hs. done.
Qed.

Lemma parseCSV_unquoted_witness :
  let text := js "a,b" ++ [LF; LF] ++ js " ,c" in
  Csv.parseCSV text = [[js "a"; js "b"]; [js " "; js "c"]].
Proof.
  intros text.
  assert (Hq : QUOTE ∉ text) by (apply (bool_decide_unpack _); by vm_compute).
  assert (Hr : CR ∉ text) by (apply (bool_decide_unpack _); by vm_compute).
  rewrite (parseCSV_unquoted text Hq Hr). by vm_compute.
Defined.

Section CsvLineEndings.
Import Csv.

(** A carriage return is skipped, in quotes or not. *)
Lemma scan_carriage_return rest st :
  scan (CR :: rest) st = scan rest st.
Proof. simpl. by destruct (inQuotes st). Qed.

Lemma scan_crlf_grid g : ∀ st,
  inQuotes st = false → row st = [] → cell st = [] →
  Forall (fun r => r ≠ []) g →
  Forall (Forall (Forall (fun x => x ≠ CR))) g →
  scan (concat ((fun r => encodeRow r ++ [CR; LF]) <$> g)) st
  = Scanner (rows st ++ g) [] [] false.
Proof.
  induction g as [|r g IH]; intros st Hin Hrow Hcell Hne Hcr.
  - simpl. rewrite app_nil_r. destruct st; simpl in *; by subst.
  - apply Forall_cons in Hne as [Hr Hne], Hcr as [Hcr1 Hcr].
    destruct r as [|c cs]; [done|].
    rewrite fmap_cons, concat_cons, <- app_assoc.
    destruct (scan_encodeRow cs c ([CR; LF] ++ concat ((fun r => encodeRow r ++ [CR; LF]) <$> g))
                st Hin Hcr1) as (st' & Hscan & Hin' & Hend); [done|].
    rewrite Hscan. change ([CR; LF] ++ ?l) with (CR :: [LF] ++ l).
    rewrite scan_carriage_return, scan_line_feed by done.
    rewrite IH; rewrite ?Hend; try done.
    simpl. rewrite Hrow, Hcell. simpl. by rewrite <- app_assoc.
Qed.

End CsvLineEndings.

(** X2. A file whose lines end in a carriage return and a line feed, the
    last line too, is read back as the grid it encodes, under the
    conditions of the round trip: no row has only blank cells and no cell
    holds a carriage return. *)
Theorem parseCSV_crlf (g : list (list jsstring)) :
  Forall (fun r => ¬ Forall (fun c => trim c = []) r) g →
  Forall (Forall (fun c => CR ∉ c)) g →
  Csv.parseCSV (concat ((fun r => Csv.encodeRow r ++ [CR; LF]) <$> g)) = g.
Proof.
  intros Hblank Hcr. unfold Csv.parseCSV.
  rewrite scan_crlf_grid; try done.
  - simpl. rewrite List.filter_app. simpl. rewrite app_nil_r.
    induction Hblank as [|r g Hr _ IH]; [done|].
    apply Forall_cons in Hcr as [_ Hcr].
    simpl. rewrite (someNonBlank_true r Hr). f_equal. by apply IH.
  - eapply Forall_impl; [exact Hblank|]. intros r Hr ->. apply Hr. constructor.
  - eapply Forall_impl; [exact Hcr|]. intros r Hr.
    eapply Forall_impl; [exact Hr|]. intros c Hc. apply Forall_forall.
    intros x Hx ->. done.
Qed.

Lemma parseCSV_crlf_witness :
  Csv.parseCSV (js "a,b" ++ [CR; LF] ++ [QUOTE] ++ js "c,d" ++ [QUOTE] ++ js "," ++ [CR; LF])
  = [[js "a"; js "b"]; [js "c,d"; js ""]].
Proof.
  apply (parseCSV_crlf [[js "a"; js "b"]; [js "c,d"; js ""]]).
  - repeat constructor; intros H; apply Forall_cons in H as [H _]; by vm_compute in H.
  - repeat constructor; apply (bool_decide_unpack _); by vm_compute.
Defined.

Section CsvByteOrderMark.
Import Csv.

Lemma prefixFirstCell_inQuotes p st : inQuotes (prefixFirstCell p st) = inQuotes st.
Proof.
  destruct st as [rs r c q]. unfold prefixFirstCell. simpl.
  destruct rs as [|[|c0 cs] rs]; [|done|done].
  by destruct r.
Qed.

Lemma prefixFirstCell_addChar p ch st :
  addChar ch (prefixFirstCell p st) = prefixFirstCell p (addChar ch st).
Proof.
  destruct st as [rs r c q]. unfold prefixFirstCell, addChar. simpl.
  destruct rs as [|[|c0 cs] rs]; [|done|done].
  destruct r; simpl; [|done]. by rewrite app_assoc.
Qed.

Lemma prefixFirstCell_toggle p st :
  toggle (prefixFirstCell p st) = prefixFirstCell p (toggle st).
Proof.
  destruct st as [rs r c q]. unfold prefixFirstCell, toggle. simpl.
  destruct rs as [|[|c0 cs] rs]; [|done|done].
  by destruct r.
Qed.

Lemma prefixFirstCell_endCell p st :
  endCell (prefixFirstCell p st) = prefixFirstCell p (endCell st).
Proof.
  destruct st as [rs r c q]. unfold prefixFirstCell, endCell. simpl.
  destruct rs as [|[|c0 cs] rs]; [|done|done].
  by destruct r.
Qed.

Lemma prefixFirstCell_endRow p st :
  Forall (fun r => r ≠ []) (rows st) →
  endRow (prefixFirstCell p st) = prefixFirstCell p (endRow st)
  ∧ Forall (fun r => r ≠ []) (rows (endRow st)).
Proof.
  destruct st as [rs r c q]. simpl. intros Hne. split.
  - unfold prefixFirstCell, endRow. simpl.
    destruct rs as [|[|c0 cs] rs]; simpl.
    + by destruct r.
    + by apply Forall_cons in Hne as [? _].
    + done.
  - apply Forall_app. split; [done|]. constructor; [|done].
    by destruct r.
Qed.

Lemma scan_prefixFirstCell p n : ∀ text st,
  (length text ≤ n)%nat →
  Forall (fun r => r ≠ []) (rows st) →
  scan text (prefixFirstCell p st) = prefixFirstCell p (scan text st)
  ∧ Forall (fun r => r ≠ []) (rows (scan text st)).
Proof.
  induction n as [|n IH]; intros text st Hlen Hne.
  { destruct text; [done|simpl in Hlen; lia]. }
  destruct text as [|ch rest]; [done|]. simpl in Hlen.
  cbn [scan]. rewrite prefixFirstCell_inQuotes.
  destruct (ch =? QUOTE)%N.
  - destruct rest as [|next rest'].
    + split; [apply prefixFirstCell_toggle|done].
    + destruct (inQuotes st && (next =? QUOTE)%N).
      * rewrite prefixFirstCell_addChar. apply IH; [simpl in Hlen; lia|done].
      * rewrite prefixFirstCell_toggle. apply IH; [lia|done].
  - destruct ((ch =? COMMA)%N && negb (inQuotes st)).
    { rewrite prefixFirstCell_endCell. apply IH; [lia|]. simpl. done. }
    destruct ((ch =? LF)%N && negb (inQuotes st)).
    { destruct (prefixFirstCell_endRow p st Hne) as [-> Hne']. apply IH; [lia|done]. }
    destruct (ch =? CR)%N; [apply IH; [lia|done]|].
    rewrite prefixFirstCell_addChar. apply IH; [lia|done].
Qed.

Lemma trim_BOM c : trim (BOM :: c) = trim c.
Proof. done. Qed.

(** The grid of a text that starts with a byte order mark: the mark is put
    before the first cell of the grid of the rest. *)
Lemma parseCSV_BOM text :
  ∃ c0 cs0 rs,
    rows (endRow (scan text start)) = (c0 :: cs0) :: rs ∧
    rows (endRow (scan (BOM :: text) start)) = ((BOM :: c0) :: cs0) :: rs.
Proof.
  change (scan (BOM :: text) start) with (scan text (prefixFirstCell [BOM] start)).
  destruct (scan_prefixFirstCell [BOM] (length text) text start) as [-> Hne];
    [done|constructor|].
  destruct (prefixFirstCell_endRow [BOM] (scan text start) Hne) as [-> _].
  simpl. unfold prefixFirstCell. simpl.
  destruct (rows (scan text start)) as [|[|c cs] rs] eqn:Hrows.
  - simpl. destruct (row (scan text start)); simpl; by eexists _, _, _.
  - by apply Forall_cons in Hne as [? _].
  - simpl. by eexists _, _, _.
Qed.

End CsvByteOrderMark.

(** X3. A byte order mark at the start of a CSV file changes nothing: the
    import does with the file what it does with the rest of the file. *)
Theorem handleImportCSV_BOM (toLowerCase : jsstring → jsstring)
    (text : jsstring) (now : Z) (st : State) :
  handleImportCSV toLowerCase (BOM :: text) now st
  = handleImportCSV toLowerCase text now st.
Proof.
  unfold handleImportCSV. destruct (activeTable st) as [t|]; [|done].
  unfold Csv.parseCSV.
  destruct (parseCSV_BOM text) as (c0 & cs0 & rs & -> & ->).
  cbn [List.filter].
  change (Csv.someNonBlank ((BOM :: c0) :: cs0)) with (Csv.someNonBlank (c0 :: cs0)).
  destruct (Csv.someNonBlank (c0 :: cs0)); [|done].
  reflexivity.
Qed.

(** ** CSV import *)

Section CsvComplete.
Variable toLowerCase : jsstring → jsstring.
Implicit Types (t : ProjectTable) (r : DynamicRow) (k : jsstring).




End CsvComplete.



(** ** Export and import *)

Section Trim.










End Trim.

Section ExportImport.
Import Csv.
Variable toLowerCase : jsstring → jsstring.
Implicit Types (t : ProjectTable) (r : DynamicRow) (k : jsstring).








End ExportImport.



(** ** Identifiers *)

Section Numerals.

(** The first character of a numeral that is written out. *)
Ltac first_digit :=
  match goal with
  | |- context [js (String ?c ?s)] =>
    change (js (String c s)) with (N_of_ascii c :: js s);
    cbn [leadingDigits];
    let v := eval vm_compute in (digitValue (N_of_ascii c)) in
    change (digitValue (N_of_ascii c)) with v; cbn iota
  end.

(** The digits of a decimal numeral of the Standard Library, read as
    [parseInt] reads them. *)
Lemma leadingDigits_numeral (d : Decimal.uint) :
  (∀ acc : positive,
     fold_left (fun acc x => 10 * acc + x)
               (leadingDigits (js (NilEmpty.string_of_uint d))) (Z.pos acc)
     = Z.pos (Pos.of_uint_acc d acc)) ∧
  fold_left (fun acc x => 10 * acc + x)
            (leadingDigits (js (NilEmpty.string_of_uint d))) 0
  = Z.of_N (Pos.of_uint d).
Proof.
  induction d as [|d [IH1 IH2]|d [IH1 IH2]|d [IH1 IH2]|d [IH1 IH2]|d [IH1 IH2]
                  |d [IH1 IH2]|d [IH1 IH2]|d [IH1 IH2]|d [IH1 IH2]|d [IH1 IH2]];
    (split; [intros acc|]); try done;
    cbn [NilEmpty.string_of_uint Pos.of_uint Pos.of_uint_acc];
    first_digit; cbn [fold_left];
    first [ rewrite <- IH1; f_equal; lia
          | rewrite <- IH2; f_equal; lia
          | simpl Z.of_N; rewrite <- IH1; f_equal; lia ].
Qed.

Lemma leadingDigits_numeral_nonempty (d : Decimal.uint) :
  d ≠ Decimal.Nil →
  ∃ c r x ds, js (NilEmpty.string_of_uint d) = c :: r
            ∧ isWhiteSpace c = false ∧ (c =? 45)%N = false ∧ (c =? 43)%N = false
            ∧ leadingDigits (c :: r) = x :: ds.
Proof.
  destruct d; [done|..]; intros _; cbn [NilEmpty.string_of_uint];
    match goal with
    | |- context [js (String ?c ?s)] =>
      change (js (String c s)) with (N_of_ascii c :: js s);
      exists (N_of_ascii c), (js s)
    end; cbn [leadingDigits];
    match goal with
    | |- context [digitValue ?c] =>
      let v := eval vm_compute in (digitValue c) in
      change (digitValue c) with v; cbn iota
    end; by eexists _, _.
Qed.

(** A number written by [String] is read back by [parseInt]. *)
Lemma parseInt_numToString (n : Z) : parseInt (numToString n) = Some n.
Proof.
  unfold numToString. destruct n as [|p|p]; [done|..]; cbn [Z.to_int NilZero.string_of_int].
  - pose proof (DecimalPos.Unsigned.to_uint_nonnil p) as Hnil.
    assert (Hs : NilZero.string_of_uint (Pos.to_uint p)
                 = NilEmpty.string_of_uint (Pos.to_uint p))
      by (by destruct (Pos.to_uint p)).
    rewrite Hs.
    destruct (leadingDigits_numeral_nonempty _ Hnil)
      as (c & r & x & ds & Hjs & Hws & Hminus & Hplus & Hdigits).
    pose proof (proj2 (leadingDigits_numeral (Pos.to_uint p))) as Hval.
    rewrite Hjs in Hval |- *. unfold parseInt. cbn [trimStart]. rewrite Hws, Hminus, Hplus.
    rewrite Hdigits in Hval |- *. rewrite Hval, DecimalPos.Unsigned.of_to. done.
  - pose proof (DecimalPos.Unsigned.to_uint_nonnil p) as Hnil.
    assert (Hs : NilZero.string_of_uint (Pos.to_uint p)
                 = NilEmpty.string_of_uint (Pos.to_uint p))
      by (by destruct (Pos.to_uint p)).
    rewrite Hs.
    destruct (leadingDigits_numeral_nonempty _ Hnil)
      as (c & r & x & ds & Hjs & Hws & Hminus & Hplus & Hdigits).
    pose proof (proj2 (leadingDigits_numeral (Pos.to_uint p))) as Hval.
    change (js (String "-" ?s)) with (45%N :: js s).
    rewrite Hjs in Hval |- *. unfold parseInt. cbn [trimStart].
    change (isWhiteSpace 45) with false. cbn iota.
    change (45 =? 45)%N with true. cbn iota.
    rewrite Hdigits in Hval |- *. rewrite Hval, DecimalPos.Unsigned.of_to. done.
Qed.

Lemma numToString_inj (n m : Z) : numToString n = numToString m → n = m.
Proof.
  intros H. apply (f_equal parseInt) in H. rewrite !parseInt_numToString in H.
  congruence.
Qed.

End Numerals.

Section IdentifierBlocks.
Implicit Types (t : ProjectTable) (r : DynamicRow) (k : jsstring).

Lemma activeTable_handleAddRow_table st t now :
  activeTable st = Some t → isNewRowDataValid st = true →
  activeTable (handleAddRow now st)
  = Some (withTableUpdatedAt now
            (prependRows (match t_type t with
                          | classic => classicRows t (newRowValues st) now
                          | pairwise => pairwiseRows t (newRowValues st) now
                          end) t)).
Proof.
  intros Ht Hvalid. unfold handleAddRow. rewrite Ht, Hvalid. simpl.
  change (activeTable (setRowsPage 1 (setNewRowValues ∅ ?s)))
    with (activeTable s).
  rewrite activeTable_updateActiveTable by done. by rewrite Ht.
Qed.

(** The identifiers of a block of rows that were numbered from [s] on. *)
Lemma parsedIds_block idc (l : list DynamicRow) : ∀ s,
  (∀ i row, l !! i = Some row →
            r_values row !! idc = Some (numToString (s + Z.of_nat i))) →
  parsedIds idc l = (fun i => s + Z.of_nat i) <$> seq 0 (length l).
Proof.
  induction l as [|r l IH]; intros s Hl; [done|].
  unfold parsedIds. cbn [omap list_omap length seq fmap list_fmap].
  rewrite (Hl 0%nat r eq_refl). simpl default.
  rewrite parseInt_numToString. f_equal.
  change (omap ?f l) with (parsedIds idc l). rewrite (IH (s + 1)).
  - rewrite <- fmap_S_seq, <- list_fmap_compose. apply list_fmap_ext.
    intros i x _. simpl. lia.
  - intros i row Hi. rewrite (Hl (S i) row Hi). do 2 f_equal. lia.
Qed.

Lemma foldr_max_block (m : Z) (n : nat) :
  foldr Z.max m ((fun i => 1 + m + Z.of_nat i) <$> seq 0 n) = m + Z.of_nat n.
Proof.
  induction n as [|n IH]; [simpl; lia|].
  rewrite seq_S, fmap_app, foldr_app. simpl.
  rewrite foldr_max_acc, IH. lia.
Qed.

Lemma hasIdColumn_idColumnId t :
  hasIdColumn t = true → ∃ idc, idColumnId t = Some idc.
Proof. unfold hasIdColumn. destruct (idColumnId t); [by eexists|done]. Qed.

End IdentifierBlocks.

(** X8. On a table with an identifier column, a generation of [k] rows
    moves the start of the next block of identifiers forward by [k], so
    that the identifiers of successive generations do not meet, as long as
    the block ends within [Number.MAX_SAFE_INTEGER], where the numbers of
    the code are the integers.  (The id of the identifier column is not
    [__proto__], under which an object literal stores no string.) *)
Theorem nextIdStart_advances (st : State) (t t' : ProjectTable) (now : Z) :
  activeTable st = Some t → isNewRowDataValid st = true → hasIdColumn t = true →
  idColumnId t ≠ Some PROTO →
  activeTable (handleAddRow now st) = Some t' →
  nextIdStart t + Z.of_nat (length (t_rows t') - length (t_rows t))
  ≤ MAX_SAFE_INTEGER →
  ∃ newRows,
    t_rows t' = newRows ++ t_rows t ∧
    hasIdColumn t' = true ∧
    nextIdStart t' = nextIdStart t + Z.of_nat (length newRows).
Proof.
  intros Ht Hvalid Hhas _.
  rewrite (activeTable_handleAddRow_table st t now Ht Hvalid).
  intros [= <-] _.
  destruct (hasIdColumn_idColumnId t Hhas) as [idc Hid].
  set (newRows := match t_type t with
                  | classic => classicRows t (newRowValues st) now
                  | pairwise => pairwiseRows t (newRowValues st) now
                  end).
  exists newRows. split; [done|]. split; [exact Hhas|].
  assert (Hblock : ∀ i row, newRows !! i = Some row →
            r_values row !! idc = Some (numToString (nextIdStart t + Z.of_nat i))).
  { intros i row. subst newRows. destruct (t_type t).
    - by apply classicRows_lookup_id.
    - by apply pairwiseRows_lookup_id. }
  rewrite (nextIdStart_hasIdColumn _ idc) by done.
  simpl t_rows. unfold parsedIds. rewrite omap_app. fold (parsedIds idc newRows).
  fold (parsedIds idc (t_rows t)).
  rewrite foldr_app, (parsedIds_block idc newRows _ Hblock).
  rewrite (nextIdStart_hasIdColumn t idc Hid Hhas).
  rewrite foldr_max_block. lia.
Qed.

Lemma nextIdStart_advances_witness :
  let t := sampleTable "t" classic [("id", "ID"); ("a", "A")]
             [sampleRow "r1" [("id", "7")]] (Some "id") in
  let st := sampleState [t] "t" [("a", "x/y/z")] in
  ∃ t', activeTable (handleAddRow 9 st) = Some t' ∧
        nextIdStart t = 8 ∧ nextIdStart t' = 11.
Proof.
  intros t st.
  destruct (activeTable (handleAddRow 9 st)) as [t'|] eqn:Hactive;
    [|by vm_compute in Hactive].
  exists t'. split; [done|]. split; [by vm_compute|].
  destruct (nextIdStart_advances st t t' 9) as (newRows & Hrows & _ & Hnext);
    [by vm_compute|by vm_compute|by vm_compute|by vm_compute|exact Hactive
    |vm_compute in Hactive; injection Hactive as <-; by vm_compute|].
  rewrite Hnext. vm_compute in Hactive. injection Hactive as <-.
  apply (f_equal length) in Hrows. rewrite length_app in Hrows.
  simpl in Hrows. assert (length newRows = 3%nat) as -> by lia. by vm_compute.
Defined.

(** ** The limit of a segment *)

Section SegmentLimit.
Implicit Types (t : ProjectTable) (r : DynamicRow) (k : jsstring)
  (inputs : gmap (list N) (list N)).

Lemma filter_nil_false {A} (P : A → bool) (l : list A) x :
  List.filter P l = [] → x ∈ l → P x = false.
Proof.
  intros Hnil Hx%list_elem_of_In. destruct (P x) eqn:HP; [|done].
  assert (Hin : In x (List.filter P l)) by (by apply filter_In).
  by rewrite Hnil in Hin.
Qed.

(** A valid input has no segment longer than the limit after trimming. *)
Lemma validateSegments_segment val s :
  isValid (validateSegments val) = true → s ∈ split SLASH val →
  (length (trim s) ≤ SEGMENT_CHAR_LIMIT)%nat.
Proof.
  unfold validateSegments. destruct val as [|c val].
  { intros _ Hs. apply list_elem_of_singleton in Hs. subst s. simpl. lia. }
  cbn [isValid]. intros Hvalid%Nat.eqb_eq%length_zero_iff_nil Hs.
  pose proof (filter_nil_false _ _ s Hvalid Hs) as Hle.
  apply Nat.ltb_ge in Hle. exact Hle.
Qed.

Lemma input_segment st col s :
  isNewRowDataValid st = true →
  s ∈ split SLASH (inputOf (newRowValues st) col) →
  (length (trim s) ≤ SEGMENT_CHAR_LIMIT)%nat.
Proof.
  intros Hvalid%bool_decide_eq_true. unfold inputOf.
  destruct (newRowValues st !! c_id col) as [val|] eqn:Hval; simpl.
  - apply validateSegments_segment. exact (Hvalid _ _ Hval).
  - intros Hs. apply list_elem_of_singleton in Hs. subst s. simpl. lia.
Qed.

(** Where the cell of a generated row comes from: the identifier, the
    empty string, or a trimmed segment of the input of a column. *)
Lemma classicRows_cell t inputs now row k v :
  row ∈ classicRows t inputs now → r_values row !! k = Some v →
  (hasIdColumn t = true ∧ idColumnId t = Some k) ∨ v = []
  ∨ ∃ col s, s ∈ split SLASH (inputOf inputs col) ∧ v = trim s.
Proof.
  unfold classicRows. rewrite classicScan_spec.
  intros (i & -> & _)%list_elem_of_fmap. simpl. rewrite assignId_lookup.
  destruct (hasIdColumn t && bool_decide (idColumnId t = Some k)) eqn:Hid.
  { apply andb_true_iff in Hid as [? ?%bool_decide_eq_true]. by left. }
  intros Hv. right. unfold classicRowValues in Hv.
  apply (fold_left_insert_Some c_id
           (fun col => default [] (default [] (_ !! c_id col) !! i))) in Hv
    as [(col & Hcol & ->)|Hv]; [|by rewrite lookup_empty in Hv].
  destruct (fold_left _ (t_columns t) ∅ !! c_id col) as [parts|] eqn:Hparts;
    [|left; simpl; by destruct i].
  apply (fold_left_insert_Some c_id (classicParts inputs)) in Hparts
    as [(col' & Hcol' & ->)|Hparts]; [|by rewrite lookup_empty in Hparts].
  simpl. destruct (classicParts inputs col' !! i) as [x|] eqn:Hx; [|by left].
  right. apply list_elem_of_lookup_2 in Hx. unfold classicParts in Hx.
  apply list_elem_of_fmap in Hx as (s & -> & Hs). by exists col', s.
Qed.

Lemma cartesian_lookup {A} (ls : list (list A)) : ∀ c j v,
  c ∈ cartesian ls → c !! j = Some v → ∃ l, ls !! j = Some l ∧ v ∈ l.
Proof.
  induction ls as [|l ls IH]; intros c j v Hc Hj.
  { apply list_elem_of_singleton in Hc. by subst c. }
  simpl in Hc. apply list_elem_of_In, in_flat_map in Hc as (x & Hx & Hc).
  apply list_elem_of_In, list_elem_of_fmap in Hc as (c' & -> & Hc').
  destruct j as [|j]; simpl in Hj.
  - injection Hj as <-. exists l. split; [done|]. by apply list_elem_of_In.
  - by apply (IH c' j v).
Qed.

Lemma pairwiseRows_cell t inputs now row k v :
  row ∈ pairwiseRows t inputs now → r_values row !! k = Some v →
  (hasIdColumn t = true ∧ idColumnId t = Some k) ∨ v = []
  ∨ ∃ col s, s ∈ split SLASH (inputOf inputs col) ∧ v = trim s.
Proof.
  intros Hrow Hv.
  apply (list_elem_of_fmap_2 r_values) in Hrow. rewrite pairwiseRows_values in Hrow.
  apply elem_of_lookup_imap in Hrow as (i & choice & Hvalues & Hchoice).
  rewrite Hvalues, assignId_lookup in Hv.
  destruct (hasIdColumn t && bool_decide (idColumnId t = Some k)) eqn:Hid.
  { apply andb_true_iff in Hid as [? ?%bool_decide_eq_true]. by left. }
  right.
  apply elem_of_list_to_map_2, list_elem_of_lookup in Hv as [j Hj].
  apply lookup_zip_Some in Hj as [Hkey Hval].
  assert (Hin : choice ∈ cartesian
                  (optionLists (fst (pairwiseOptions inputs (t_columns t)))
                               (snd (pairwiseOptions inputs (t_columns t))))).
  { eapply subseteq_take. by eapply list_elem_of_lookup_2. }
  destruct (cartesian_lookup _ _ j v Hin Hval) as (l & Hl & Hvl).
  unfold optionLists in Hl. rewrite list_lookup_fmap, Hkey in Hl. simpl in Hl.
  injection Hl as <-.
  destruct (fst (pairwiseOptions inputs (t_columns t)) !! k) as [parts|] eqn:Hparts;
    [|by apply elem_of_nil in Hvl].
  rewrite pairwiseOptions_spec in Hparts. simpl in Hparts, Hvl.
  apply (fold_left_insert_Some c_id (pairwiseParts inputs)) in Hparts
    as [(col' & Hcol' & ->)|Hparts]; [|by rewrite lookup_empty in Hparts].
  unfold pairwiseParts in Hvl.
  destruct (0 <? length _)%nat.
  - right. apply list_elem_of_In, filter_In in Hvl as [Hvl _].
    apply list_elem_of_In, list_elem_of_fmap in Hvl as (s & -> & Hs).
    by exists col', s.
  - left. by apply list_elem_of_singleton in Hvl.
Qed.

End SegmentLimit.

(** X7. Every cell of a row that a generation adds, in either mode, has at
    most 50 code units, the cell of the identifier column apart: the cells
    are trimmed segments of inputs that passed [validateSegments]. *)
Theorem handleAddRow_cells_within_limit (st : State) (t t' : ProjectTable) (now : Z) :
  activeTable st = Some t →
  activeTable (handleAddRow now st) = Some t' →
  ∃ newRows,
    t_rows t' = newRows ++ t_rows t ∧
    ∀ row k v, row ∈ newRows → r_values row !! k = Some v →
      (hasIdColumn t = true ∧ idColumnId t = Some k)
      ∨ (length v ≤ SEGMENT_CHAR_LIMIT)%nat.
Proof.
  intros Ht. destruct (isNewRowDataValid st) eqn:Hvalid.
  - rewrite (activeTable_handleAddRow_table st t now Ht Hvalid). intros [= <-].
    eexists. split; [reflexivity|]. intros row k v Hrow Hv.
    assert (Hcell : (hasIdColumn t = true ∧ idColumnId t = Some k) ∨ v = []
                    ∨ ∃ col s, s ∈ split SLASH (inputOf (newRowValues st) col)
                               ∧ v = trim s).
    { destruct (t_type t).
      - by eapply classicRows_cell.
      - by eapply pairwiseRows_cell. }
    destruct Hcell as [Hid|[->|(col & s & Hs & ->)]]; [by left| |].
    + right. simpl. lia.
    + right. by eapply input_segment.
  - unfold handleAddRow. rewrite Ht, Hvalid. simpl. rewrite Ht. intros [= <-].
    exists []. split; [done|]. by intros row k v ?%elem_of_nil.
Qed.

Lemma handleAddRow_cells_within_limit_witness :
  let t := sampleTable "t" pairwise [("a", "A"); ("b", "B")] [] None in
  let st := sampleState [t] "t" [("a", " x / y "); ("b", "1")] in
  ∃ t' newRows,
    activeTable (handleAddRow 7 st) = Some t' ∧
    t_rows t' = newRows ++ [] ∧ length newRows = 2%nat ∧
    ∀ row k v, row ∈ newRows → r_values row !! k = Some v → (length v ≤ 50)%nat.
Proof.
  intros t st.
  destruct (activeTable (handleAddRow 7 st)) as [t'|] eqn:Hactive;
    [|by vm_compute in Hactive].
  destruct (handleAddRow_cells_within_limit st t t' 7) as (newRows & Hrows & Hcells);
    [by vm_compute|exact Hactive|].
  exists t', newRows. split; [done|]. split; [exact Hrows|]. split.
  - vm_compute in Hactive. injection Hactive as <-.
    apply (f_equal length) in Hrows. rewrite length_app in Hrows. simpl in Hrows. lia.
  - intros row k v Hrow Hv. destruct (Hcells row k v Hrow Hv) as [[Hid _]|Hle]; [|done].
    by vm_compute in Hid.
Defined.

(** ** The rows shown *)

Section RowsShownFacts.
Variable toLowerCase : jsstring → jsstring.
Implicit Types (l : list ActiveFilter) (cid val : jsstring) (st : State).


Lemma filter_complement_length {A} (P : A → bool) (l : list A) :
  (length (List.filter P l) + length (List.filter (fun x => negb (P x)) l)
   = length l)%nat.
Proof. induction l as [|x l IH]; simpl; [done|]. destruct (P x); simpl; lia. Qed.



Lemma absent_elem_of cid val l f :
  modeOf cid val l = None → f ∈ l → sameFilter cid val f = false.
Proof.
  unfold modeOf. destruct (List.find (sameFilter cid val) l) eqn:Hfind; [done|].
  intros _. by apply find_none_elem_of.
Qed.




End RowsShownFacts.

(** X9. The count the sidebar shows beside a value is the number of rows
    shown once the value is chosen.  For a column and a value [v] neither
    of which names a member of [Object.prototype], with no filter and no
    search text, the entry of [v] in the statistics is a number, never a
    string, and a click on [v] leaves as many rows as that number (none
    when [v] has no entry); for the empty value it leaves as many as the
    statistics count empty. *)
Theorem filteredRows_count (nativeFunctionText toLowerCase : jsstring → jsstring)
    (st : State) (t : ProjectTable) (col : Column) (v : jsstring) :
  activeTable st = Some t → col ∈ t_columns t →
  activeFilters st = [] → deferredSearch st = [] →
  c_id col ∉ objectPrototypeKeys → v ∉ objectPrototypeKeys →
  ∃ s, columnValueStats nativeFunctionText st !! c_id col = Some s ∧
    (∀ text, counts s !! v ≠ Some (CountString text)) ∧
    length (filteredRows toLowerCase (toggleFilter (c_id col) v st))
    = if nonEmpty v then numberOf (default (CountNumber 0) (counts s !! v))
      else emptyCount s.
Proof.
  intros Ht Hcol Hfilters Hsearch Hid Hv.
  exists (countRows nativeFunctionText (c_id col) (t_rows t)). split.
  { unfold columnValueStats. rewrite Ht. by apply statsOfTable_lookup. }
  destruct (countRows_spec nativeFunctionText (c_id col) (t_rows t) Hid)
    as (Hcounts & Hempty & _).
  rewrite (Hcounts v Hv), Hempty. split.
  { intros text. by destruct (nonEmpty v && _). }
  unfold filteredRows, toggleFilter. simpl.
  change (activeTable (setRowsPage 1 (setActiveFilters ?l st))) with (activeTable st).
  rewrite Ht, Hfilters, Hsearch. simpl. unfold occurrences.
  rewrite (List.filter_ext _ (fun r => bool_decide (cellOf r (c_id col) = v)))
    by (intros r; unfold passes; simpl; by rewrite andb_true_r).
  destruct (nonEmpty v) eqn:Hne; simpl.
  - destruct (0 <? _)%nat eqn:Hpos; simpl; [done|].
    apply Nat.ltb_ge in Hpos. lia.
  - apply nonEmpty_false in Hne. by subst v.
Qed.

Lemma filteredRows_count_witness :
  let t := sampleTable "t" classic [("a", "A")]
             [sampleRow "r1" [("a", "x")]; sampleRow "r2" [("a", "")];
              sampleRow "r3" [("a", "y")]; sampleRow "r4" [];
              sampleRow "r5" [("a", "x")]] None in
  let st := sampleState [t] "t" [] in
  length (filteredRows asciiLower (toggleFilter (js "a") (js "x") st)) = 2%nat ∧
  length (filteredRows asciiLower (toggleFilter (js "a") (js "") st)) = 2%nat.
Proof.
  intros t st. split.
  - destruct (filteredRows_count v8FunctionText asciiLower st t
                {| c_id := js "a"; c_label := js "A" |} (js "x"))
      as (s & Hs & _ & Hlen);
      [by vm_compute|simpl; repeat constructor|done|done
      |apply (bool_decide_unpack _); by vm_compute
      |apply (bool_decide_unpack _); by vm_compute|].
    refine (eq_trans Hlen _). vm_compute in Hs. injection Hs as <-. by vm_compute.
  - destruct (filteredRows_count v8FunctionText asciiLower st t
                {| c_id := js "a"; c_label := js "A" |} (js ""))
      as (s & Hs & _ & Hlen);
      [by vm_compute|simpl; repeat constructor|done|done
      |apply (bool_decide_unpack _); by vm_compute
      |apply (bool_decide_unpack _); by vm_compute|].
    refine (eq_trans Hlen _). vm_compute in Hs. injection Hs as <-. by vm_compute.
Defined.



(** ** Pagination *)

Section Pagination.
Context {A : Type}.
Implicit Types (l : list A).

(** A slice between two indices that are not negative. *)
Lemma slice_nonneg (a b : Z) l :
  0 ≤ a → 0 ≤ b →
  slice a b l = take (Z.to_nat b - Z.to_nat a) (drop (Z.to_nat a) l).
Proof.
  intros Ha Hb. unfold slice, sliceIndex.
  destruct (Z.ltb_spec a 0) as [|_]; [lia|].
  destruct (Z.ltb_spec b 0) as [|_]; [lia|].
  destruct (Z_le_gt_dec (Z.of_nat (length l)) a) as [Hge|Hlt].
  - rewrite (drop_ge l (Z.to_nat a)) by lia.
    rewrite (drop_ge l (Z.to_nat (Z.min a _))) by lia. by rewrite !take_nil.
  - rewrite (Z.min_l a) by lia.
    destruct (Z_le_gt_dec b (Z.of_nat (length l))) as [Hb'|Hb'].
    + rewrite (Z.min_l b) by lia. f_equal. lia.
    + rewrite (Z.min_r b) by lia. rewrite !take_ge; [done|..]; rewrite length_drop; lia.
Qed.

(** Page [i + 1] of a list with [per] elements on a page. *)
Lemma slice_page (per : Z) (i : nat) l :
  0 < per →
  slice (Z.of_nat i * per) ((Z.of_nat i + 1) * per) l
  = take (Z.to_nat per) (drop (i * Z.to_nat per) l).
Proof.
  intros Hper. rewrite slice_nonneg by nia. f_equal; [nia|]. f_equal. nia.
Qed.

Lemma concat_pages (n : nat) l : ∀ m,
  concat ((fun i => take n (drop (i * n) l)) <$> seq 0 m) = take (m * n) l.
Proof.
  induction m as [|m IH]; [by rewrite take_0|].
  rewrite seq_S, fmap_app, concat_app, IH. simpl. rewrite app_nil_r.
  rewrite take_take_drop. f_equal. lia.
Qed.

Lemma ceilDiv_bounds (n per : Z) :
  0 ≤ n → 0 < per →
  0 ≤ ceilDiv n per ∧ n ≤ ceilDiv n per * per ∧ (ceilDiv n per - 1) * per < n + per
  ∧ (0 < ceilDiv n per → (ceilDiv n per - 1) * per < n).
Proof.
  intros Hn Hper. unfold ceilDiv.
  pose proof (Z.div_mod (- n) per) as Hdm.
  pose proof (Z.mod_pos_bound (- n) per Hper) as Hmod.
  nia.
Qed.

(** The pages of a list: they are as many as [ceilDiv] says, they make up
    the list, none is longer than [per] and none of them is empty; there
    is nothing on page 0 and after the last page. *)
Lemma pages_spec (per : Z) l :
  0 < per →
  let total := ceilDiv (Z.of_nat (length l)) per in
  let page := fun p => slice ((p - 1) * per) (p * per) l in
  0 ≤ total ∧
  concat ((fun i => page (Z.of_nat i + 1)) <$> seq 0 (Z.to_nat total)) = l ∧
  (∀ p, 1 ≤ p → Z.of_nat (length (page p)) ≤ per) ∧
  (∀ p, 1 ≤ p ≤ total → page p ≠ []) ∧
  (∀ p, p = 0 ∨ total < p → page p = []).
Proof.
  intros Hper total page.
  destruct (ceilDiv_bounds (Z.of_nat (length l)) per) as (H0 & Hup & _ & Hlow);
    [lia|done|]. fold total in H0, Hup, Hlow.
  assert (Hpage : ∀ i : nat, page (Z.of_nat i + 1)
                             = take (Z.to_nat per) (drop (i * Z.to_nat per) l)).
  { intros i. unfold page. rewrite <- (slice_page per i l Hper). f_equal. lia. }
  split; [done|]. split; [|split; [|split]].
  - erewrite list_fmap_ext; [|intros i x _; apply Hpage].
    rewrite (concat_pages (Z.to_nat per) l). apply take_ge.
    apply Nat2Z.inj_le. rewrite Nat2Z.inj_mul, !Z2Nat.id by lia. done.
  - intros p Hp. replace p with (Z.of_nat (Z.to_nat (p - 1)) + 1) by lia.
    rewrite Hpage, length_take. lia.
  - intros p Hp. replace p with (Z.of_nat (Z.to_nat (p - 1)) + 1) by lia.
    rewrite Hpage. intros Hnil. apply (f_equal length) in Hnil.
    rewrite length_take, length_drop in Hnil. simpl in Hnil.
    assert (Hlt : (Z.to_nat (p - 1) * Z.to_nat per < length l)%nat).
    { apply Nat2Z.inj_lt. rewrite Nat2Z.inj_mul, !Z2Nat.id by lia.
      assert ((p - 1) * per ≤ (total - 1) * per) by nia. lia. }
    lia.
  - intros p [->|Hp].
    + unfold page, slice.
      assert (Hfinal : sliceIndex (Z.of_nat (length l)) (0 * per) = 0)
        by (unfold sliceIndex; simpl; lia).
      assert (Hk : 0 ≤ sliceIndex (Z.of_nat (length l)) ((0 - 1) * per))
        by (unfold sliceIndex; destruct (Z.ltb_spec ((0 - 1) * per) 0); lia).
      rewrite Hfinal. replace (Z.to_nat (0 - _)) with 0%nat by lia. apply take_0.
    + replace p with (Z.of_nat (Z.to_nat (p - 1)) + 1) by lia.
      rewrite Hpage, drop_ge; [apply take_nil|].
      apply Nat2Z.inj_le. rewrite Nat2Z.inj_mul, !Z2Nat.id by lia. nia.
Qed.

End Pagination.

(** X11. The pages of the rows shown.  The pages 1 to [totalRowsPages],
    one after the other, are the filtered rows, each once and in order; a
    page holds at most 50 rows, none of these pages is empty, and page 0
    and every page after the last are empty. *)
Theorem paginatedRows_pages (toLowerCase : jsstring → jsstring) (st : State) :
  let total := totalRowsPages toLowerCase st in
  let page := fun p => paginatedRows toLowerCase (setRowsPage p st) in
  0 ≤ total ∧
  concat ((fun i => page (Z.of_nat i + 1)) <$> seq 0 (Z.to_nat total))
  = filteredRows toLowerCase st ∧
  (∀ p, 1 ≤ p → Z.of_nat (length (page p)) ≤ 50) ∧
  (∀ p, 1 ≤ p ≤ total → page p ≠ []) ∧
  (∀ p, p = 0 ∨ total < p → page p = []).
Proof.
  exact (pages_spec ROWS_PER_PAGE (filteredRows toLowerCase st) eq_refl).
Qed.

(** X12. The pages of the folders and of the tables of the viewed folder:
    the pages 1 to the total make up the list, 8 folders and 9 tables on a
    page at most; with no folder viewed there is no page of tables. *)
Theorem paginatedFolders_paginatedTables_pages (st : State) :
  (0 ≤ totalFoldersPages st ∧
   concat ((fun i => paginatedFolders (Z.of_nat i + 1) st)
           <$> seq 0 (Z.to_nat (totalFoldersPages st))) = folders st ∧
   (∀ p, 1 ≤ p → Z.of_nat (length (paginatedFolders p st)) ≤ 8) ∧
   (∀ p, totalFoldersPages st < p → paginatedFolders p st = [])) ∧
  (0 ≤ totalTablesPages st ∧
   concat ((fun i => paginatedTables (Z.of_nat i + 1) st)
           <$> seq 0 (Z.to_nat (totalTablesPages st)))
   = match activeFolder st with
     | Some f => f_tables f
     | None => []
     end ∧
   (∀ p, 1 ≤ p → Z.of_nat (length (paginatedTables p st)) ≤ 9) ∧
   (∀ p, totalTablesPages st < p → paginatedTables p st = [])).
Proof.
  split.
  - destruct (pages_spec FOLDERS_PER_PAGE (folders st) eq_refl)
      as (H0 & Hall & Hlen & _ & Hout).
    split; [exact H0|]. split; [exact Hall|]. split; [exact Hlen|].
    intros p Hp. apply Hout. by right.
  - unfold totalTablesPages, paginatedTables.
    assert (Hcomm : ∀ p, TABLES_PER_PAGE * p = p * TABLES_PER_PAGE) by (intros; lia).
    setoid_rewrite Hcomm.
    destruct (activeFolder st) as [f|].
    + destruct (pages_spec TABLES_PER_PAGE (f_tables f) eq_refl)
        as (H0 & Hall & Hlen & _ & Hout).
      split; [exact H0|]. split; [exact Hall|]. split; [exact Hlen|].
      intros p Hp. apply Hout. by right.
    + assert (Hnil : ∀ a b, slice a b (@nil ProjectTable) = [])
        by (intros; unfold slice; by rewrite drop_nil, take_nil).
      split; [done|]. split; [done|]. split; intros p _; by rewrite Hnil.
Qed.

(** ** The selection of rows *)

Section Selection.
Implicit Types (prev vids sel : list jsstring) (id : jsstring).

Lemma elem_of_fold_addToSet l : ∀ acc x,
  x ∈ fold_left addToSet l acc ↔ x ∈ acc ∨ x ∈ l.
Proof.
  induction l as [|k l IH]; intros acc x; simpl.
  { rewrite elem_of_nil. tauto. }
  rewrite IH, elem_of_cons. unfold addToSet. case_bool_decide as Hk.
  - split; [tauto|]. intros [?|[->|?]]; auto.
  - rewrite elem_of_app, list_elem_of_singleton. tauto.
Qed.

Lemma NoDup_fold_addToSet l : ∀ acc, NoDup acc → NoDup (fold_left addToSet l acc).
Proof.
  induction l as [|k l IH]; intros acc Hacc; [done|]. simpl. apply IH.
  unfold addToSet. case_bool_decide as Hk; [done|].
  apply NoDup_app. split; [done|]. split; [|apply NoDup_singleton].
  intros x Hx ->%list_elem_of_singleton. done.
Qed.

Lemma elem_of_fromSet l x : x ∈ fromSet l ↔ x ∈ l.
Proof. unfold fromSet. rewrite elem_of_fold_addToSet, elem_of_nil. tauto. Qed.

Lemma NoDup_fromSet l : NoDup (fromSet l).
Proof. apply NoDup_fold_addToSet. constructor. Qed.

Lemma elem_of_List_filter {A} (P : A → bool) (l : list A) x :
  x ∈ List.filter P l ↔ x ∈ l ∧ P x = true.
Proof. by rewrite !list_elem_of_In, filter_In. Qed.

Lemma NoDup_List_filter {A} (P : A → bool) (l : list A) :
  NoDup l → NoDup (List.filter P l).
Proof.
  induction 1 as [|x l Hx Hl IH]; simpl; [constructor|].
  destruct (P x); [|done]. constructor; [|done].
  rewrite elem_of_List_filter. tauto.
Qed.

Lemma forallb_elem_of prev vids :
  forallb (fun id => bool_decide (id ∈ prev)) vids = true ↔ ∀ id, id ∈ vids → id ∈ prev.
Proof.
  rewrite forallb_forall. split.
  - intros H id Hid%list_elem_of_In. apply H in Hid. by apply bool_decide_eq_true in Hid.
  - intros H id Hid%list_elem_of_In. apply bool_decide_eq_true. by apply H.
Qed.

End Selection.

(** X13. A row is selected once at most: every selection that the check
    boxes and the selection of the empty cells can produce from the empty
    selection is free of duplicates, so the number shown as selected
    counts rows. *)
Theorem reachableSelection_NoDup (sel : list jsstring) :
  reachableSelection sel → NoDup sel.
Proof.
  induction 1 as [|id prev _ IH|vids prev _ IH|colId st prev _ IH].
  - constructor.
  - unfold toggleSelect. case_bool_decide as Hid.
    + by apply NoDup_List_filter.
    + apply NoDup_app. split; [done|]. split; [|apply NoDup_singleton].
      intros x Hx ->%list_elem_of_singleton. done.
  - unfold toggleSelectPage. destruct (forallb _ vids).
    + by apply NoDup_List_filter.
    + apply NoDup_fromSet.
  - unfold handleSelectEmpty. destruct (activeTable st); [apply NoDup_fromSet|done].
Qed.

Lemma reachableSelection_NoDup_witness :
  toggleSelectPage [js "r1"; js "r2"] (toggleSelect (js "r1") []) = [js "r1"; js "r2"] ∧
  NoDup (toggleSelectPage [js "r1"; js "r2"] (toggleSelect (js "r1") [])).
Proof.
  split; [by vm_compute|].
  apply reachableSelection_NoDup. do 2 constructor. constructor.
Defined.

(** X14. The check box of the header turns over: on a page that has rows,
    a click leaves every row of the page selected when one of them was not,
    and none of them selected when all were; the rows of the other pages
    keep their state. *)
Theorem toggleSelectPage_flips (vids prev : list jsstring) :
  vids ≠ [] →
  pageChecked vids (toggleSelectPage vids prev) = negb (pageChecked vids prev) ∧
  (pageChecked vids prev = true →
   ∀ id, id ∈ vids → id ∉ toggleSelectPage vids prev) ∧
  (pageChecked vids prev = false →
   ∀ id, id ∈ vids → id ∈ toggleSelectPage vids prev) ∧
  (∀ id, id ∉ vids → id ∈ toggleSelectPage vids prev ↔ id ∈ prev).
Proof.
  intros Hne. unfold pageChecked, toggleSelectPage.
  assert (Hlen : (0 <? length vids)%nat = true) by (by destruct vids).
  rewrite Hlen. simpl.
  destruct (forallb (fun id => bool_decide (id ∈ prev)) vids) eqn:Hall; simpl.
  - assert (Hnone : ∀ id, id ∈ vids →
                      id ∉ List.filter (fun id => negb (bool_decide (id ∈ vids))) prev).
    { intros id Hid [_ Hin]%elem_of_List_filter.
      apply negb_true_iff, bool_decide_eq_false in Hin. done. }
    split; [|split; [by intros _|split; [done|]]].
    + apply not_true_iff_false. rewrite forallb_elem_of. intros Hin.
      destruct vids as [|id vids]; [done|].
      apply (Hnone id); [left|]. apply Hin. left.
    + intros id Hid. rewrite elem_of_List_filter.
      rewrite negb_true_iff, bool_decide_eq_false. tauto.
  - split; [|split; [done|split]].
    + apply forallb_elem_of. intros id Hid. rewrite elem_of_fromSet, elem_of_app. auto.
    + intros _ id Hid. rewrite elem_of_fromSet, elem_of_app. auto.
    + intros id Hid. rewrite elem_of_fromSet, elem_of_app. tauto.
Qed.

Lemma toggleSelectPage_flips_witness :
  let vids := [js "r1"; js "r2"] in
  let once := toggleSelectPage vids [js "r2"; js "r9"] in
  let twice := toggleSelectPage vids once in
  once = [js "r2"; js "r9"; js "r1"] ∧ twice = [js "r9"] ∧
  pageChecked vids once = true ∧ pageChecked vids twice = false.
Proof.
  intros vids once twice.
  destruct (toggleSelectPage_flips vids [js "r2"; js "r9"]) as (H1 & _); [done|].
  destruct (toggleSelectPage_flips vids once) as (H2 & _); [done|].
  split; [by vm_compute|]. split; [by vm_compute|].
  split; [refine (eq_trans H1 _); by vm_compute|].
  refine (eq_trans H2 _). by vm_compute.
Defined.

(** X15. The [Delete] of the selection removes as many rows as are
    selected: when the rows of the table have distinct ids and every
    selected id, each selected once, is the id of a row, the table has as
    many rows fewer as there are selected ids, and the rows left are the
    rows that were not selected, in their order. *)
Theorem deleteRows_count (selectedRowIds : list jsstring) (t : ProjectTable) :
  NoDup (r_id <$> t_rows t) → NoDup selectedRowIds →
  (∀ id, id ∈ selectedRowIds → id ∈ r_id <$> t_rows t) →
  (length (t_rows (deleteRows selectedRowIds t)) + length selectedRowIds
   = length (t_rows t))%nat ∧
  t_rows (deleteRows selectedRowIds t) `sublist_of` t_rows t ∧
  ∀ r, r ∈ t_rows (deleteRows selectedRowIds t)
       ↔ r ∈ t_rows t ∧ r_id r ∉ selectedRowIds.
Proof.
  intros Hrows Hsel Hin. simpl. split; [|split].
  - pose proof (filter_complement_length
                  (fun r => bool_decide (r_id r ∈ selectedRowIds)) (t_rows t)) as Hsplit.
    assert (Hlen : length (List.filter (fun r => bool_decide (r_id r ∈ selectedRowIds))
                                       (t_rows t))
                   = length selectedRowIds); [|lia].
    rewrite <- (length_fmap r_id).
    apply Permutation_length, NoDup_Permutation; [|done|].
    + clear Hin Hsplit. induction (t_rows t) as [|r rs IH]; [constructor|].
      rewrite fmap_cons in Hrows. apply NoDup_cons in Hrows as [Hr Hrs].
      simpl. destruct (bool_decide _); [|by apply IH].
      rewrite fmap_cons. constructor; [|by apply IH].
      intros (r' & Hid & [Hr' _]%elem_of_List_filter)%list_elem_of_fmap.
      apply Hr. rewrite Hid. by apply list_elem_of_fmap_2.
    + intros id. rewrite list_elem_of_fmap. split.
      * intros (r & -> & [_ Hr]%elem_of_List_filter). by apply bool_decide_eq_true in Hr.
      * intros Hid. pose proof (Hin id Hid) as Hrow.
        apply list_elem_of_fmap in Hrow as (r & Heq & Hr).
        exists r. split; [done|]. apply elem_of_List_filter.
        split; [done|]. apply bool_decide_eq_true. by rewrite <- Heq.
  - clear Hrows Hin. induction (t_rows t) as [|r rs IH]; simpl; [constructor|].
    destruct (negb _); [by apply sublist_skip|by apply sublist_cons].
  - intros r. rewrite elem_of_List_filter, negb_true_iff, bool_decide_eq_false. done.
Qed.

Lemma deleteRows_count_witness :
  let t := sampleTable "t" classic [("a", "A")]
             [sampleRow "r1" []; sampleRow "r2" []; sampleRow "r3" []] None in
  r_id <$> t_rows (deleteRows [js "r3"; js "r1"] t) = [js "r2"] ∧
  (length (t_rows (deleteRows [js "r3"; js "r1"] t)) + 2 = 3)%nat.
Proof.
  intros t. split; [by vm_compute|].
  refine (proj1 (deleteRows_count [js "r3"; js "r1"] t _ _ _)).
  - apply (bool_decide_unpack _). by vm_compute.
  - apply (bool_decide_unpack _). by vm_compute.
  - apply Forall_forall. apply (bool_decide_unpack _). by vm_compute.
Defined.



(** ** Folders and tables *)

Section Creation.
Implicit Types (t : ProjectTable) (st : State).

Lemma nonEmpty_trim_true (s : jsstring) : trim s ≠ [] → nonEmpty (trim s) = true.
Proof. by destruct (trim s). Qed.

End Creation.

(** X16. A table made in the viewed folder is put first in the folder and
    becomes the viewed table, whatever the ids of the other tables; it has
    no rows; with the automatic identifier asked for it has an identifier
    column, which cannot be deleted, and the first identifier is 1. *)
Theorem createTableInFolder_active (modalInput : jsstring) (modalTableType : TableType)
    (isAutoIdEnabled : bool) (now : Z) (st : State) (f : Folder) :
  trim modalInput ≠ [] → f_id f ≠ [] → activeFolder st = Some f →
  let st' := createTableInFolder modalInput modalTableType isAutoIdEnabled now st in
  let t := newTable modalInput modalTableType isAutoIdEnabled now in
  activeFolder st' = Some (stampFolder now (t :: f_tables f) f) ∧
  activeTable st' = Some t ∧
  t_rows t = [] ∧
  hasIdColumn t = isAutoIdEnabled ∧
  nextIdStart t = 1 ∧
  (∀ colId now', t_autoIdColumnId t = Some colId →
                 handleDeleteColumn colId now' st' = st').
Proof.
  intros Hname Hfid Hf st' t.
  assert (Hst' : st' = setActiveTableId (Some (t_id t))
            (setFolders
               ((fun f => if bool_decide (Some (f_id f) = activeFolderId st)
                          then stampFolder now (t :: f_tables f) f else f)
                <$> folders st) st)).
  { subst st'. unfold createTableInFolder. rewrite nonEmpty_trim_true by done.
    unfold activeFolder in Hf. apply find_some in Hf as [_ Hfa].
    apply bool_decide_eq_true in Hfa. rewrite <- Hfa. simpl.
    by destruct (f_id f). }
  assert (Hfolder : activeFolder st' = Some (stampFolder now (t :: f_tables f) f)).
  { rewrite Hst'. unfold activeFolder in *. simpl.
    rewrite find_fmap_preserve.
    - rewrite Hf. simpl. apply find_some in Hf as [_ Hfa]. by rewrite Hfa.
    - intros f'. by destruct (bool_decide (Some (f_id f') = activeFolderId st)) eqn:Hf'. }
  assert (Htable : activeTable st' = Some t).
  { unfold activeTable. rewrite Hfolder. rewrite Hst'. simpl.
    by rewrite bool_decide_eq_true_2. }
  split; [done|]. split; [done|]. split; [done|]. split; [|split].
  - subst t. unfold hasIdColumn, idColumnId, newTable. destruct isAutoIdEnabled; [|done].
    cbn [t_autoIdEnabled t_autoIdColumnId t_columns c_id fmap option_fmap option_map].
    unfold INITIAL_COLUMNS. cbn [app existsb c_id].
    rewrite bool_decide_eq_true_2 by done. reflexivity.
  - subst t. unfold nextIdStart. destruct (idColumnId _); [|done].
    by destruct (hasIdColumn _).
  - intros colId now' Hcol. unfold handleDeleteColumn. rewrite Htable.
    by rewrite bool_decide_eq_true_2.
Qed.

Lemma createTableInFolder_active_witness :
  let st := sampleState [sampleTable "table_7" classic [] [] None] "table_7" [] in
  let st' := createTableInFolder (js "New") pairwise true 7 st in
  ∃ t, activeTable st' = Some t ∧ t_name t = js "New" ∧ t_id t = js "table_7" ∧
       t_columns t = [{| c_id := js "col_7_id"; c_label := js "ID" |}] ∧
       hasIdColumn t = true ∧ nextIdStart t = 1 ∧
       handleDeleteColumn (js "col_7_id") 8 st' = st'.
Proof.
  intros st st'.
  destruct (createTableInFolder_active (js "New") pairwise true 7 st
              {| f_id := js "f"; f_name := js "f"; f_description := [];
                 f_tables := [sampleTable "table_7" classic [] [] None];
                 f_createdAt := 0; f_updatedAt := 0 |})
    as (_ & Ht & _ & Hid & Hnext & Hdel); [by vm_compute|done|by vm_compute|].
  eexists. split; [exact Ht|]. split; [by vm_compute|]. split; [by vm_compute|].
  split; [by vm_compute|]. split; [exact Hid|]. split; [exact Hnext|].
  apply Hdel. by vm_compute.
Defined.

Section ColumnMove.
Implicit Types (t : ProjectTable) (cols : list Column).

Lemma findIndex_Some id cols i :
  findIndex id cols = Some i → ∃ c, cols !! i = Some c ∧ c_id c = id.
Proof.
  revert i. induction cols as [|c cols IH]; intros i; [done|]. simpl.
  case_bool_decide as Hc.
  - intros [= <-]. by exists c.
  - destruct (findIndex id cols) as [j|]; [|done]. simpl. intros [= <-].
    by apply IH.
Qed.

(** The two [splice] calls: the column at [fromIndex] is taken out and put
    back at [toIndex]. *)
Lemma splice_move cols fromIndex toIndex moved :
  cols !! fromIndex = Some moved → (toIndex < length cols)%nat →
  let next := take toIndex (delete fromIndex cols)
              ++ moved :: drop toIndex (delete fromIndex cols) in
  next !! toIndex = Some moved ∧
  delete toIndex next = delete fromIndex cols ∧
  next ≡ₚ cols.
Proof.
  intros Hfrom Hto next.
  assert (Hlen : length (delete fromIndex cols) = (length cols - 1)%nat)
    by (apply length_delete; by eexists).
  assert (Htake : length (take toIndex (delete fromIndex cols)) = toIndex)
    by (rewrite length_take; lia).
  split; [|split].
  - subst next. rewrite lookup_app_r by lia. rewrite Htake, Nat.sub_diag. done.
  - subst next. rewrite <- Htake at 1. rewrite delete_middle. apply take_drop.
  - subst next. rewrite <- Permutation_middle, take_drop.
    symmetry. by apply delete_Permutation.
Qed.

End ColumnMove.

(** X17. A column dropped on another column takes the place of that
    column: after the drop the dragged column is at the index the target
    had, the other columns keep their order, no column is lost or doubled,
    and the rows are untouched.  A drop on the identifier column changes
    nothing. *)
Theorem handleColumnDrop_position (st : State) (t : ProjectTable)
    (dragColId targetColId : jsstring) (now : Z) (fromIndex toIndex : nat) :
  activeTable st = Some t →
  findIndex dragColId (t_columns t) = Some fromIndex →
  findIndex targetColId (t_columns t) = Some toIndex →
  dragColId ≠ [] → dragColId ≠ targetColId →
  (t_autoIdColumnId t = Some targetColId →
   handleColumnDrop (Some dragColId) targetColId now st = st) ∧
  (t_autoIdColumnId t ≠ Some targetColId →
   ∃ t',
     activeTable (handleColumnDrop (Some dragColId) targetColId now st) = Some t' ∧
     t_columns t' !! toIndex = t_columns t !! fromIndex ∧
     delete toIndex (t_columns t') = delete fromIndex (t_columns t) ∧
     t_columns t' ≡ₚ t_columns t ∧
     t_rows t' = t_rows t).
Proof.
  intros Ht Hfrom Hto Hne Hdiff. unfold handleColumnDrop. rewrite Ht.
  split; intros Hid.
  { by rewrite bool_decide_eq_true_2. }
  rewrite (bool_decide_eq_false_2 _ Hid).
  assert (Hd : nonEmpty dragColId = true) by (by destruct dragColId).
  rewrite Hd, bool_decide_eq_false_2 by done. simpl.
  rewrite activeTable_updateActiveTable.
  2:{ intros t0. unfold moveColumn.
      destruct (findIndex dragColId (t_columns t0)) as [i|]; [|done].
      destruct (findIndex targetColId (t_columns t0)) as [j|]; [|done].
      by destruct (t_columns t0 !! i). }
  rewrite Ht. simpl. eexists. split; [reflexivity|].
  unfold moveColumn. rewrite Hfrom, Hto.
  destruct (findIndex_Some _ _ _ Hfrom) as (moved & Hmoved & _).
  destruct (findIndex_Some _ _ _ Hto) as (target & Htarget & _).
  rewrite Hmoved. simpl.
  destruct (splice_move (t_columns t) fromIndex toIndex moved Hmoved) as (H1 & H2 & H3).
  { by eapply lookup_lt_Some. }
  done.
Qed.

Lemma handleColumnDrop_position_witness :
  let t := sampleTable "t" classic [("a", "A"); ("b", "B"); ("c", "C"); ("id", "ID")]
             [] (Some "id") in
  let st := sampleState [t] "t" [] in
  (∃ t', activeTable (handleColumnDrop (Some (js "c")) (js "a") 7 st) = Some t' ∧
         c_id <$> t_columns t' = [js "c"; js "a"; js "b"; js "id"]) ∧
  handleColumnDrop (Some (js "c")) (js "id") 7 st = st.
Proof.
  intros t st. split.
  - destruct (handleColumnDrop_position st t (js "c") (js "a") 7 2 0) as [_ H];
      [by vm_compute..|].
    destruct H as (t' & Ht' & _); [by vm_compute|].
    exists t'. split; [exact Ht'|]. vm_compute in Ht'. by injection Ht' as <-.
  - destruct (handleColumnDrop_position st t (js "c") (js "id") 7 2 3) as [H _];
      [by vm_compute..|].
    apply H. by vm_compute.
Defined.

(** ** Formatting *)

(** X18. The text [truncate] shows is never empty and, for a limit that
    is not negative, never longer than the limit and the three dots; a
    text within the limit is shown as it is, and a longer one starts with
    its first [limit] code units.  A cell of the table shows 28 code units
    at most. *)
Theorem truncate_length (str : jsstring) (limit : Z) :
  0 ≤ limit →
  truncate str limit ≠ [] ∧
  Z.of_nat (length (truncate str limit)) ≤ Z.max 1 (limit + 3) ∧
  (str ≠ [] → Z.of_nat (length str) ≤ limit → truncate str limit = str) ∧
  (str ≠ [] → take (Z.to_nat limit) (truncate str limit) = take (Z.to_nat limit) str) ∧
  (length (renderCellValue str) ≤ 28)%nat.
Proof.
  intros Hlimit.
  assert (Hbound : ∀ lim, 0 ≤ lim →
            Z.of_nat (length (truncate str lim)) ≤ Z.max 1 (lim + 3)).
  { intros lim Hlim. unfold truncate. destruct str as [|c s]; [simpl; lia|].
    cbn [nonEmpty negb]. destruct (Z.gtb_spec (Z.of_nat (length (c :: s))) lim).
    - rewrite length_app, length_take. change (length (js "...")) with 3%nat. lia.
    - lia. }
  split; [|split; [by apply Hbound|split; [|split]]].
  - unfold truncate. destruct str as [|c s]; [done|]. cbn [nonEmpty negb].
    destruct (_ >? _); [|done]. by destruct (take _ _).
  - intros Hne Hlen. unfold truncate. destruct str as [|c s]; [done|].
    cbn [nonEmpty negb]. destruct (Z.gtb_spec (Z.of_nat (length (c :: s))) limit); [lia|done].
  - intros Hne. unfold truncate. destruct str as [|c s]; [done|].
    cbn [nonEmpty negb]. destruct (Z.gtb_spec (Z.of_nat (length (c :: s))) limit); [|done].
    rewrite take_app_le by (rewrite length_take; lia).
    rewrite take_take. f_equal. lia.
  - unfold renderCellValue. pose proof (Hbound TABLE_CELL_LIMIT ltac:(done)) as H.
    unfold TABLE_CELL_LIMIT in *. lia.
Qed.

Lemma truncate_length_witness :
  truncate (js "abcdefghijklmnopqrstuvwxyz") 25 = js "abcdefghijklmnopqrstuvwxy..." ∧
  (length (renderCellValue (js "abcdefghijklmnopqrstuvwxyz")) ≤ 28)%nat.
Proof.
  split; [by vm_compute|].
  by apply (truncate_length (js "abcdefghijklmnopqrstuvwxyz") 25).
Defined.

Section FileNames.
Implicit Types (s : jsstring).

Lemma head_collapseUnderscores s : head (collapseUnderscores s) = head s.
Proof.
  induction s as [|c s IH]; [done|]. cbn [collapseUnderscores].
  destruct (c =? UNDERSCORE)%N eqn:Hc; [|done].
  destruct s as [|d s]; [done|].
  destruct (d =? UNDERSCORE)%N eqn:Hd; [|done]. cbn [andb].
  rewrite IH. apply N.eqb_eq in Hc, Hd. by subst.
Qed.

(** After [replace(/_+/g, '_')] no underscore follows another. *)
Lemma collapseUnderscores_apart s i :
  collapseUnderscores s !! i = Some UNDERSCORE →
  collapseUnderscores s !! S i ≠ Some UNDERSCORE.
Proof.
  revert i. induction s as [|c s IH]; intros i; [done|]. cbn [collapseUnderscores].
  destruct ((c =? UNDERSCORE)%N && _) eqn:Hc; [apply IH|].
  destruct i as [|i]; [|exact (IH i)].
  intros [= ->]. rewrite N.eqb_refl in Hc. cbn [andb] in Hc.
  change ((UNDERSCORE :: collapseUnderscores s) !! 1%nat)
    with (collapseUnderscores s !! 0%nat).
  rewrite <- head_lookup, head_collapseUnderscores.
  destruct s as [|d s]; [done|]. simpl. intros [= ->].
  by rewrite N.eqb_refl in Hc.
Qed.

Lemma dropUnderscores_suffix s : ∃ pre, s = pre ++ dropUnderscores s.
Proof.
  induction s as [|c s [pre IH]]; [by exists []|]. simpl.
  destruct (c =? UNDERSCORE)%N; [|by exists []].
  exists (c :: pre). simpl. by rewrite <- IH.
Qed.

Lemma head_dropUnderscores s : head (dropUnderscores s) ≠ Some UNDERSCORE.
Proof.
  induction s as [|c s IH]; [done|]. simpl.
  destruct (c =? UNDERSCORE)%N eqn:Hc; [done|]. simpl. intros [= ->].
  by rewrite N.eqb_refl in Hc.
Qed.

Lemma dropUnderscores_snoc s c :
  c ≠ UNDERSCORE → dropUnderscores (s ++ [c]) = dropUnderscores s ++ [c].
Proof.
  intros Hc%N.eqb_neq. induction s as [|d s IH]; simpl; [by rewrite Hc|].
  by destruct (d =? UNDERSCORE)%N.
Qed.

Lemma last_rev s : last (rev s) = head s.
Proof. destruct s as [|c s]; [done|]. simpl. by rewrite last_snoc. Qed.

Lemma head_stripUnderscores s : head (stripUnderscores s) ≠ Some UNDERSCORE.
Proof.
  unfold stripUnderscores. pose proof (head_dropUnderscores s) as Hhead.
  destruct (dropUnderscores s) as [|c z]; [done|]. simpl in *.
  assert (Hc : c ≠ UNDERSCORE) by congruence.
  rewrite dropUnderscores_snoc, rev_app_distr by done. simpl. congruence.
Qed.

Lemma stripUnderscores_middle s : ∃ pre post, s = pre ++ stripUnderscores s ++ post.
Proof.
  unfold stripUnderscores.
  destruct (dropUnderscores_suffix s) as [pre Hpre].
  destruct (dropUnderscores_suffix (rev (dropUnderscores s))) as [post Hpost].
  exists pre, (rev post). rewrite <- rev_app_distr, <- Hpost, rev_involutive. exact Hpre.
Qed.

Lemma dropUnderscores_clean s :
  Forall (fun c => c ≠ UNDERSCORE) s → dropUnderscores s = s.
Proof.
  destruct 1 as [|c s Hc%N.eqb_neq _]; [done|]. simpl. by rewrite Hc.
Qed.

Lemma collapseUnderscores_clean s :
  Forall (fun c => c ≠ UNDERSCORE) s → collapseUnderscores s = s.
Proof.
  induction 1 as [|c s Hc%N.eqb_neq _ IH]; [done|]. simpl. by rewrite Hc, IH.
Qed.

Lemma stripUnderscores_clean s :
  Forall (fun c => c ≠ UNDERSCORE) s → stripUnderscores s = s.
Proof.
  intros Hs. unfold stripUnderscores. rewrite (dropUnderscores_clean s Hs).
  rewrite dropUnderscores_clean, rev_involutive; [done|].
  apply Forall_forall. intros c Hc%list_elem_of_In%in_rev%list_elem_of_In.
  rewrite Forall_forall in Hs. by apply Hs.
Qed.

Lemma characters_units s :
  Forall (fun c => isHighSurrogate c = false) s →
  characters s = (fun c => (c, [c])) <$> s.
Proof.
  induction 1 as [|c s Hc _ IH]; [done|]. cbn [characters]. rewrite Hc.
  destruct s as [|d s]; [done|]. cbn [andb]. by rewrite IH.
Qed.

Lemma replaceOthers_clean (isLetterOrNumber : N → bool) s : ∀ inRun,
  Forall (fun c => isNameChar isLetterOrNumber c = true) s →
  replaceOthers isLetterOrNumber ((fun c => (c, [c])) <$> s) inRun = s.
Proof.
  induction s as [|c s IH]; intros inRun Hs; [done|].
  apply Forall_cons in Hs as [Hc Hs]. rewrite fmap_cons. cbn [replaceOthers].
  rewrite Hc. simpl. by rewrite IH.
Qed.

End FileNames.

(** X19. The shape of a sanitized file name: it does not start and does
    not end with an underscore, and no underscore follows another; a name
    made of letters, digits and hyphens of the basic plane is kept as it
    is; the name of the download, which falls back on [table], is never
    empty. *)
Theorem sanitizeFilename_shape (isLetterOrNumber : N → bool) (name : jsstring) :
  let r := sanitizeFilename isLetterOrNumber name in
  head r ≠ Some UNDERSCORE ∧ last r ≠ Some UNDERSCORE ∧
  (∀ i, r !! i = Some UNDERSCORE → r !! S i ≠ Some UNDERSCORE) ∧
  (Forall (fun c => (isLetterOrNumber c = true ∨ c = HYPHEN)
                    ∧ c ≠ UNDERSCORE ∧ isHighSurrogate c = false) name →
   r = name) ∧
  safeFilename isLetterOrNumber name ≠ [].
Proof.
  intros r. subst r. unfold sanitizeFilename.
  set (c := collapseUnderscores _).
  split; [apply head_stripUnderscores|]. split; [|split; [|split]].
  - unfold stripUnderscores. rewrite last_rev. apply head_dropUnderscores.
  - intros i Hi.
    destruct (stripUnderscores_middle c) as (pre & post & Hc).
    pose proof (collapseUnderscores_apart
                  (replaceOthers isLetterOrNumber (characters name) false)
                  (length pre + i)) as Hapart.
    fold c in Hapart. rewrite Hc in Hapart.
    rewrite lookup_app_r in Hapart by lia.
    replace (length pre + i - length pre)%nat with i in Hapart by lia.
    rewrite (lookup_app_l_Some _ _ _ _ Hi) in Hapart.
    specialize (Hapart eq_refl).
    replace (S (length pre + i)) with (length pre + S i)%nat in Hapart by lia.
    rewrite lookup_app_r in Hapart by lia.
    replace (length pre + S i - length pre)%nat with (S i) in Hapart by lia.
    intros Hnext. apply Hapart. by apply lookup_app_l_Some.
  - intros Hname. subst c.
    assert (Hclean : Forall (fun c => c ≠ UNDERSCORE) name)
      by (eapply Forall_impl; [exact Hname|]; by intros x (_ & ? & _)).
    rewrite characters_units
      by (eapply Forall_impl; [exact Hname|]; by intros x (_ & _ & ?)).
    rewrite replaceOthers_clean.
    + by rewrite collapseUnderscores_clean, stripUnderscores_clean.
    + eapply Forall_impl; [exact Hname|]. intros x ([Hx| ->] & _ & _).
      * unfold isNameChar. by rewrite Hx.
      * unfold isNameChar. rewrite N.eqb_refl. by rewrite !orb_true_r.
  - unfold safeFilename, sanitizeFilename. fold c.
    by destruct (stripUnderscores c).
Qed.

Lemma sanitizeFilename_shape_witness :
  let alnum := fun c : N => ((48 <=? c) && (c <=? 57) || (65 <=? c) && (c <=? 90)
                             || (97 <=? c) && (c <=? 122))%N in
  sanitizeFilename alnum (js "__my  table (v2).csv!") = js "my_table_v2_csv" ∧
  sanitizeFilename alnum (js "my-table-2") = js "my-table-2" ∧
  safeFilename alnum (js "???") = js "table".
Proof.
  intros alnum. split; [by vm_compute|]. split; [|by vm_compute].
  apply (sanitizeFilename_shape alnum (js "my-table-2")).
  apply (bool_decide_unpack _). by vm_compute.
Defined.
(** ** The sidebar *)

(** X20. What the search of the sidebar finds.  A blank search text lists
    every column; otherwise a column whose id names no member of
    [Object.prototype] is listed exactly when its label, or a cell of it
    in some row of the table that is neither empty nor [__proto__],
    contains the search text, both in lower case.  ([__proto__] is never
    a key of the statistics, so a cell that holds it is not searched.) *)
Theorem visibleSidebarColumns_spec
    (nativeFunctionText toLowerCase : jsstring → jsstring)
    (sidebarSearch : jsstring) (st : State) (t : ProjectTable) :
  activeTable st = Some t →
  (trim sidebarSearch = [] →
   visibleSidebarColumns toLowerCase nativeFunctionText sidebarSearch st
   = t_columns t) ∧
  (trim sidebarSearch ≠ [] →
   ∀ col, c_id col ∉ objectPrototypeKeys →
     col ∈ visibleSidebarColumns toLowerCase nativeFunctionText sidebarSearch st
     ↔ col ∈ t_columns t ∧
       (includes (toLowerCase (c_label col)) (toLowerCase sidebarSearch) = true
        ∨ ∃ r, r ∈ t_rows t ∧ cellOf r (c_id col) ≠ [] ∧
               cellOf r (c_id col) ≠ PROTO ∧
               includes (toLowerCase (cellOf r (c_id col)))
                        (toLowerCase sidebarSearch) = true)).
Proof.
  intros Ht. unfold visibleSidebarColumns. rewrite Ht. split.
  - intros ->. done.
  - intros Hne. assert (Hs : nonEmpty (trim sidebarSearch) = true)
      by (by destruct (trim sidebarSearch)).
    rewrite Hs. simpl. intros col Hid. rewrite !list_elem_of_In, filter_In.
    rewrite <- !list_elem_of_In.
    split; intros [Hcol Hmatch]; (split; [done|]).
    + apply orb_true_iff in Hmatch as [Hlabel|Hvalue]; [by left|right].
      unfold columnValueStats in Hvalue. rewrite Ht in Hvalue.
      rewrite (statsOfTable_lookup nativeFunctionText t col Hcol) in Hvalue.
      apply existsb_exists in Hvalue as (v & Hv%list_elem_of_In & Hinc).
      apply list_elem_of_fmap in Hv as ([k n] & -> & Hkn%elem_of_map_to_list).
      simpl in *.
      assert (Hkey : is_Some (counts (countRows nativeFunctionText (c_id col)
                                        (t_rows t)) !! k)) by done.
      apply (countRows_keys nativeFunctionText _ _ _ Hid) in Hkey
        as (Hk & Hp & r & Hr & <-).
      by exists r.
    + apply orb_true_iff.
      destruct Hmatch as [Hlabel|(r & Hr & Hcell & Hp & Hinc)]; [by left|right].
      unfold columnValueStats.
      rewrite Ht, (statsOfTable_lookup nativeFunctionText t col Hcol).
      apply existsb_exists. exists (cellOf r (c_id col)).
      split; [|done]. apply list_elem_of_In.
      assert (Hkey : is_Some (counts (countRows nativeFunctionText (c_id col)
                                        (t_rows t)) !! cellOf r (c_id col))).
      { apply (countRows_keys nativeFunctionText _ _ _ Hid).
        split; [done|]. split; [done|]. by exists r. }
      destruct Hkey as [n Hn]. apply list_elem_of_fmap.
      exists (cellOf r (c_id col), n). split; [done|].
      by apply elem_of_map_to_list.
Qed.

Lemma visibleSidebarColumns_spec_witness :
  let t := sampleTable "t" classic [("a", "Name"); ("b", "City")]
             [sampleRow "r1" [("a", "Ann"); ("b", "Rome")];
              sampleRow "r2" [("a", "Bob"); ("b", "Oslo")]] None in
  let st := sampleState [t] "t" [] in
  c_id <$> visibleSidebarColumns asciiLower v8FunctionText (js "OS") st = [js "b"] ∧
  visibleSidebarColumns asciiLower v8FunctionText (js "  ") st = t_columns t.
Proof.
  intros t st. split; [by vm_compute|].
  by apply (visibleSidebarColumns_spec v8FunctionText asciiLower (js "  ") st t).
Defined.

(** ** JSON export and import *)

Section JsonRoundTrip.
Implicit Types (t : ProjectTable) (r : DynamicRow) (c : Column).












End JsonRoundTrip.



(** ** The hook of the tables *)

(** X22. The column deletion of the hook [useTableData] keeps the keys of
    the rows within the columns: in the table with the given id the column
    is gone from the columns and from every row, and the other tables are
    as they were. *)
Theorem useTableData_deleteColumn_within (tableId columnId : jsstring) (now : Z)
    (tables : list ProjectTable) :
  Forall valuesWithinColumns tables →
  let tables' := UseTableData.deleteColumn tableId columnId now tables in
  Forall valuesWithinColumns tables' ∧
  (∀ i t, tables !! i = Some t → t_id t ≠ tableId → tables' !! i = Some t) ∧
  (∀ i t', tables' !! i = Some t' → t_id t' = tableId →
     t_updatedAt t' = now ∧
     (columnId ∉ c_id <$> t_columns t') ∧
     (∀ r, r ∈ t_rows t' → r_values r !! columnId = None)).
Proof.
  intros Hinv tables'. subst tables'. unfold UseTableData.deleteColumn, UseTableData.onTable.
  split; [|split].
  - apply Forall_fmap. eapply Forall_impl; [exact Hinv|]. intros t Ht. simpl.
    case_bool_decide; [|done].
    exact (deleteColumn_within columnId t Ht).
  - intros i t Hi Hne. rewrite list_lookup_fmap, Hi. simpl.
    by rewrite bool_decide_eq_false_2.
  - intros i t' Hi Hid. rewrite list_lookup_fmap in Hi.
    destruct (tables !! i) as [t|]; [|done]. simpl in Hi. injection Hi as <-.
    case_bool_decide as Ht.
    + split; [done|]. split.
      * exact (deleteColumn_not_column columnId t).
      * exact (deleteColumn_removes columnId t).
    + done.
Qed.

Lemma useTableData_deleteColumn_within_witness :
  let t := sampleTable "t" classic [("a", "A"); ("b", "B")]
             [sampleRow "r1" [("a", "x"); ("b", "y")]] None in
  let u := sampleTable "u" classic [("a", "A")] [] None in
  let tables' := UseTableData.deleteColumn (js "t") (js "a") 7 [t; u] in
  Forall valuesWithinColumns tables' ∧
  (fun t => c_id <$> t_columns t) <$> tables' = [[js "b"]; [js "a"]].
Proof.
  intros t u tables'. split; [|by vm_compute].
  apply (useTableData_deleteColumn_within (js "t") (js "a") 7 [t; u]).
  apply Forall_cons; split; [|apply Forall_cons; split; [|constructor]].
  - intros r k Hr [v Hk]. simpl in Hr. apply list_elem_of_singleton in Hr. subst r.
    destruct (decide (k = js "a")) as [->|Ha];
      [apply (bool_decide_unpack _); by vm_compute|].
    destruct (decide (k = js "b")) as [->|Hb];
      [apply (bool_decide_unpack _); by vm_compute|].
    exfalso. revert Hk. unfold sampleRow. simpl.
    rewrite lookup_insert_ne by done. rewrite lookup_insert_ne by done.
    by rewrite lookup_empty.
  - by intros r k Hr%elem_of_nil.
Defined.

(** ** The ids of generated rows *)

Section RowIds.

Lemma rowId_inj now i j : rowId now i = rowId now j → i = j.
Proof.
  unfold rowId. intros H. apply app_inv_head in H. apply app_inv_head in H.
  apply app_inv_head in H. by apply numToString_inj.
Qed.

Lemma NoDup_rowIds {A} (now : Z) (g : nat → A → DynamicRow) (l : list A) :
  (∀ i x, r_id (g i x) = rowId now (Z.of_nat i)) →
  NoDup (r_id <$> imap g l).
Proof.
  intros Hg. apply NoDup_alt. intros i j id Hi Hj.
  rewrite list_lookup_fmap, list_lookup_imap in Hi, Hj.
  destruct (l !! i) as [x|]; [|done]. destruct (l !! j) as [y|]; [|done].
  simpl in Hi, Hj. rewrite Hg in Hi, Hj.
  assert (Heq : rowId now (Z.of_nat i) = rowId now (Z.of_nat j)) by congruence.
  apply rowId_inj in Heq. lia.
Qed.

Lemma NoDup_rowIds_seq (now : Z) (g : nat → DynamicRow) (n : nat) :
  (∀ i, r_id (g i) = rowId now (Z.of_nat i)) →
  NoDup (r_id <$> (g <$> seq 0 n)).
Proof.
  intros Hg. apply NoDup_alt. intros i j id Hi Hj.
  rewrite !list_lookup_fmap in Hi, Hj.
  destruct (seq 0 n !! i) as [x|] eqn:Ei; [|done].
  destruct (seq 0 n !! j) as [y|] eqn:Ej; [|done].
  apply lookup_seq in Ei as [-> _], Ej as [-> _].
  simpl in Hi, Hj. rewrite Hg in Hi, Hj.
  assert (Heq : rowId now (Z.of_nat i) = rowId now (Z.of_nat j)) by congruence.
  apply rowId_inj in Heq. lia.
Qed.

End RowIds.

(** X24. The rows of one generation have ids that differ from one
    another, in both modes. *)
Theorem handleAddRow_row_ids (st : State) (t t' : ProjectTable) (now : Z) :
  activeTable st = Some t →
  activeTable (handleAddRow now st) = Some t' →
  ∃ newRows, t_rows t' = newRows ++ t_rows t ∧ NoDup (r_id <$> newRows).
Proof.
  intros Ht. destruct (isNewRowDataValid st) eqn:Hvalid.
  - rewrite (activeTable_handleAddRow_table st t now Ht Hvalid). intros [= <-].
    eexists. split; [reflexivity|]. destruct (t_type t).
    + unfold classicRows. destruct (classicScan _ _) as [m n].
      by apply (NoDup_rowIds_seq now).
    + unfold pairwiseRows. destruct (pairwiseOptions _ _) as [options keys].
      by apply (NoDup_rowIds now).
  - unfold handleAddRow. rewrite Ht, Hvalid. simpl. rewrite Ht. intros [= <-].
    exists []. split; [done|]. constructor.
Qed.

Lemma handleAddRow_row_ids_witness :
  let t := sampleTable "t" classic [("a", "A")] [sampleRow "r0" []] None in
  let st := sampleState [t] "t" [("a", "x/y")] in
  ∃ t', activeTable (handleAddRow 7 st) = Some t' ∧
        r_id <$> t_rows t' = [js "row_7_0"; js "row_7_1"; js "r0"] ∧
        ∃ newRows, t_rows t' = newRows ++ t_rows t ∧ NoDup (r_id <$> newRows).
Proof.
  intros t st.
  destruct (activeTable (handleAddRow 7 st)) as [t'|] eqn:Hactive;
    [|by vm_compute in Hactive].
  exists t'. split; [done|]. split.
  - vm_compute in Hactive. by injection Hactive as <-.
  - by apply (handleAddRow_row_ids st t t' 7).
Defined.

(** ** Generic JSON import *)

Section GenericImport.
Variable toLowerCase : jsstring → jsstring.
Implicit Types (t : ProjectTable) (st : State) (parsed obj : json).





End GenericImport.



(** ** The statistics of the values that name no inherited member *)

(** X25. The statistics of a column whose id names no member of
    [Object.prototype].  The entry of every value that names none either
    is the number of rows of the table whose cell is exactly the value,
    with no entry for a value of no row, whatever the other cells hold;
    [emptyCount] is the number of rows whose cell is empty or absent.
    When no cell of the column names a member, no inherited name has an
    entry and [emptyCount] plus the sum of the counts is the number of
    rows.  The statistics depend on the collection and the viewed table
    only, not on the filters, the search text or the page, and the hook
    [useColumnStats] computes the same. *)
Theorem columnValueStats_own_values (nativeFunctionText : jsstring → jsstring)
    (st : State) (t : ProjectTable) (col : Column) :
  activeTable st = Some t → col ∈ t_columns t →
  c_id col ∉ objectPrototypeKeys →
  ∃ s, columnValueStats nativeFunctionText st !! c_id col = Some s ∧
    (∀ v, v ∉ objectPrototypeKeys →
       counts s !! v
       = if nonEmpty v && (0 <? occurrences (c_id col) v (t_rows t))%nat
         then Some (CountNumber (occurrences (c_id col) v (t_rows t))) else None) ∧
    emptyCount s = occurrences (c_id col) [] (t_rows t) ∧
    ((∀ r, r ∈ t_rows t → cellOf r (c_id col) ∉ objectPrototypeKeys) →
     (∀ v, v ∈ objectPrototypeKeys → counts s !! v = None) ∧
     (emptyCount s + sumCounts (counts s) = length (t_rows t))%nat) ∧
    useColumnStats nativeFunctionText (activeTable st)
    = columnValueStats nativeFunctionText st ∧
    ∀ st', folders st' = folders st → activeFolderId st' = activeFolderId st →
           activeTableId st' = activeTableId st →
           columnValueStats nativeFunctionText st'
           = columnValueStats nativeFunctionText st.
Proof.
  intros Ht Hcol Hid.
  exists (countRows nativeFunctionText (c_id col) (t_rows t)).
  destruct (countRows_spec nativeFunctionText (c_id col) (t_rows t) Hid)
    as (Hc & He & Hs).
  split; [|split; [|split; [|split; [|split]]]]; try done.
  - unfold columnValueStats. rewrite Ht. by apply statsOfTable_lookup.
  - intros st' Hf Ha Hb. unfold columnValueStats, activeTable, activeFolder.
    by rewrite Hf, Ha, Hb.
Qed.

Lemma columnValueStats_own_values_witness :
  let t := sampleTable "t" classic [("a", "A")]
             [sampleRow "r1" [("a", "x")]; sampleRow "r2" [("a", "")];
              sampleRow "r3" [("a", "y")]; sampleRow "r4" [];
              sampleRow "r5" [("a", "x")]] None in
  ∃ s, columnValueStats v8FunctionText (sampleState [t] "t" []) !! js "a" = Some s ∧
       counts s !! js "x" = Some (CountNumber 2) ∧
       counts s !! js "y" = Some (CountNumber 1) ∧
       emptyCount s = 2%nat ∧ sumCounts (counts s) = 3%nat.
Proof.
  intros t.
  destruct (columnValueStats_own_values v8FunctionText (sampleState [t] "t" []) t
              {| c_id := js "a"; c_label := js "A" |})
    as (s & Hs & Hc & He & Hsum & _).
  - by vm_compute.
  - left.
  - apply (bool_decide_unpack _). by vm_compute.
  - exists s. split; [exact Hs|].
    rewrite (Hc (js "x")), (Hc (js "y"))
      by (apply (bool_decide_unpack _); by vm_compute).
    destruct Hsum as [_ Hsum].
    { apply Forall_forall, (bool_decide_unpack _). by vm_compute. }
    rewrite He in *.
    change (occurrences (c_id {| c_id := js "a"; c_label := js "A" |}) [] (t_rows t))
      with 2%nat in *.
    change (length (t_rows t)) with 5%nat in Hsum.
    split; [by vm_compute|]. split; [by vm_compute|]. split; [done|lia].
Defined.
